(** * An open queueing network simulator: model and verified properties

    Shallow embedding of [QNetwork.py] (classes [Source] and [Queue]) and of
    the functions [wrapper] and [extractor] of [Simulator.py], with the
    derivation of the service means that precedes them in [main].

    Conventions of the embedding.
    - Python [float] values (times, means, probabilities) are rationals [Q]:
      the arithmetic is exact, so rounding, infinities and NaN are outside the
      model.  Python [==] on floats is [Qeq], never Leibniz equality.
    - Python [int] values are [Z]; list positions and dictionary keys that
      index stations are [nat].
    - [None] is [None]: a field that holds either a number or [None] has an
      option type.
    - An exception is a value [Raise e]; every operation that can raise
      returns a [result].  The one arithmetic operation of the code that
      raises on a [float] is the power [x ** 2], when the square is out of
      range; the other operations on floats return and stay exact here.
    - [numpy] is not part of the repository.  Its elementary functions and the
      variates its generator returns are the fields of the class [Numpy]; the
      argument checks of its samplers are written out.
    - [heapq] stores a binary heap in a list.  Here a heap is the list of its
      entries in any order and [heappop] selects the least entry under the
      comparison Python would apply to the tuples. *)

From Stdlib Require Import QArith Qabs ZArith Lia Lqa Permutation.
From stdpp Require Import base option list.

(** ** Exceptions and results *)

Inductive exn : Set :=
| IndexError | KeyError | ValueError | TypeError
| AttributeError | UnboundLocalError | OverflowError.

Inductive result (A : Type) : Type :=
| Ok (a : A)
| Raise (e : exn).
Arguments Ok {A} a.
Arguments Raise {A} e.

Definition rbind {A B} (m : result A) (f : A -> result B) : result B :=
  match m with
  | Ok a => f a
  | Raise e => Raise e
  end.

Notation "'let*' x ':=' m 'in' k" := (rbind m (fun x => k))
  (at level 10, x name, m at level 100, k at level 200, only parsing).
Notation "'let*' ' p ':=' m 'in' k" := (rbind m (fun x => let p := x in k))
  (at level 10, p pattern, m at level 100, k at level 200, only parsing).

(** [l[i]] on a Python list. *)
Definition index {A} (l : list A) (i : nat) : result A :=
  match l !! i with
  | Some a => Ok a
  | None => Raise IndexError
  end.

(** Reading a local variable that some branches leave unassigned. *)
Definition bound {A} (o : option A) : result A :=
  match o with
  | Some a => Ok a
  | None => Raise UnboundLocalError
  end.

(** ** Sampling computations

    A computation that draws from the generator threads the generator state,
    the number of variates drawn so far. *)

Definition M (A : Type) : Type := nat -> result (A * nat).

Definition ret {A} (a : A) : M A := fun g => Ok (a, g).
Definition raise {A} (e : exn) : M A := fun _ => Raise e.
Definition bind {A B} (m : M A) (f : A -> M B) : M B :=
  fun g => match m g with
           | Ok (a, g') => f a g'
           | Raise e => Raise e
           end.
Definition lift {A} (r : result A) : M A :=
  fun g => match r with
           | Ok a => Ok (a, g)
           | Raise e => Raise e
           end.

Notation "'let!' x ':=' m 'in' k" := (bind m (fun x => k))
  (at level 10, x name, m at level 100, k at level 200, only parsing).
Notation "'let!' ' p ':=' m 'in' k" := (bind m (fun x => let p := x in k))
  (at level 10, p pattern, m at level 100, k at level 200, only parsing).

(** The list comprehension [[f(i) for i in range(i0, i0 + n)]] when [f]
    samples. *)
Fixpoint for_range {A} (f : nat -> M A) (i n : nat) : M (list A) :=
  match n with
  | O => ret []
  | S n' => let! a := f i in
            let! l := for_range f (S i) n' in
            ret (a :: l)
  end.

(** The same comprehension when [f] only indexes lists. *)
Fixpoint for_range_pure {A} (f : nat -> result A) (i n : nat)
  : result (list A) :=
  match n with
  | O => Ok []
  | S n' => let* a := f i in
            let* l := for_range_pure f (S i) n' in
            Ok (a :: l)
  end.

(** The list comprehension [[f(x) for x in l]]. *)
Fixpoint for_each {A B} (f : A -> result B) (l : list A) : result (list B) :=
  match l with
  | [] => Ok []
  | x :: l' => let* b := f x in
               let* r := for_each f l' in
               Ok (b :: r)
  end.

(** ** Numbers *)

Definition Qlt_bool (x y : Q) : bool := negb (Qle_bool y x).

(** [x ** 2] on a numpy scalar (a value that [np.sqrt] or [np.log]
    returned): the power never raises. *)
Definition sq (x : Q) : Q := (x * x)%Q.

(** The least magnitude that rounds to infinity in the binary64 format of
    Python's [float]: the largest finite float plus half a unit in its last
    place. *)
Definition float_overflow : Q := inject_Z (2 ^ 1024 - 2 ^ 970).

(** [x ** 2] on a Python [float] (an argument of a constructor):
    [float.__pow__] raises [OverflowError] when the square is out of
    range, as in [1e200 ** 2]. *)
Definition float_sq (x : Q) : result Q :=
  if Qle_bool float_overflow (sq x) then Raise OverflowError
  else Ok (sq x).

(** [sum(l)] *)
Definition sum (l : list Q) : Q := fold_left Qplus l 0%Q.

(** [max(0, x)]: Python returns the first argument unless a later one is
    strictly greater. *)
Definition max0 (x : Q) : Q := if Qlt_bool 0 x then x else 0%Q.

(** Truth value of a field that holds a float or [None]. *)
Definition truthy (o : option Q) : bool :=
  match o with
  | None => false
  | Some t => negb (Qeq_bool t 0)
  end.

(** ** numpy *)

Inductive family : Set := Exponential | Lognormal | Unsupported.

(** The elementary functions, and the variate the generator returns in state
    [g] for each kind of request: a uniform number of [[0,1)], a standard
    exponential and a standard normal variate. *)
Class Numpy : Type := {
  np_exp : Q -> Q;
  np_log : Q -> Q;
  np_sqrt : Q -> Q;
  random_sample : nat -> Q;
  standard_exponential : nat -> Q;
  standard_normal : nat -> Q
}.

Section Samplers.
Context `{Numpy}.

(** [np.random.exponential(scale)] *)
Definition np_random_exponential (scale : Q) : M Q :=
  fun g => if Qlt_bool scale 0 then Raise ValueError
           else Ok ((scale * standard_exponential g)%Q, S g).

(** [np.random.normal(loc, scale)] *)
Definition np_random_normal (loc scale : Q) : M Q :=
  fun g => if Qlt_bool scale 0 then Raise ValueError
           else Ok ((loc + scale * standard_normal g)%Q, S g).

(** [np.random.lognormal(mean, sigma)] *)
Definition np_random_lognormal (mean sigma : Q) : M Q :=
  fun g => if Qlt_bool sigma 0 then Raise ValueError
           else Ok (np_exp (mean + sigma * standard_normal g)%Q, S g).

(** [p.cumsum()] *)
Fixpoint cumsum (acc : Q) (p : list Q) : list Q :=
  match p with
  | [] => []
  | x :: p' => (acc + x)%Q :: cumsum (acc + x)%Q p'
  end.

(** [cdf.searchsorted(u, side='right')] on a nondecreasing [cdf]. *)
Definition searchsorted_right (cdf : list Q) (u : Q) : nat :=
  length (filter (fun c => Qle_bool c u = true) cdf).

(** The tolerance [sqrt(eps)] of [np.random.choice] on the sum of [p]. *)
Definition atol : Q := 1 # 67108864.

(** [np.random.choice(range(n), p = p)]: the checks of the arguments (a
    non-empty range, as many probabilities, none negative, their sum within
    [atol] of 1), then inverse-CDF selection with one uniform variate over
    the normalised cumulative sums. *)
Definition np_random_choice (n : nat) (p : list Q) : M nat :=
  fun g =>
    if (n =? 0)%nat then Raise ValueError
    else if negb (length p =? n)%nat then Raise ValueError
    else if existsb (fun x => Qlt_bool x 0) p then Raise ValueError
    else if Qlt_bool atol (Qabs (sum p - 1)) then Raise ValueError
    else
      let cdf := cumsum 0 p in
      let cdf := map (fun c => (c / sum p)%Q) cdf in
      let idx := searchsorted_right cdf (random_sample g) in
      if (idx <? n)%nat then Ok (idx, S g) else Raise IndexError.
End Samplers.

(** ** heapq *)

Section Heapq.
Context {A : Type} (lt : A -> A -> result bool).

Definition heappush (h : list A) (x : A) : list A := h ++ [x].

(** The least entry of [m :: h] and the other entries. *)
Fixpoint select (m : A) (h : list A) : result (A * list A) :=
  match h with
  | [] => Ok (m, [])
  | x :: h' =>
      let* b := lt x m in
      if b : bool
      then let* '(m', r) := select x h' in Ok (m', m :: r)
      else let* '(m', r) := select m h' in Ok (m', x :: r)
  end.

Definition heappop (h : list A) : result (A * list A) :=
  match h with
  | [] => Raise IndexError
  | x :: h' => select x h'
  end.

(** [h[0]] *)
Definition heap_top (h : list A) : result A :=
  let* '(m, _) := heappop h in Ok m.
End Heapq.

(** Python's [<] on the pairs [(time, i)] of [Source.next_arrival]. *)
Definition arrival_lt (a b : Q * nat) : result bool :=
  let '(t1, i1) := a in
  let '(t2, i2) := b in
  if negb (Qeq_bool t1 t2) then Ok (Qlt_bool t1 t2)
  else Ok (i1 <? i2)%nat.

(** ** class Source *)

Module Source.

Record t : Type := mk {
  number_of_sources : nat;
  number_of_nodes : nat;
  source_matrix : list (list Q);
  distribution : family;
  mu : list Q;
  sigma : list Q;
  rho : Q;
  (** heap of the pairs (next absolute arrival time, stream) *)
  next_arrival : list (Q * nat);
  (** the normals behind the last lognormal increments *)
  previous_arrival : list Q;
  time_next : Q;
  next_source : nat;
  next_job : Z;
  next_destination : nat
}.

Section Methods.
Context `{Numpy}.

(** [Source.__init__].  With a distribution name that is neither
    ['Exponential'] nor ['Lognormal'] the attribute [next_arrival] is
    never set and [heapq.heapify(self.next_arrival)] raises.  The arrival
    means and the coefficients of variation are floats of the caller, so
    their squares can overflow; [self.sigma[i]] is a numpy scalar. *)
Definition init (arrival_means : list Q) (source_matrix : list (list Q))
    (distribution : family) (covs : list Q) (rho : Q) : M t :=
  let number_of_sources := length arrival_means in
  let! row0 := lift (index source_matrix 0) in
  let number_of_nodes := length row0 in
  let! '(mu, sigma, next_arrival, previous_arrival) :=
    match distribution with
    | Exponential =>
        let mu := arrival_means in
        let! sigma := lift (for_each float_sq mu) in
        let! next_arrival :=
          for_range (fun i => let! m := lift (index mu i) in
                              let! x := np_random_exponential m in
                              ret (x, i)) 0 number_of_sources in
        ret (mu, sigma, next_arrival, [])
    | Lognormal =>
        let! sigma := lift (for_each
          (fun x => let* x2 := float_sq x in
                    Ok (np_sqrt (np_log (1 + x2)))) covs) in
        let! mu := lift (for_range_pure
          (fun i => let* a := index arrival_means i in
                    let* s := index sigma i in
                    Ok (np_log a - sq s / 2)%Q) 0 number_of_sources) in
        let! next_arrival :=
          for_range (fun i => let! m := lift (index mu i) in
                              let! s := lift (index sigma i) in
                              let! x := np_random_lognormal m s in
                              ret (x, i)) 0 number_of_sources in
        let! previous_arrival := lift (for_range_pure
          (fun i => let* '(x, _) := index next_arrival i in
                    let* m := index mu i in
                    let* s := index sigma i in
                    Ok ((np_log x - m) / s)%Q) 0 number_of_sources) in
        ret (mu, sigma, next_arrival, previous_arrival)
    | Unsupported => raise AttributeError
    end in
  let! '(time_next, next_source) := lift (heap_top arrival_lt next_arrival) in
  let next_job := 0%Z in
  let! row := lift (index source_matrix next_source) in
  let! next_destination := np_random_choice number_of_nodes row in
  ret (mk number_of_sources number_of_nodes source_matrix distribution
          mu sigma rho next_arrival previous_arrival
          time_next next_source next_job next_destination).

(** [Source.action_out], with the class attribute [Source.time] as the
    argument [time]. *)
Definition action_out (time : Q) (self : t) : M t :=
  let! '(new_time, previous_arrival) :=
    match distribution self with
    | Lognormal =>
        let! last_normal_time :=
          lift (index (previous_arrival self) (next_source self)) in
        let! dummy_normal := np_random_normal 0 1 in
        let! s := lift (index (sigma self) (next_source self)) in
        let! m := lift (index (mu self) (next_source self)) in
        let rho_normal :=
          (np_log (rho self * (np_exp (sq s) - 1) + 1) / sq s)%Q in
        let new_normal :=
          (rho_normal * last_normal_time
           + np_sqrt (1 - sq rho_normal) * dummy_normal)%Q in
        let new_lognormal := np_exp (m + new_normal * s)%Q in
        ret (Some (time + new_lognormal)%Q,
             <[next_source self := new_normal]> (previous_arrival self))
    | Exponential =>
        let! m := lift (index (mu self) (next_source self)) in
        let! x := np_random_exponential m in
        ret (Some (time + x)%Q, previous_arrival self)
    | Unsupported => ret (None, previous_arrival self)
    end in
  (* update arrival stream *)
  let! '(_, popped) := lift (heappop arrival_lt (next_arrival self)) in
  let! new_time := lift (bound new_time) in
  let next_arrival := heappush popped (new_time, next_source self) in
  let! '(time_next, next_source) := lift (heap_top arrival_lt next_arrival) in
  let next_job := (next_job self + 1)%Z in
  let! row := lift (index (source_matrix self) next_source) in
  let! next_destination := np_random_choice (number_of_nodes self) row in
  ret (mk (number_of_sources self) (number_of_nodes self)
          (source_matrix self) (distribution self)
          (mu self) (sigma self) (rho self) next_arrival previous_arrival
          time_next next_source next_job next_destination).
End Methods.
End Source.

(** ** class Queue *)

Module Queue.

Record t : Type := mk {
  p_out : Q;
  destination : list Q;
  number_of_nodes : nat;
  distribution : family;
  mu : Q;
  sigma : Q;
  in_system : Z;
  all_jobs : list (option Z);
  (** the deque of the jobs that wait *)
  jobs_in_system : list (option Z);
  next_job : option Z;
  time_next : option Q;
  arrival_times : list Q;
  service_times : list Q;
  departure_times : list Q;
  finish_time : Q;
  next_destination : option nat
}.

Section Methods.
Context `{Numpy}.

(** [Queue.__init__].  No argument is checked: the only statements that
    can raise are the powers [self.mu ** 2] and [cov ** 2] of a float of
    the caller.  With an unsupported distribution name the attributes [mu]
    and [sigma] stay unset, which no later read can observe (every read is
    guarded by the same name), so they are given the value 0 here. *)
Definition init (service_mean : Q) (destination : list Q)
    (distribution : family) (cov : Q) : result t :=
  let p_out := (1 - sum destination)%Q in
  let number_of_nodes := length destination in
  let* '(mu, sigma) :=
    match distribution with
    | Exponential =>
        let mu := service_mean in
        let* sigma := float_sq mu in
        Ok (mu, sigma)
    | Lognormal =>
        let* cov2 := float_sq cov in
        let sigma := np_sqrt (np_log (1 + cov2)) in
        Ok ((np_log service_mean - sq sigma / 2)%Q, sigma)
    | Unsupported => Ok (0, 0)%Q
    end in
  Ok (mk p_out destination number_of_nodes distribution mu sigma
         0 [] [] None (Some 0%Q) [] [] [] 0%Q None).

(** The service-time draw shared by [action_in] and [action_out]; with an
    unsupported name the local [service_new] stays unassigned. *)
Definition draw_service (self : t) : M (option Q) :=
  match distribution self with
  | Lognormal =>
      let! x := np_random_lognormal (mu self) (sigma self) in ret (Some x)
  | Exponential =>
      let! x := np_random_exponential (mu self) in ret (Some x)
  | Unsupported => ret None
  end.

(** [deque.popleft()] *)
Definition popleft {A} (d : list A) : result (A * list A) :=
  match d with
  | [] => Raise IndexError
  | x :: d' => Ok (x, d')
  end.

(** [Queue.action_in], with the class attribute [Queue.time] as the
    argument [time]. *)
Definition action_in (time : Q) (job_id : option Z) (self : t) : M t :=
  let in_system := (in_system self + 1)%Z in
  let all_jobs := all_jobs self ++ [job_id] in
  let jobs_in_system := jobs_in_system self ++ [job_id] in
  let arrival_times := arrival_times self ++ [time] in
  if (1 <? in_system)%Z then
    ret (mk (p_out self) (destination self) (number_of_nodes self)
            (distribution self) (mu self) (sigma self)
            in_system all_jobs jobs_in_system (next_job self) None
            arrival_times (service_times self) (departure_times self)
            (finish_time self) (next_destination self))
  else
    let! service_new := draw_service self in
    let! '(next_job, jobs_in_system) := lift (popleft jobs_in_system) in
    let! service_new := lift (bound service_new) in
    let service_times := service_times self ++ [service_new] in
    let finish_time := (time + service_new)%Q in
    ret (mk (p_out self) (destination self) (number_of_nodes self)
            (distribution self) (mu self) (sigma self)
            in_system all_jobs jobs_in_system next_job (Some finish_time)
            arrival_times service_times (departure_times self)
            finish_time (next_destination self)).

(** [Queue.action_out] *)
Definition action_out (time : Q) (self : t) : M t :=
  let in_system := (in_system self - 1)%Z in
  let! '(next_job, jobs_in_system, finish_time, service_times, time_next) :=
    if negb (in_system =? 0)%Z then
      let! service_new := draw_service self in
      let! '(next_job, jobs_in_system) :=
        lift (popleft (jobs_in_system self)) in
      let! service_new := lift (bound service_new) in
      let finish_time := (time + service_new)%Q in
      ret (next_job, jobs_in_system, finish_time,
           service_times self ++ [service_new], Some finish_time)
    else
      ret (next_job self, jobs_in_system self, finish_time self,
           service_times self, None) in
  let departure_times := departure_times self ++ [time] in
  let! next_destination :=
    np_random_choice (number_of_nodes self + 1)
                     (destination self ++ [p_out self]) in
  ret (mk (p_out self) (destination self) (number_of_nodes self)
          (distribution self) (mu self) (sigma self)
          in_system (all_jobs self) jobs_in_system next_job time_next
          (arrival_times self) service_times departure_times
          finish_time (Some next_destination)).
End Methods.
End Queue.

(** ** The event list of [wrapper] *)

(** A key of the dictionary [system]: the string ['Source'] or a station
    number. *)
Inductive node : Set :=
| NSource
| NStation (k : nat).

(** An entry [(time, job, node)] of the heap [events].  The job component is
    the attribute [next_job] of the node, an [int] or [None]. *)
Definition event : Type := Q * option Z * node.

Definition ev_time (e : event) : Q := e.1.1.
Definition ev_job (e : event) : option Z := e.1.2.
Definition ev_node (e : event) : node := e.2.

Definition job_eqb (a b : option Z) : bool :=
  match a, b with
  | Some x, Some y => (x =? y)%Z
  | None, None => true
  | _, _ => false
  end.

(** [a < b] between two job components: [None] is not ordered. *)
Definition job_lt (a b : option Z) : result bool :=
  match a, b with
  | Some x, Some y => Ok (x <? y)%Z
  | _, _ => Raise TypeError
  end.

Definition node_eqb (a b : node) : bool :=
  match a, b with
  | NSource, NSource => true
  | NStation x, NStation y => (x =? y)%nat
  | _, _ => false
  end.

(** [a < b] between two keys that differ: a string and an [int] are not
    ordered. *)
Definition node_lt (a b : node) : result bool :=
  match a, b with
  | NStation x, NStation y => Ok (x <? y)%nat
  | _, _ => Raise TypeError
  end.

(** Python's [<] on two event tuples: the first components that differ
    decide. *)
Definition event_lt (a b : event) : result bool :=
  let '(t1, j1, n1) := a in
  let '(t2, j2, n2) := b in
  if negb (Qeq_bool t1 t2) then Ok (Qlt_bool t1 t2)
  else if negb (job_eqb j1 j2) then job_lt j1 j2
  else if negb (node_eqb n1 n2) then node_lt n1 n2
  else Ok false.

(** ** Simulator.py: wrapper *)

(** The dictionary [system], the heap [events], the class attributes
    [Source.time] and [Queue.time], the locals [curr] and [jobs] of the loop,
    and the state of the generator. *)
Record state : Type := mkState {
  source : Source.t;
  stations : list Queue.t;
  events : list event;
  Source_time : Q;
  Queue_time : Q;
  curr : Q;
  jobs : Z;
  rng : nat
}.

(** The arguments of [wrapper]. *)
Record params : Type := mkParams {
  arrival_means : list Q;
  source_matrix : list (list Q);
  transition_matrix : list (list Q);
  service_means : list Q;
  final_jobs : Z;
  distribution : family;
  arrival_covs : list Q;
  service_covs : list Q;
  arrival_rho : Q
}.

(** [min(l)] *)
Definition py_min (l : list Z) : result Z :=
  match l with
  | [] => Raise ValueError
  | x :: l' => Ok (fold_left Z.min l' x)
  end.

(** [system[k]] for a value [k] that is not ['Source']. *)
Definition get_station (sts : list Queue.t) (k : nat) : result Queue.t :=
  match sts !! k with
  | Some q => Ok q
  | None => Raise KeyError
  end.

(** [if x.time_next: heapq.heappush(events, (x.time_next, x.next_job, node))] *)
Definition schedule (evs : list event) (time_next : option Q)
    (next_job : option Z) (nd : node) : list event :=
  match time_next with
  | Some t => if truthy (Some t) then heappush evs (t, next_job, nd) else evs
  | None => evs
  end.

Section Wrapper.
Context `{Numpy}.

(** The statements of [wrapper] before the loop. *)
Definition wrapper_init (p : params) : result state :=
  let* row0 := index (transition_matrix p) 0 in
  let n := length row0 in
  let* '(src, g) :=
    Source.init (arrival_means p) (source_matrix p) (distribution p)
                (arrival_covs p) (arrival_rho p) 0%nat in
  let* sts := for_range_pure
    (fun i => let* m := index (service_means p) i in
              let* d := index (transition_matrix p) i in
              let* c := index (service_covs p) i in
              Queue.init m d (distribution p) c) 0 n in
  let evs := [(Source.time_next src, Some (Source.next_job src), NSource)] in
  Ok (mkState src sts evs 0 0 0 0 g).

(** [system[node].action_out()], the push that follows it, and the read of
    [system[node].next_destination]. *)
Definition dispatch (s : state) (curr : Q) (nd : node) (evs : list event)
  : result (Source.t * list Queue.t * list event * option nat * nat) :=
  match nd with
  | NSource =>
      let* '(src, g) := Source.action_out curr (source s) (rng s) in
      let evs := schedule evs (Some (Source.time_next src))
                          (Some (Source.next_job src)) NSource in
      Ok (src, stations s, evs, Some (Source.next_destination src), g)
  | NStation k =>
      let* q := get_station (stations s) k in
      let* '(q, g) := Queue.action_out curr q (rng s) in
      let evs := schedule evs (Queue.time_next q) (Queue.next_job q)
                          (NStation k) in
      Ok (source s, <[k := q]> (stations s), evs, Queue.next_destination q, g)
  end.

(** [if dest != n: system[dest].action_in(job_id)] and the push that follows
    it.  A [dest] that is no key of [system] raises. *)
Definition deliver (n : nat) (curr : Q) (job_id : option Z)
    (sts : list Queue.t) (evs : list event) (dest : option nat) (g : nat)
  : result (list Queue.t * list event * nat) :=
  match dest with
  | None => Raise KeyError
  | Some d =>
      if (d =? n)%nat then Ok (sts, evs, g)
      else
        let* q := get_station sts d in
        let* '(q, g) := Queue.action_in curr job_id q g in
        let evs := schedule evs (Queue.time_next q) (Queue.next_job q)
                            (NStation d) in
        Ok (<[d := q]> sts, evs, g)
  end.

(** [len(system[i].departure_times)] *)
Definition departures (q : Queue.t) : Z :=
  Z.of_nat (length (Queue.departure_times q)).

(** One pass through the body of the [while] loop. *)
Definition iteration (s : state) : result state :=
  let n := length (stations s) in
  let* '((curr, job_id, nd), evs) := heappop event_lt (events s) in
  (* Source.time = curr; Queue.time = curr *)
  let* '(src, sts, evs, dest, g) := dispatch s curr nd evs in
  let* '(sts, evs, g) := deliver n curr job_id sts evs dest g in
  let* jobs := py_min (map departures sts) in
  Ok (mkState src sts evs curr curr curr jobs g).

(** [k] passes through the body, whatever the loop condition. *)
Fixpoint iterations (k : nat) (s : state) : result state :=
  match k with
  | O => Ok s
  | S k' => let* s' := iterations k' s in iteration s'
  end.

(** The [while jobs < final_jobs] loop; [None] when [fuel] passes do not
    reach its end. *)
Fixpoint loop (fuel : nat) (final : Z) (s : state) : option (result state) :=
  if (jobs s <? final)%Z then
    match fuel with
    | O => None
    | S fuel' =>
        match iteration s with
        | Ok s' => loop fuel' final s'
        | Raise e => Some (Raise e)
        end
    end
  else Some (Ok s).

Definition wrapper (fuel : nat) (p : params) : option (result state) :=
  match wrapper_init p with
  | Ok s => loop fuel (final_jobs p) s
  | Raise e => Some (Raise e)
  end.
End Wrapper.

(** ** Simulator.py: extractor and the truncation of export *)

Record extracted : Type := mkExtracted {
  interarrival_times : list Q;
  ex_service_times : list Q;
  waiting_times : list Q;
  job_ids : list (option Z)
}.

(** [[j - i for i, j in zip(l[:-1], l[1:])]] *)
Fixpoint differences (l : list Q) : list Q :=
  match l with
  | i :: ((j :: _) as l') => (j - i)%Q :: differences l'
  | _ => []
  end.

(** [l[-1]] *)
Definition py_last (l : list Q) : result Q :=
  match last l with
  | Some x => Ok x
  | None => Raise IndexError
  end.

(** The loop [for i in range(1, len(service_times))], entered at [i] with
    [count] passes left and the waiting times [w] found so far. *)
Fixpoint waiting_loop (service interarrival : list Q) (i count : nat)
    (w : list Q) : result (list Q) :=
  match count with
  | O => Ok w
  | S count' =>
      let* prev := py_last w in
      let* s := index service (i - 1) in
      let* a := index interarrival i in
      waiting_loop service interarrival (S i) count'
                   (w ++ [max0 (prev + s - a)])
  end.

(** [extractor(system, k)] for a station number [k]. *)
Definition extractor (system : state) (k : nat) : result extracted :=
  let* q := get_station (stations system) k in
  let interarrival :=
    match Queue.arrival_times q with
    | [] => []
    | a0 :: _ => a0 :: differences (Queue.arrival_times q)
    end in
  let* '(service, waiting) :=
    match Queue.service_times q with
    | [] => Ok ([], [])
    | _ :: _ =>
        let service := Queue.service_times q in
        let* w := waiting_loop service interarrival 1 (length service - 1)
                               [0%Q] in
        Ok (service, w)
    end in
  Ok (mkExtracted interarrival service waiting (Queue.all_jobs q)).

(** [l[:n]] *)
Definition slice_to {A} (n : Z) (l : list A) : list A :=
  if (0 <=? n)%Z then take (Z.to_nat n) l
  else take (length l - Z.to_nat (- n)) l.

(** * Vocabulary of the properties *)

(** ** Runs *)

Section Vocabulary.
Context `{Numpy}.

(** The state of [wrapper p] after [k] passes through the loop body. *)
Definition run (p : params) (k : nat) : result state :=
  let* s0 := wrapper_init p in iterations k s0.

(** The increment that [Source.action_out] adds to the clock: the variate
    of the due stream. *)
Definition increment_of (self : Source.t) (g : nat) (inc : Q) : Prop :=
  (Source.distribution self = Exponential /\
   exists m : Q,
     Source.mu self !! Source.next_source self = Some m /\
     (0 <= m)%Q /\ inc = (m * standard_exponential g)%Q)
  \/
  (Source.distribution self = Lognormal /\ exists x : Q, inc = np_exp x).

End Vocabulary.

(** ** Predicates *)

(** [w] obeys the recursion from its second entry on. *)
Definition lindley (s a w : list Q) : Prop :=
  forall (i : nat) (wi : Q), w !! S i = Some wi ->
    exists wp sp ai,
      w !! i = Some wp /\ s !! i = Some sp /\ a !! S i = Some ai /\
      wi = max0 (wp + sp - ai).

(** The interarrival times [extractor] derives from the recorded arrival
    times of a station. *)
Definition recorded_interarrivals (q : Queue.t) : list Q :=
  match Queue.arrival_times q with
  | [] => []
  | a0 :: _ => a0 :: differences (Queue.arrival_times q)
  end.

(** Fields that no operation changes. *)
Definition same_config (q q' : Queue.t) : Prop :=
  Queue.p_out q' = Queue.p_out q /\
  Queue.destination q' = Queue.destination q /\
  Queue.number_of_nodes q' = Queue.number_of_nodes q /\
  Queue.distribution q' = Queue.distribution q /\
  Queue.mu q' = Queue.mu q /\
  Queue.sigma q' = Queue.sigma q.

(** The number of entries of the heap that belong to a node. *)
Fixpoint pending (nd : node) (evs : list event) : nat :=
  match evs with
  | [] => 0
  | e :: evs' =>
      ((if node_eqb (ev_node e) nd then 1 else 0) + pending nd evs')%nat
  end.

(** [in_system] is the number of recorded arrivals minus the number of
    recorded departures, and is not negative. *)
Definition balanced (q : Queue.t) : Prop :=
  Queue.in_system q
  = (Z.of_nat (length (Queue.arrival_times q))
     - Z.of_nat (length (Queue.departure_times q)))%Z /\
  (0 <= Queue.in_system q)%Z.

(** What holds of a station [q] that has [c] entries in the heap. *)
Record station_ok (q : Queue.t) (c : nat) : Prop := {
  ok_balance :
    Queue.in_system q
    = (Z.of_nat (length (Queue.arrival_times q))
       - Z.of_nat (length (Queue.departure_times q)))%Z;
  ok_nonneg : (0 <= Queue.in_system q)%Z;
  ok_one_event : (c <= 1)%nat;
  ok_event_busy : c = 1%nat -> (1 <= Queue.in_system q)%Z;
  ok_services_busy :
    (1 <= Queue.in_system q)%Z ->
    length (Queue.service_times q) = S (length (Queue.departure_times q));
  ok_services_idle :
    Queue.in_system q = 0%Z ->
    length (Queue.service_times q) = length (Queue.departure_times q);
  ok_waiting :
    Z.of_nat (length (Queue.jobs_in_system q))
    = Z.max 0 (Queue.in_system q - 1);
  ok_all_jobs :
    length (Queue.all_jobs q) = length (Queue.arrival_times q);
  ok_zero_finish :
    (1 <= Queue.in_system q)%Z ->
    forall t : Q, Queue.time_next q = Some t -> (t == 0)%Q -> c = 0%nat
}.

Definition accounting (sts : list Queue.t) (evs : list event) : Prop :=
  forall (k : nat) (q : Queue.t),
    sts !! k = Some q -> station_ok q (pending (NStation k) evs).

(** Every station that holds a job has its entry in the heap. *)
Definition busy_has_entry (sts : list Queue.t) (evs : list event) : Prop :=
  forall (i : nat) (q : Queue.t),
    sts !! i = Some q -> (1 <= Queue.in_system q)%Z ->
    pending (NStation i) evs = 1%nat.

(** A station as [Queue.__init__] leaves it. *)
Definition fresh (q : Queue.t) : Prop :=
  Queue.in_system q = 0%Z /\
  Queue.all_jobs q = [] /\ Queue.jobs_in_system q = [] /\
  Queue.arrival_times q = [] /\ Queue.service_times q = [] /\
  Queue.departure_times q = [] /\
  Queue.next_job q = None /\ Queue.time_next q = Some 0%Q.

(** [x] is the id of a job that has already arrived from outside. *)
Definition job_below (N : Z) (x : option Z) : Prop :=
  exists z : Z, x = Some z /\ (z < N)%Z.

(** The one entry of the source carries the id of the next outside job; the
    entries of the stations and the waiting jobs carry smaller ids. *)
Record jobs_ok (N : Z) (sts : list Queue.t) (evs : list event) : Prop := {
  jobs_one_source : (pending NSource evs <= 1)%nat;
  jobs_source :
    forall e, e ∈ evs -> ev_node e = NSource -> ev_job e = Some N;
  jobs_station :
    forall e k, e ∈ evs -> ev_node e = NStation k -> job_below N (ev_job e);
  jobs_waiting :
    forall k q x, sts !! k = Some q -> x ∈ Queue.jobs_in_system q ->
                  job_below N x
}.




(** Every variate that serves as an interarrival or service increment is
    non-negative: the standard exponential variates, which are scaled by a
    mean that the sampler has checked, and the values of [np.exp], which
    every lognormal increment is. *)
Definition nonneg_increments `{Numpy} : Prop :=
  (forall g : nat, (0 <= standard_exponential g)%Q) /\
  (forall x : Q, (0 <= np_exp x)%Q).

(** No pending entry lies before the clock, the entry of the source is at
    the earliest next arrival, and the source has at most one entry. *)
Record clock_ok (clock : Q) (src : Source.t) (evs : list event) : Prop := {
  clock_events : forall e, e ∈ evs -> (clock <= ev_time e)%Q;
  clock_source :
    forall e a, e ∈ evs -> ev_node e = NSource ->
                a ∈ Source.next_arrival src -> (ev_time e <= a.1)%Q;
  clock_one_source : (pending NSource evs <= 1)%nat
}.

Definition arrival_le (a b : Q * nat) : Prop := (a.1 <= b.1)%Q.
Definition event_le (a b : event) : Prop := (ev_time a <= ev_time b)%Q.

(** [system[node].time_next] and [system[node].next_job]. *)
Definition node_time_next (src : Source.t) (sts : list Queue.t) (nd : node)
  : option Q :=
  match nd with
  | NSource => Some (Source.time_next src)
  | NStation k => sts !! k ≫= Queue.time_next
  end.

Definition node_next_job (src : Source.t) (sts : list Queue.t) (nd : node)
  : option Z :=
  match nd with
  | NSource => Some (Source.next_job src)
  | NStation k => sts !! k ≫= Queue.next_job
  end.

(** Whether the entry [(time_next, next_job, nd)] was pushed onto [evs]. *)
Definition follow_up (evs evs' : list event) (tn : option Q) (nj : option Z)
    (nd : node) : Prop :=
  (evs' = evs /\ (tn = None \/ exists x, tn = Some x /\ (x == 0)%Q))
  \/
  (exists x, tn = Some x /\ ~ (x == 0)%Q /\ evs' = heappush evs (x, nj, nd)).

(** The source has had its first firing and has no entry in the heap
    whenever its next arrival time is zero. *)
Record source_entry_ok (src : Source.t) (evs : list event) : Prop := {
  entry_one : (pending NSource evs <= 1)%nat;
  entry_count : (0 <= Source.next_job src)%Z;
  entry_zero :
    (0 < Source.next_job src)%Z -> (Source.time_next src == 0)%Q ->
    pending NSource evs = 0%nat
}.

(** The argument of the logarithm in the lognormal branch of
    [Source.action_out], for the stream that is due. *)
Definition log_argument `{Numpy} (self : Source.t) : option Q :=
  s ← Source.sigma self !! Source.next_source self;
  Some (Source.rho self * (np_exp (sq s) - 1) + 1)%Q.

(** A row from which [np.random.choice] accepts to draw one of [n]
    outcomes. *)
Definition valid_row (n : nat) (row : list Q) : Prop :=
  n <> 0%nat /\ length row = n /\
  Forall (fun x => (0 <= x)%Q) row /\
  (Qabs (sum row - 1) <= atol)%Q.

(** * Example inputs *)

(** The variates of a generator given as a list, with [d] past its end. *)
Definition variates (l : list Q) (d : Q) : nat -> Q := fun g => nth g l d.

(** Rational stand-ins for the elementary functions, good enough to run
    the model on examples: the Taylor polynomials of [exp] at 0 (degree 2,
    positive everywhere) and of [log] and [sqrt] at 1 (degree 1). *)
Definition example_numpy (u e z : nat -> Q) : Numpy := {|
  np_exp := fun x => (1 + x + x * x / 2)%Q;
  np_log := fun x => (x - 1)%Q;
  np_sqrt := fun x => ((1 + x) / 2)%Q;
  random_sample := u;
  standard_exponential := e;
  standard_normal := z
|}.

(** The network of [main]: one stream into station 0, which feeds stations
    1 and 2 with probability 1/2 each; both feed station 3, which exits. *)
Definition tandem : params := {|
  arrival_means := [1%Q];
  source_matrix := [[1; 0; 0; 0]%Q];
  transition_matrix :=
    [[0; 1 # 2; 1 # 2; 0]; [0; 0; 0; 1]; [0; 0; 0; 1]; [0; 0; 0; 0]]%Q;
  service_means := [1 # 2; 1; 1; 1 # 2]%Q;
  final_jobs := 2;
  distribution := Exponential;
  arrival_covs := [1%Q];
  service_covs := [1; 1; 1; 1]%Q;
  arrival_rho := 0
|}.

Definition tandem_numpy : Numpy :=
  example_numpy (fun g => if Nat.even g then (1 # 4)%Q else (3 # 4)%Q)
                (fun g => (1 + inject_Z (Z.of_nat (g mod 3)) / 2)%Q)
                (fun _ => 0%Q).

Definition tandem_initial : state :=
  ltac:(let r := eval vm_compute in (@wrapper_init tandem_numpy tandem) in
        lazymatch r with Ok ?s => exact s end).

Definition tandem_early : state :=
  ltac:(let r := eval vm_compute in (@run tandem_numpy tandem 3) in
        lazymatch r with Ok ?s => exact s end).

Definition tandem_state : state :=
  ltac:(let r := eval vm_compute in (@run tandem_numpy tandem 12) in
        lazymatch r with Ok ?s => exact s end).

Definition tandem_station : Queue.t :=
  ltac:(let r := eval vm_compute in (stations tandem_state !! 0%nat) in
        lazymatch r with Some ?q => exact q end).

Definition tandem_final : state :=
  ltac:(let r := eval vm_compute in (@wrapper tandem_numpy 20 tandem) in
        lazymatch r with Some (Ok ?s) => exact s end).

(** One stream and one station whose jobs leave the network. *)
Definition single_station : params := {|
  arrival_means := [1%Q];
  source_matrix := [[1%Q]];
  transition_matrix := [[0%Q]];
  service_means := [1%Q];
  final_jobs := 1;
  distribution := Exponential;
  arrival_covs := [1%Q];
  service_covs := [1%Q];
  arrival_rho := 0
|}.

(** A generator whose first interarrival variate and first service variate
    are 0: the first job arrives at time 0 and its service takes no time. *)
Definition zero_draws : Numpy :=
  example_numpy (fun _ => (1 # 2)%Q) (variates [0; 1; 1; 1; 0]%Q 1%Q)
                (fun _ => 0%Q).

Definition zero_draws_state (k : nat) : state :=
  match @run zero_draws single_station k with
  | Ok s => s
  | Raise _ => mkState (Source.mk 0 0 [] Unsupported [] [] 0 [] [] 0 0 0 0)
                       [] [] 0 0 0 0 0
  end.

(** Two streams, each with its own entry station. *)
Definition two_streams : params := {|
  arrival_means := [1; 1]%Q;
  source_matrix := [[1; 0]; [0; 1]]%Q;
  transition_matrix := [[0; 0]; [0; 0]]%Q;
  service_means := [1; 1]%Q;
  final_jobs := 1;
  distribution := Exponential;
  arrival_covs := [1; 1]%Q;
  service_covs := [1; 1]%Q;
  arrival_rho := 0
|}.

(** Stream 0 fires first, at time 1; stream 1 is due at time 2. *)
Definition two_streams_draws : Numpy :=
  example_numpy (fun _ => (1 # 2)%Q) (variates [1; 2; 1; 5]%Q 1%Q)
                (fun _ => 0%Q).

(** A lognormal stream with coefficient of variation 2 and correlation
    -1/2.  With the real [exp] and [log] the argument of the logarithm is
    [1 + rho * cov^2 = -1]; it is negative with the stand-ins as well. *)
Definition lognormal_draws : Numpy :=
  example_numpy (fun _ => (1 # 2)%Q) (fun _ => 1%Q) (fun _ => 0%Q).

Definition lognormal_source : Source.t :=
  ltac:(let r := eval vm_compute in
          (@Source.init lognormal_draws [1%Q] [[1%Q]] Lognormal [2%Q]
                        (-1 # 2) 0%nat) in
        lazymatch r with Ok (?s, _) => exact s end).

(** * Vocabulary of the order of service and of the recorded times *)

(** The jobs present at a station: the one in service, then those that
    wait, in the order of the deque. *)
Definition present (q : Queue.t) : list (option Z) :=
  if (Queue.in_system q =? 0)%Z then []
  else Queue.next_job q :: Queue.jobs_in_system q.

(** First come, first served: past the jobs that have left, [all_jobs]
    lists the jobs that are present. *)
Definition fcfs (q : Queue.t) : Prop :=
  drop (length (Queue.departure_times q)) (Queue.all_jobs q) = present q.

Definition all_fcfs (sts : list Queue.t) : Prop :=
  forall (i : nat) (q : Queue.t), sts !! i = Some q -> fcfs q.

(** Every entry of the heap is the current triple of its node: for the
    source [(time_next, next_job, 'Source')], for station [i]
    [(finish_time, next_job, i)]. *)
Definition mirrors (src : Source.t) (sts : list Queue.t) (evs : list event)
  : Prop :=
  forall e : event, e ∈ evs ->
    match ev_node e with
    | NSource =>
        e = (Source.time_next src, Some (Source.next_job src), NSource)
    | NStation i =>
        exists q : Queue.t,
          sts !! i = Some q /\
          e = (Queue.finish_time q, Queue.next_job q, NStation i)
    end.

(** [max(a, d)] *)
Definition later (a d : Q) : Q := if Qlt_bool a d then d else a.

(** The time at which the service of the [k]-th job to arrive at a station
    starts: its arrival time, or the departure time of the job before it
    when that is later. *)
Definition service_start (q : Queue.t) (k : nat) : option Q :=
  a ← Queue.arrival_times q !! k;
  match k with
  | O => Some a
  | S k' => d ← Queue.departure_times q !! k'; Some (later a d)
  end.

Definition nondecreasing (l : list Q) : Prop :=
  forall (i j : nat) (x y : Q),
    (i <= j)%nat -> l !! i = Some x -> l !! j = Some y -> (x <= y)%Q.

(** The times of [l] lie between 0 and the clock. *)
Definition before (clock : Q) (l : list Q) : Prop :=
  Forall (fun x => (0 <= x)%Q /\ (x <= clock)%Q) l.

(** What the recorded times of a station obey when the clock is at
    [clock]. *)
Record timing (clock : Q) (q : Queue.t) : Prop := {
  timing_arrivals : nondecreasing (Queue.arrival_times q);
  timing_departures : nondecreasing (Queue.departure_times q);
  timing_arrived : before clock (Queue.arrival_times q);
  timing_left : before clock (Queue.departure_times q);
  timing_departed :
    forall (k : nat) (dk : Q),
      Queue.departure_times q !! k = Some dk ->
      exists st sk : Q,
        service_start q k = Some st /\
        Queue.service_times q !! k = Some sk /\ (dk == st + sk)%Q;
  timing_serving :
    (1 <= Queue.in_system q)%Z ->
    exists st sk : Q,
      service_start q (length (Queue.departure_times q)) = Some st /\
      Queue.service_times q !! length (Queue.departure_times q) = Some sk /\
      (Queue.finish_time q == st + sk)%Q
}.

Definition all_timing (clock : Q) (sts : list Queue.t) : Prop :=
  forall (i : nat) (q : Queue.t), sts !! i = Some q -> timing clock q.

(** One entry per stream in the heap of the source, the least of them
    being the due one. *)
Definition streams_ok (src : Source.t) : Prop :=
  map snd (Source.next_arrival src) ≡ₚ seq 0 (Source.number_of_sources src) /\
  heap_top arrival_lt (Source.next_arrival src)
  = Ok (Source.time_next src, Source.next_source src).

(** ** Further example values *)

(** Station 3 of the tandem network after 12 passes: one job has left, one
    is in service and one waits. *)
Definition tandem_last_station : Queue.t :=
  ltac:(let r := eval vm_compute in (stations tandem_state !! 3%nat) in
        lazymatch r with Some ?q => exact q end).

Definition tandem_extracted : extracted :=
  ltac:(let r := eval vm_compute in (extractor tandem_state 3) in
        lazymatch r with Ok ?ex => exact ex end).

(** The two streams after the first firing. *)
Definition two_streams_state : state :=
  ltac:(let r := eval vm_compute in (@run two_streams_draws two_streams 1) in
        lazymatch r with Ok ?s => exact s end).

(** ** Networks on which the exponential simulation cannot raise *)





(** ** A simulation that runs out of events *)

(** One stream with arrival mean 0 into one station: every arrival is at
    time 0, so the source is not scheduled again after its first firing. *)
Definition absorbed : params := {|
  arrival_means := [0%Q];
  source_matrix := [[1%Q]];
  transition_matrix := [[0%Q]];
  service_means := [1%Q];
  final_jobs := 2;
  distribution := Exponential;
  arrival_covs := [1%Q];
  service_covs := [1%Q];
  arrival_rho := 0
|}.

Definition absorbed_state : state :=
  ltac:(let r := eval vm_compute in (@run tandem_numpy absorbed 2) in
        lazymatch r with Ok ?s => exact s end).

(** [system[node].next_destination] *)
Definition node_next_destination (src : Source.t) (sts : list Queue.t)
    (nd : node) : option nat :=
  match nd with
  | NSource => Some (Source.next_destination src)
  | NStation k => sts !! k ≫= Queue.next_destination
  end.

(** [x] is the id of an outside job that has arrived: an integer from 0 up
    to, but not including, the counter [N] of the source. *)
Definition job_issued (N : Z) (x : option Z) : Prop :=
  exists z : Z, x = Some z /\ (0 <= z < N)%Z.

Definition all_issued (N : Z) (sts : list Queue.t) : Prop :=
  forall (i : nat) (q : Queue.t) (x : option Z),
    sts !! i = Some q -> x ∈ Queue.all_jobs q -> job_issued N x.

(** The tandem network after its first pass. *)
Definition tandem_first : state :=
  ltac:(let r := eval vm_compute in (@run tandem_numpy tandem 1) in
        lazymatch r with Ok ?s => exact s end).

(** * Simulator.py: the service means of [main]

    Before it simulates, [main] derives the service means from the network:
    it accumulates in the list [service_means] the arrival rate of every
    station, pushing each flow through the transition matrix with the work
    list [starts], and then replaces each rate [x] by [(1./x) * base_mean].
    The matrices and the arrival means are literals of [main]; they are
    arguments here. *)

(** The body of both inner loops: for every [j] with a non-zero [row[j]],
    [service_means[j] += w * row[j]] and [starts.append((j, w * row[j]))].
    The weight [w] is read only when an entry is not zero. *)
Fixpoint spread (w : result Q) (row : list Q) (j : nat) (flows : list Q)
    (starts : list (nat * Q)) : result (list Q * list (nat * Q)) :=
  match row with
  | [] => Ok (flows, starts)
  | x :: row' =>
      if Qeq_bool x 0 then spread w row' (S j) flows starts
      else
        let* y := index flows j in
        let* wv := w in
        spread w row' (S j) (<[j := (y + wv * x)%Q]> flows)
               (starts ++ [(j, (wv * x)%Q)])
  end.

(** The loop over the rows of the source matrix, entered at row [i]. *)
Fixpoint seed (arrival_means : list Q) (source_matrix : list (list Q))
    (i : nat) (flows : list Q) (starts : list (nat * Q))
  : result (list Q * list (nat * Q)) :=
  match source_matrix with
  | [] => Ok (flows, starts)
  | row :: rows =>
      let* '(flows, starts) :=
        spread (index arrival_means i) row 0 flows starts in
      seed arrival_means rows (S i) flows starts
  end.

(** The loop [while starts]; [None] when [fuel] passes do not empty the
    work list. *)
Fixpoint propagate (fuel : nat) (transition_matrix : list (list Q))
    (flows : list Q) (starts : list (nat * Q)) : option (result (list Q)) :=
  match starts with
  | [] => Some (Ok flows)
  | (loc, power) :: starts' =>
      match fuel with
      | O => None
      | S fuel' =>
          match (let* row := index transition_matrix loc in
                 spread (Ok power) row 0 flows starts') with
          | Ok (flows', starts'') =>
              propagate fuel' transition_matrix flows' starts''
          | Raise e => Some (Raise e)
          end
      end
  end.

(** The list [service_means] before the final comprehension. *)
Definition arrival_rates (fuel : nat) (source_matrix : list (list Q))
    (transition_matrix : list (list Q)) (arrival_means : list Q)
  : option (result (list Q)) :=
  match seed arrival_means source_matrix 0
             (repeat 0%Q (length transition_matrix)) [] with
  | Ok (flows, starts) => propagate fuel transition_matrix flows starts
  | Raise e => Some (Raise e)
  end.

(** [[(1./x) * base_mean for x in service_means]]; [None] stands for the
    [ZeroDivisionError] of [1./x] at a rate that is zero. *)
Fixpoint scale (base_mean : Q) (rates : list Q) : option (list Q) :=
  match rates with
  | [] => Some []
  | x :: rates' =>
      if Qeq_bool x 0 then None
      else l ← scale base_mean rates'; Some ((1 / x * base_mean)%Q :: l)
  end.

(** ** Vocabulary of the traffic equations *)

(** [l[j]], and 0 past the end of the list. *)
Definition coefficient (l : list Q) (j : nat) : Q := default 0%Q (l !! j).

(** The sum of [v (i + r) * m[r][j]] over the rows [r] of [m]. *)
Fixpoint weighted (v : nat -> Q) (m : list (list Q)) (i j : nat) : Q :=
  match m with
  | [] => 0
  | row :: m' => v i * coefficient row j + weighted v m' (S i) j
  end.

(** The flow into station [j] from the nodes with rates [v] and routing
    matrix [m]: the sum of [v[i] * m[i][j]] over the rows of [m]. *)
Definition inflow (v : list Q) (m : list (list Q)) (j : nat) : Q :=
  weighted (coefficient v) m 0 j.

(** [row[j - j0]] for [j] from [j0] on, and 0 before. *)
Definition shifted (row : list Q) (j0 j : nat) : Q :=
  if (j0 <=? j)%nat then coefficient row (j - j0) else 0.

(** The flow that waits in the work list for station [j]. *)
Fixpoint waiting_flow (starts : list (nat * Q)) (j : nat) : Q :=
  match starts with
  | [] => 0
  | (l, w) :: starts' =>
      (if (l =? j)%nat then w else 0) + waiting_flow starts' j
  end.

(** The literals of [main]. *)
Definition main_source_matrix : list (list Q) := [[1; 0; 0; 0]%Q].
Definition main_transition_matrix : list (list Q) :=
  [[0; 1 # 2; 1 # 2; 0]; [0; 0; 0; 1]; [0; 0; 0; 1]; [0; 0; 0; 0]]%Q.
Definition main_arrival_means : list Q := [1%Q].

(** A station that sends half of its jobs back to itself. *)
Definition feedback_matrix : list (list Q) := [[1 # 2]%Q].

(** [m[r][j]], and 0 outside the matrix. *)
Definition entry (m : list (list Q)) (r j : nat) : Q :=
  coefficient (default [] (m !! r)) j.

(** The rates that [main] derives for its network. *)
Definition main_rates : list Q :=
  ltac:(let r := eval vm_compute in
          (arrival_rates 10 main_source_matrix main_transition_matrix
                         main_arrival_means) in
        lazymatch r with Some (Ok ?l) => exact l end).

(** Station 0 of the tandem network after the first pass, and the same
    station after its [action_out] at its finish time. *)
Definition tandem_first_station : Queue.t :=
  ltac:(let r := eval vm_compute in (stations tandem_first !! 0%nat) in
        lazymatch r with Some ?q => exact q end).

Definition tandem_first_departure : Queue.t * nat :=
  ltac:(let r := eval vm_compute in
          (@Queue.action_out tandem_numpy
             (Queue.finish_time tandem_first_station) tandem_first_station
             (rng tandem_first)) in
        lazymatch r with Ok ?x => exact x end).

(** * Properties *)

(** ** Numbers and results *)

Lemma Qlt_bool_iff (x y : Q) : Qlt_bool x y = true <-> (x < y)%Q.
Proof.
  unfold Qlt_bool. rewrite negb_true_iff.
  destruct (Qle_bool y x) eqn:E.
  - apply Qle_bool_iff in E. split; [discriminate | intros; lra].
  - split; [intros _ | reflexivity].
    destruct (Qlt_le_dec x y) as [L | L]; [exact L |].
    apply Qle_bool_iff in L. congruence.
Qed.

Lemma Qlt_bool_false (x y : Q) : Qlt_bool x y = false <-> (y <= x)%Q.
Proof.
  unfold Qlt_bool. rewrite negb_false_iff. apply Qle_bool_iff.
Qed.

Lemma max0_nonneg (x : Q) : (0 <= max0 x)%Q.
Proof.
  unfold max0. destruct (Qlt_bool 0 x) eqn:E; [| lra].
  apply Qlt_bool_iff in E. lra.
Qed.

Lemma truthy_Some (t : Q) : truthy (Some t) = true <-> ~ (t == 0)%Q.
Proof.
  simpl. rewrite negb_true_iff. split.
  - intros E Ht. apply Qeq_bool_iff in Ht. congruence.
  - intros Ht. destruct (Qeq_bool t 0) eqn:E; [| reflexivity].
    apply Qeq_bool_iff in E. contradiction.
Qed.

Lemma index_Ok {A} (l : list A) (i : nat) (a : A) :
  index l i = Ok a <-> l !! i = Some a.
Proof. unfold index. destruct (l !! i); split; congruence. Qed.

Lemma get_station_Ok (sts : list Queue.t) (k : nat) (q : Queue.t) :
  get_station sts k = Ok q <-> sts !! k = Some q.
Proof. unfold get_station. destruct (sts !! k); split; congruence. Qed.

(** ** The Lindley recursion of [extractor] *)

Lemma py_last_Ok (w : list Q) (x : Q) :
  py_last w = Ok x -> exists w0, w = w0 ++ [x].
Proof.
  unfold py_last. destruct (last w) eqn:E; [| discriminate].
  intros [= ->]. apply last_Some in E. exact E.
Qed.

Lemma waiting_loop_spec (s a : list Q) (count : nat) :
  forall (i : nat) (w w' : list Q),
    waiting_loop s a (S i) count w = Ok w' ->
    length w = S i -> lindley s a w ->
    w !! 0%nat = Some 0%Q ->
    Forall (fun x => (0 <= x)%Q) w ->
    length w' = (S i + count)%nat /\ lindley s a w' /\
    w' !! 0%nat = Some 0%Q /\ Forall (fun x => (0 <= x)%Q) w'.
Proof.
  induction count as [| c IH]; intros i w w' Hrun Hlen Hlin H0 Hpos.
  - simpl in Hrun. injection Hrun as <-. rewrite Nat.add_0_r. auto.
  - simpl in Hrun.
    destruct (py_last w) as [prev |] eqn:Elast; [| discriminate].
    destruct (index s (i - 0)) as [sp |] eqn:Es; [| discriminate].
    destruct (index a (S i)) as [ai |] eqn:Ea; [| discriminate].
    simpl in Hrun. rewrite Nat.sub_0_r in Es.
    apply index_Ok in Es. apply index_Ok in Ea.
    apply py_last_Ok in Elast as [w0 ->].
    rewrite length_app in Hlen. simpl in Hlen.
    assert (Hw0 : length w0 = i) by lia.
    apply IH in Hrun.
    + destruct Hrun as (Hl & Hrest). split; [lia | exact Hrest].
    + rewrite !length_app. simpl. lia.
    + intros j wj Hj.
      destruct (decide (S j < S (length w0))%nat) as [Hlt | Hge].
      * rewrite lookup_app_l in Hj by (rewrite length_app; simpl; lia).
        destruct (Hlin j wj Hj) as (wp & sp' & ai' & Hp & Hs & Ha & Hv).
        exists wp, sp', ai'. repeat split; auto.
        rewrite lookup_app_l; [exact Hp |].
        apply lookup_lt_Some in Hp. exact Hp.
      * assert (j = i) as ->.
        { apply lookup_lt_Some in Hj. rewrite !length_app in Hj.
          simpl in Hj. lia. }
        rewrite lookup_app_r in Hj by (rewrite length_app; simpl; lia).
        rewrite length_app in Hj. simpl in Hj.
        replace (S i - (length w0 + 1))%nat with 0%nat in Hj by lia.
        simpl in Hj. injection Hj as <-.
        exists prev, sp, ai. repeat split; auto.
        rewrite lookup_app_l by (rewrite length_app; simpl; lia).
        rewrite lookup_app_r by lia.
        replace (i - length w0)%nat with 0%nat by lia. reflexivity.
    + rewrite lookup_app_l; [exact H0 |].
      rewrite length_app. simpl. lia.
    + apply Forall_app. split; [exact Hpos |].
      constructor; [apply max0_nonneg | constructor].
Qed.

Lemma waiting_loop_total (s a : list Q) (count : nat) :
  forall (i : nat) (w : list Q),
    length w = S i -> (i + count < length s)%nat ->
    (S i + count <= length a)%nat ->
    exists w', waiting_loop s a (S i) count w = Ok w'.
Proof.
  induction count as [| c IH]; intros i w Hlen Hs Ha.
  - simpl. eauto.
  - simpl.
    destruct w as [| x w0] using rev_ind; [simpl in Hlen; lia |].
    unfold py_last. rewrite last_snoc. simpl.
    rewrite Nat.sub_0_r.
    destruct (lookup_lt_is_Some_2 s i) as [sp Hsp]; [lia |].
    destruct (lookup_lt_is_Some_2 a (S i)) as [ai Hai]; [lia |].
    unfold index. rewrite Hsp, Hai. simpl.
    apply IH.
    + rewrite length_app. simpl. lia.
    + lia.
    + lia.
Qed.

Lemma length_differences (l : list Q) :
  length (differences l) = (length l - 1)%nat.
Proof.
  induction l as [| i [| j l'] IH]; [reflexivity | reflexivity |].
  change (differences (i :: j :: l')) with ((j - i)%Q :: differences (j :: l')).
  simpl length in *. lia.
Qed.

Lemma length_recorded_interarrivals (q : Queue.t) :
  length (recorded_interarrivals q) = length (Queue.arrival_times q).
Proof.
  unfold recorded_interarrivals.
  destruct (Queue.arrival_times q) as [| a0 l] eqn:E; [reflexivity |].
  change (length (a0 :: differences (a0 :: l)))
    with (S (length (differences (a0 :: l)))).
  rewrite length_differences. simpl. lia.
Qed.

(** [extractor] returns for a station that has recorded no more service
    times than arrivals, with one waiting time per service time and the job
    ids of the station. *)
Lemma extractor_returns (system : state) (k : nat) (q : Queue.t) :
  stations system !! k = Some q ->
  (length (Queue.service_times q) <= length (Queue.arrival_times q))%nat ->
  exists ex : extracted,
    extractor system k = Ok ex /\
    length (waiting_times ex) = length (Queue.service_times q) /\
    job_ids ex = Queue.all_jobs q.
Proof.
  intros Hq Hlen. unfold extractor.
  apply get_station_Ok in Hq. rewrite Hq. simpl.
  fold (recorded_interarrivals q).
  destruct (Queue.service_times q) as [| s0 srest] eqn:Es.
  - eexists. split; [reflexivity |]. simpl. auto.
  - destruct (waiting_loop_total (s0 :: srest) (recorded_interarrivals q)
                (length (s0 :: srest) - 1) 0 [0%Q]) as [w Hw].
    + reflexivity.
    + simpl. lia.
    + rewrite length_recorded_interarrivals. simpl in *. lia.
    + rewrite Hw. simpl. eexists. split; [reflexivity |]. simpl.
      split; [| reflexivity].
      apply waiting_loop_spec in Hw.
      * destruct Hw as (Hl & _). rewrite Hl. simpl. lia.
      * reflexivity.
      * intros i wi Hi. destruct i; discriminate.
      * reflexivity.
      * constructor; [lra | constructor].
Qed.

(** C4. For a station with recorded service times [s] and recorded
    interarrival times [a], the waiting times [w] that [extractor] produces
    have one entry per recorded service time, start with [w_0 = 0], satisfy
    [w_k = max(0, w_(k-1) + s_(k-1) - a_k)] at every later position, and are
    all non-negative.  [extractor] does produce them whenever the station has
    recorded no more service times than arrivals. *)
Theorem lindley_recursion_exact (system : state) (k : nat) (q : Queue.t) :
  stations system !! k = Some q ->
  (forall ex : extracted, extractor system k = Ok ex ->
     let s := ex_service_times ex in
     let a := interarrival_times ex in
     let w := waiting_times ex in
     s = Queue.service_times q /\
     a = recorded_interarrivals q /\
     length w = length s /\
     (forall w0 : Q, w !! 0%nat = Some w0 -> w0 = 0%Q) /\
     (forall (i : nat) (wi : Q), w !! S i = Some wi ->
        exists wp sp ai,
          w !! i = Some wp /\ s !! i = Some sp /\ a !! S i = Some ai /\
          wi = max0 (wp + sp - ai)) /\
     Forall (fun x => (0 <= x)%Q) w) /\
  ((length (Queue.service_times q) <= length (Queue.arrival_times q))%nat ->
   exists ex : extracted, extractor system k = Ok ex).
Proof.
  intros Hq. unfold extractor.
  apply get_station_Ok in Hq. rewrite Hq. simpl.
  fold (recorded_interarrivals q).
  destruct (Queue.service_times q) as [| s0 srest] eqn:Es.
  - split.
    + intros ex [= <-]. simpl.
      repeat split; auto; intros; discriminate.
    + intros _. eauto.
  - split.
    + intros ex Hex.
      destruct (waiting_loop (s0 :: srest) (recorded_interarrivals q) 1
                  (length (s0 :: srest) - 1) [0%Q]) as [w |] eqn:Ew;
        [| discriminate].
      simpl in Hex. injection Hex as <-. simpl.
      apply waiting_loop_spec in Ew.
      * destruct Ew as (Hl & Hlin & H0 & Hpos).
        repeat split; auto.
        -- rewrite Hl. simpl. lia.
        -- intros w0 Hw0. congruence.
      * reflexivity.
      * intros i wi Hi. destruct i; discriminate.
      * reflexivity.
      * constructor; [lra | constructor].
    + intros Hlen.
      destruct (waiting_loop_total (s0 :: srest) (recorded_interarrivals q)
                  (length (s0 :: srest) - 1) 0 [0%Q]) as [w Hw].
      * reflexivity.
      * simpl. lia.
      * rewrite length_recorded_interarrivals. simpl in *. lia.
      * rewrite Hw. simpl. eauto.
Qed.

(** ** The two operations of a station *)

Section StationOperations.
Context `{Numpy}.

Lemma action_in_Ok (time : Q) (job : option Z) (q q' : Queue.t) (g g' : nat) :
  Queue.action_in time job q g = Ok (q', g') ->
  same_config q q' /\
  Queue.in_system q' = (Queue.in_system q + 1)%Z /\
  Queue.all_jobs q' = Queue.all_jobs q ++ [job] /\
  Queue.arrival_times q' = Queue.arrival_times q ++ [time] /\
  Queue.departure_times q' = Queue.departure_times q /\
  Queue.next_destination q' = Queue.next_destination q /\
  ((1 < Queue.in_system q + 1)%Z /\
   Queue.time_next q' = None /\
   Queue.jobs_in_system q' = Queue.jobs_in_system q ++ [job] /\
   Queue.service_times q' = Queue.service_times q /\
   Queue.next_job q' = Queue.next_job q /\
   Queue.finish_time q' = Queue.finish_time q /\
   g' = g
   \/
   (Queue.in_system q + 1 <= 1)%Z /\
   exists (sv : Q),
     Queue.draw_service q g = Ok (Some sv, g') /\
     Queue.jobs_in_system q ++ [job]
       = Queue.next_job q' :: Queue.jobs_in_system q' /\
     Queue.service_times q' = Queue.service_times q ++ [sv] /\
     Queue.finish_time q' = (time + sv)%Q /\
     Queue.time_next q' = Some (time + sv)%Q).
Proof.
  unfold Queue.action_in, same_config.
  destruct (1 <? Queue.in_system q + 1)%Z eqn:Ecmp.
  - unfold ret. intros [= <- <-]. simpl.
    apply Z.ltb_lt in Ecmp. repeat split; auto.
    left. repeat split; auto.
  - apply Z.ltb_ge in Ecmp.
    unfold bind, lift, ret, bound, Queue.popleft. intros Hrun.
    destruct (Queue.draw_service q g) as [[[sv |] g1] |] eqn:Ed;
      try discriminate Hrun.
    + destruct (Queue.jobs_in_system q ++ [job]) as [| nj rest] eqn:Ej;
        try discriminate Hrun.
      injection Hrun as <- <-. simpl.
      repeat split; auto. right. split; [exact Ecmp |].
      exists sv. repeat split; auto.
    + destruct (Queue.jobs_in_system q ++ [job]) as [| nj rest] eqn:Ej;
        discriminate Hrun.
Qed.

Lemma action_out_Ok (time : Q) (q q' : Queue.t) (g g' : nat) :
  Queue.action_out time q g = Ok (q', g') ->
  same_config q q' /\
  Queue.in_system q' = (Queue.in_system q - 1)%Z /\
  Queue.all_jobs q' = Queue.all_jobs q /\
  Queue.arrival_times q' = Queue.arrival_times q /\
  Queue.departure_times q' = Queue.departure_times q ++ [time] /\
  (exists d : nat, Queue.next_destination q' = Some d) /\
  ((Queue.in_system q - 1)%Z = 0%Z /\
   Queue.time_next q' = None /\
   Queue.jobs_in_system q' = Queue.jobs_in_system q /\
   Queue.service_times q' = Queue.service_times q /\
   Queue.next_job q' = Queue.next_job q /\
   Queue.finish_time q' = Queue.finish_time q
   \/
   (Queue.in_system q - 1)%Z <> 0%Z /\
   exists (sv : Q) (g1 : nat),
     Queue.draw_service q g = Ok (Some sv, g1) /\
     Queue.jobs_in_system q
       = Queue.next_job q' :: Queue.jobs_in_system q' /\
     Queue.service_times q' = Queue.service_times q ++ [sv] /\
     Queue.finish_time q' = (time + sv)%Q /\
     Queue.time_next q' = Some (time + sv)%Q).
Proof.
  unfold Queue.action_out, same_config.
  destruct (Queue.in_system q - 1 =? 0)%Z eqn:Ecmp; simpl negb; cbv iota.
  - apply Z.eqb_eq in Ecmp.
    unfold bind, ret. intros Hrun.
    destruct (np_random_choice _ _ g) as [[d g1] |] eqn:Ec;
      try discriminate Hrun.
    injection Hrun as <- <-. simpl.
    repeat split; eauto. left. repeat split; auto.
  - apply Z.eqb_neq in Ecmp.
    unfold bind, lift, ret, bound, Queue.popleft. intros Hrun.
    destruct (Queue.draw_service q g) as [[[sv |] g1] |] eqn:Ed;
      try discriminate Hrun.
    + destruct (Queue.jobs_in_system q) as [| nj rest] eqn:Ej;
        try discriminate Hrun.
      destruct (np_random_choice _ _ g1) as [[d g2] |] eqn:Ec;
        try discriminate Hrun.
      injection Hrun as <- <-. simpl.
      repeat split; eauto. right. split; [exact Ecmp |].
      exists sv, g1. repeat split; auto.
    + destruct (Queue.jobs_in_system q) as [| nj rest] eqn:Ej;
        discriminate Hrun.
Qed.

(** A service-time draw under the exponential family is refused exactly
    for a negative mean. *)
Lemma draw_service_negative_mean (q : Queue.t) (g : nat) :
  Queue.distribution q = Exponential -> (Queue.mu q < 0)%Q ->
  Queue.draw_service q g = Raise ValueError.
Proof.
  intros Hd Hm. unfold Queue.draw_service. rewrite Hd.
  unfold bind, np_random_exponential.
  apply Qlt_bool_iff in Hm. rewrite Hm. reflexivity.
Qed.

(** The routing draw of a departure is refused when the exit probability
    is negative. *)
Lemma choice_negative_exit (d : list Q) (p : Q) (g : nat) :
  (p < 0)%Q ->
  np_random_choice (length d + 1) (d ++ [p]) g = Raise ValueError.
Proof.
  intros Hp. unfold np_random_choice.
  replace (length d + 1 =? 0)%nat with false
    by (symmetry; apply Nat.eqb_neq; lia).
  rewrite length_app. simpl length. rewrite Nat.eqb_refl. simpl negb.
  cbv iota.
  replace (existsb (fun x : Q => Qlt_bool x 0) (d ++ [p])) with true;
    [reflexivity |].
  symmetry. apply existsb_exists. exists p. split.
  - apply in_or_app. right. left. reflexivity.
  - apply Qlt_bool_iff. exact Hp.
Qed.
Lemma cumsum_snoc (p : list Q) (x : Q) :
  forall acc : Q,
    cumsum acc (p ++ [x]) = cumsum acc p ++ [fold_left Qplus (p ++ [x]) acc].
Proof.
  induction p as [| y p IH]; intros acc; simpl.
  - reflexivity.
  - rewrite IH. reflexivity.
Qed.

Lemma length_cumsum (p : list Q) : forall acc, length (cumsum acc p) = length p.
Proof.
  induction p as [| y p IH]; intros acc; simpl; [reflexivity |].
  rewrite IH. reflexivity.
Qed.

(** From a valid row the routing draw returns an outcome of the range, for
    every uniform variate below 1. *)
Lemma choice_succeeds (n : nat) (row : list Q) (g : nat) :
  valid_row n row -> (random_sample g < 1)%Q ->
  exists d : nat, np_random_choice n row g = Ok (d, S g) /\ (d < n)%nat.
Proof.
  intros (Hn & Hlen & Hpos & Hsum) Hu. unfold np_random_choice.
  replace (n =? 0)%nat with false by (symmetry; apply Nat.eqb_neq; exact Hn).
  rewrite Hlen, Nat.eqb_refl. simpl negb. cbv iota.
  replace (existsb (fun x : Q => Qlt_bool x 0) row) with false.
  2:{ symmetry. apply not_true_iff_false. intros Hex.
      apply existsb_exists in Hex as (x & Hx & Hneg).
      apply Qlt_bool_iff in Hneg. rewrite Forall_forall in Hpos.
      apply list_elem_of_In in Hx. specialize (Hpos x Hx). lra. }
  replace (Qlt_bool atol (Qabs (sum row - 1))) with false
    by (symmetry; apply Qlt_bool_false; exact Hsum).
  set (idx := searchsorted_right _ _).
  assert (Hidx : (idx < n)%nat).
  { unfold idx, searchsorted_right. clear idx.
    destruct row as [| x row] using rev_ind; [simpl in Hlen; congruence |].
    clear IHrow. rewrite cumsum_snoc, map_app, filter_app, length_app.
    fold (sum (row ++ [x])). simpl map.
    assert (Hs : (0 < sum (row ++ [x]))%Q).
    { apply Qabs_Qle_condition in Hsum as [Hlo _].
      unfold atol in Hlo.
      assert ((- (1 # 67108864) <= sum (row ++ [x]) - 1)%Q) by exact Hlo.
      assert ((- (1 # 67108864) == - 1 * (1 # 67108864))%Q) by ring.
      assert ((1 # 67108864) < 1)%Q by reflexivity. lra. }
    assert (Hone : (sum (row ++ [x]) / sum (row ++ [x]) == 1)%Q)
      by (field; lra).
    rewrite filter_cons_False.
    - rewrite filter_nil. simpl length.
      pose proof (length_filter (fun c : Q => Qle_bool c (random_sample g) = true)
                    (map (fun c : Q => (c / sum (row ++ [x]))%Q)
                         (cumsum 0 row))) as Hle.
      rewrite length_map, length_cumsum in Hle.
      rewrite length_app in Hlen. simpl in Hlen. lia.
    - intros Hc. apply Qle_bool_iff in Hc. rewrite Hone in Hc. lra. }
  exists idx. split; [| exact Hidx].
  apply Nat.ltb_lt in Hidx. rewrite Hidx. reflexivity.
Qed.
End StationOperations.

(** ** heapq: what [heappop] returns *)

Section HeapFacts.
Context {A : Type} (lt : A -> A -> result bool).

Lemma select_Permutation (h : list A) :
  forall (m m' : A) (r : list A),
    select lt m h = Ok (m', r) -> Permutation (m :: h) (m' :: r).
Proof.
  induction h as [| x h IH]; intros m m' r Hs; simpl in Hs.
  - injection Hs as <- <-. reflexivity.
  - destruct (lt x m) as [[|] |] eqn:E; simpl in Hs; try discriminate Hs.
    + destruct (select lt x h) as [[m1 r1] |] eqn:E1; simpl in Hs;
        try discriminate Hs.
      injection Hs as <- <-.
      transitivity (m :: m1 :: r1); [| apply perm_swap].
      apply perm_skip. apply IH. exact E1.
    + destruct (select lt m h) as [[m1 r1] |] eqn:E1; simpl in Hs;
        try discriminate Hs.
      injection Hs as <- <-.
      transitivity (x :: m :: h); [apply perm_swap |].
      transitivity (x :: m1 :: r1); [| apply perm_swap].
      apply perm_skip. apply IH. exact E1.
Qed.

Lemma heappop_Permutation (h r : list A) (e : A) :
  heappop lt h = Ok (e, r) -> Permutation h (e :: r).
Proof.
  destruct h as [| x h]; simpl; [discriminate |].
  apply select_Permutation.
Qed.

Lemma heappop_elem (h r : list A) (e x : A) :
  heappop lt h = Ok (e, r) -> x ∈ h <-> x = e \/ x ∈ r.
Proof.
  intros Hp. apply heappop_Permutation in Hp.
  rewrite Hp. apply elem_of_cons.
Qed.

(** When no comparison among the entries raises, neither does the
    selection. *)
Lemma select_total (h : list A) :
  forall m : A,
    (forall a b, a ∈ m :: h -> b ∈ m :: h -> exists c, lt a b = Ok c) ->
    exists m' r, select lt m h = Ok (m', r).
Proof.
  induction h as [| x h IH]; intros m Hc; simpl.
  - eauto.
  - destruct (Hc x m) as [c Ec];
      [rewrite !elem_of_cons; auto | rewrite !elem_of_cons; auto |].
    rewrite Ec. simpl.
    destruct c.
    + destruct (IH x) as (m' & r & E).
      { intros a b Ha Hb. apply Hc; rewrite elem_of_cons; right; assumption. }
      rewrite E. simpl. eauto.
    + destruct (IH m) as (m' & r & E).
      { intros a b Ha Hb. rewrite elem_of_cons in Ha, Hb.
        apply Hc; rewrite !elem_of_cons; tauto. }
      rewrite E. simpl. eauto.
Qed.

Lemma heappop_total (h : list A) :
  h <> [] ->
  (forall a b, a ∈ h -> b ∈ h -> exists c, lt a b = Ok c) ->
  exists e r, heappop lt h = Ok (e, r).
Proof.
  destruct h as [| x h]; [congruence |]. intros _ Hc.
  simpl. apply select_total. exact Hc.
Qed.

(** The selected entry is least for every preorder that the comparison
    respects. *)
Lemma select_least (R : A -> A -> Prop) :
  (forall a, R a a) ->
  (forall a b c, R a b -> R b c -> R a c) ->
  (forall a b, lt a b = Ok true -> R a b) ->
  (forall a b, lt a b = Ok false -> R b a) ->
  forall (h : list A) (m m' : A) (r : list A),
    select lt m h = Ok (m', r) -> R m' m /\ Forall (R m') r.
Proof.
  intros Hrefl Htrans Ht Hf.
  induction h as [| x h IH]; intros m m' r Hs; simpl in Hs.
  - injection Hs as <- <-. split; [apply Hrefl | constructor].
  - destruct (lt x m) as [[|] |] eqn:E; simpl in Hs; try discriminate Hs.
    + destruct (select lt x h) as [[m1 r1] |] eqn:E1; simpl in Hs;
        try discriminate Hs.
      injection Hs as <- <-.
      destruct (IH _ _ _ E1) as [Hx Hr].
      assert (R m1 m) by (eapply Htrans; [exact Hx | apply Ht; exact E]).
      split; [assumption | constructor; assumption].
    + destruct (select lt m h) as [[m1 r1] |] eqn:E1; simpl in Hs;
        try discriminate Hs.
      injection Hs as <- <-.
      destruct (IH _ _ _ E1) as [Hm Hr].
      split; [assumption |].
      constructor; [| assumption].
      eapply Htrans; [exact Hm | apply Hf; exact E].
Qed.

Lemma heappop_least (R : A -> A -> Prop) :
  (forall a, R a a) ->
  (forall a b c, R a b -> R b c -> R a c) ->
  (forall a b, lt a b = Ok true -> R a b) ->
  (forall a b, lt a b = Ok false -> R b a) ->
  forall (h r : list A) (e : A),
    heappop lt h = Ok (e, r) -> Forall (R e) r.
Proof.
  intros Hrefl Htrans Ht Hf h r e Hp.
  destruct h as [| x h]; simpl in Hp; [discriminate |].
  eapply select_least in Hp; eauto. tauto.
Qed.
End HeapFacts.

(** The time component orders both kinds of heap entries. *)
Lemma arrival_lt_true (a b : Q * nat) :
  arrival_lt a b = Ok true -> (a.1 <= b.1)%Q.
Proof.
  destruct a as [t1 i1], b as [t2 i2]. simpl.
  destruct (Qeq_bool t1 t2) eqn:E; simpl.
  - intros _. apply Qeq_bool_iff in E. lra.
  - intros [= Hlt]. apply Qlt_bool_iff in Hlt. lra.
Qed.

Lemma arrival_lt_false (a b : Q * nat) :
  arrival_lt a b = Ok false -> (b.1 <= a.1)%Q.
Proof.
  destruct a as [t1 i1], b as [t2 i2]. simpl.
  destruct (Qeq_bool t1 t2) eqn:E; simpl.
  - intros _. apply Qeq_bool_iff in E. lra.
  - intros [= Hlt]. apply Qlt_bool_false in Hlt. exact Hlt.
Qed.

Lemma arrival_lt_total (a b : Q * nat) : exists c, arrival_lt a b = Ok c.
Proof.
  destruct a as [t1 i1], b as [t2 i2]. simpl.
  destruct (negb (Qeq_bool t1 t2)); eauto.
Qed.

Lemma event_lt_true (a b : event) :
  event_lt a b = Ok true -> (ev_time a <= ev_time b)%Q.
Proof.
  destruct a as [[t1 j1] n1], b as [[t2 j2] n2]. unfold ev_time. simpl.
  destruct (Qeq_bool t1 t2) eqn:E; simpl.
  - intros _. apply Qeq_bool_iff in E. lra.
  - intros [= Hlt]. apply Qlt_bool_iff in Hlt. lra.
Qed.

Lemma event_lt_false (a b : event) :
  event_lt a b = Ok false -> (ev_time b <= ev_time a)%Q.
Proof.
  destruct a as [[t1 j1] n1], b as [[t2 j2] n2]. unfold ev_time. simpl.
  destruct (Qeq_bool t1 t2) eqn:E; simpl.
  - intros _. apply Qeq_bool_iff in E. lra.
  - intros [= Hlt]. apply Qlt_bool_false in Hlt. exact Hlt.
Qed.

(** ** Pending events *)

Lemma node_eqb_eq (a b : node) : node_eqb a b = true <-> a = b.
Proof.
  destruct a as [| x], b as [| y]; simpl; split; try congruence.
  - intros E. apply Nat.eqb_eq in E. congruence.
  - intros [= ->]. apply Nat.eqb_refl.
Qed.

Lemma node_eqb_refl (a : node) : node_eqb a a = true.
Proof. apply node_eqb_eq. reflexivity. Qed.

Lemma node_eqb_neq (a b : node) : node_eqb a b = false <-> a <> b.
Proof.
  rewrite <- node_eqb_eq. destruct (node_eqb a b); split; congruence.
Qed.

Lemma pending_app (nd : node) (a b : list event) :
  pending nd (a ++ b) = (pending nd a + pending nd b)%nat.
Proof. induction a as [| e a IH]; simpl; [reflexivity | rewrite IH; lia]. Qed.

Lemma pending_Permutation (nd : node) (a b : list event) :
  Permutation a b -> pending nd a = pending nd b.
Proof. induction 1; simpl; lia. Qed.

Lemma pending_zero (nd : node) (evs : list event) :
  pending nd evs = 0%nat <-> forall e, e ∈ evs -> ev_node e <> nd.
Proof.
  induction evs as [| x evs IH]; simpl.
  - split; [intros _ e He; inversion He | reflexivity].
  - destruct (node_eqb (ev_node x) nd) eqn:E.
    + split; [lia |]. intros Hall. exfalso.
      apply node_eqb_eq in E. apply (Hall x); [left | exact E].
    + apply node_eqb_neq in E. simpl. rewrite IH. split.
      * intros Hall e He. apply elem_of_cons in He as [-> | He]; auto.
      * intros Hall e He. apply Hall. right. exact He.
Qed.

Lemma schedule_cases (evs : list event) (tn : option Q) (nj : option Z)
    (nd : node) :
  (truthy tn = false /\ schedule evs tn nj nd = evs) \/
  (exists t, tn = Some t /\ ~ (t == 0)%Q /\
             schedule evs tn nj nd = evs ++ [(t, nj, nd)]).
Proof.
  unfold schedule. destruct tn as [t |]; [| left; auto].
  destruct (truthy (Some t)) eqn:E.
  - right. exists t. apply truthy_Some in E. auto.
  - left. auto.
Qed.

Lemma pending_schedule (nd nd' : node) (evs : list event) (tn : option Q)
    (nj : option Z) :
  pending nd (schedule evs tn nj nd')
  = (pending nd evs
     + if node_eqb nd' nd then (if truthy tn then 1 else 0) else 0)%nat.
Proof.
  destruct (schedule_cases evs tn nj nd') as [[Ht ->] | (t & -> & Hz & ->)].
  - rewrite Ht. destruct (node_eqb nd' nd); lia.
  - apply truthy_Some in Hz. rewrite Hz.
    rewrite pending_app. simpl. unfold ev_node. simpl.
    destruct (node_eqb nd' nd); lia.
Qed.

Lemma elem_of_schedule (e : event) (evs : list event) (tn : option Q)
    (nj : option Z) (nd : node) :
  e ∈ schedule evs tn nj nd ->
  e ∈ evs \/ exists t, tn = Some t /\ ~ (t == 0)%Q /\ e = (t, nj, nd).
Proof.
  destruct (schedule_cases evs tn nj nd) as [[Ht ->] | (t & -> & Hz & ->)].
  - auto.
  - rewrite elem_of_app, list_elem_of_singleton. intros [He | ->]; eauto.
Qed.

(** ** One pass through the loop body, taken apart *)

Section Iteration.
Context `{Numpy}.

Lemma dispatch_Ok (s : state) (t : Q) (nd : node) (evs evs1 : list event)
    (src1 : Source.t) (sts1 : list Queue.t) (dest : option nat) (g1 : nat) :
  dispatch s t nd evs = Ok (src1, sts1, evs1, dest, g1) ->
  (nd = NSource /\
   Source.action_out t (source s) (rng s) = Ok (src1, g1) /\
   sts1 = stations s /\
   evs1 = schedule evs (Some (Source.time_next src1))
                   (Some (Source.next_job src1)) NSource /\
   dest = Some (Source.next_destination src1))
  \/
  (exists (k : nat) (q q1 : Queue.t),
     nd = NStation k /\
     stations s !! k = Some q /\
     Queue.action_out t q (rng s) = Ok (q1, g1) /\
     src1 = source s /\
     sts1 = <[k := q1]> (stations s) /\
     evs1 = schedule evs (Queue.time_next q1) (Queue.next_job q1)
                     (NStation k) /\
     dest = Queue.next_destination q1).
Proof.
  unfold dispatch. destruct nd as [| k].
  - destruct (Source.action_out t (source s) (rng s)) as [[src g] |] eqn:E;
      simpl; [| discriminate].
    intros [= <- <- <- <- <-]. left. auto.
  - destruct (get_station (stations s) k) as [q |] eqn:Eq; simpl;
      [| discriminate].
    apply get_station_Ok in Eq.
    destruct (Queue.action_out t q (rng s)) as [[q1 g] |] eqn:E; simpl;
      [| discriminate].
    intros [= <- <- <- <- <-]. right. exists k, q, q1. auto 10.
Qed.

Lemma deliver_Ok (n : nat) (t : Q) (job : option Z) (sts sts2 : list Queue.t)
    (evs evs2 : list event) (dest : option nat) (g g2 : nat) :
  deliver n t job sts evs dest g = Ok (sts2, evs2, g2) ->
  exists d : nat, dest = Some d /\
    ((d = n /\ sts2 = sts /\ evs2 = evs /\ g2 = g)
     \/
     (d <> n /\
      exists q q2 : Queue.t,
        sts !! d = Some q /\
        Queue.action_in t job q g = Ok (q2, g2) /\
        sts2 = <[d := q2]> sts /\
        evs2 = schedule evs (Queue.time_next q2) (Queue.next_job q2)
                        (NStation d))).
Proof.
  unfold deliver. destruct dest as [d |]; [| discriminate].
  intros Hrun. exists d. split; [reflexivity |].
  destruct (d =? n)%nat eqn:Ed.
  - apply Nat.eqb_eq in Ed. injection Hrun as <- <- <-. left. auto.
  - apply Nat.eqb_neq in Ed. right. split; [exact Ed |].
    destruct (get_station sts d) as [q |] eqn:Eq; simpl in Hrun;
      [| discriminate].
    apply get_station_Ok in Eq.
    destruct (Queue.action_in t job q g) as [[q2 g'] |] eqn:E; simpl in Hrun;
      [| discriminate].
    injection Hrun as <- <- <-. exists q, q2. auto.
Qed.

Lemma iteration_Ok (s s' : state) :
  iteration s = Ok s' ->
  exists (t : Q) (job : option Z) (nd : node) (evs0 evs1 : list event)
         (sts1 : list Queue.t) (dest : option nat) (g1 : nat),
    heappop event_lt (events s) = Ok ((t, job, nd), evs0) /\
    dispatch s t nd evs0 = Ok (source s', sts1, evs1, dest, g1) /\
    deliver (length (stations s)) t job sts1 evs1 dest g1
      = Ok (stations s', events s', rng s') /\
    Source_time s' = t /\ Queue_time s' = t /\ curr s' = t /\
    py_min (map departures (stations s')) = Ok (jobs s').
Proof.
  unfold iteration. intros Hrun.
  destruct (heappop event_lt (events s)) as [[[[t job] nd] evs0] |] eqn:Ep;
    simpl in Hrun; [| discriminate].
  destruct (dispatch s t nd evs0) as [[[[[src1 sts1] evs1] dest] g1] |]
    eqn:Ed; simpl in Hrun; [| discriminate].
  destruct (deliver (length (stations s)) t job sts1 evs1 dest g1)
    as [[[sts2 evs2] g2] |] eqn:El; simpl in Hrun; [| discriminate].
  destruct (py_min (map departures sts2)) as [j |] eqn:Em; simpl in Hrun;
    [| discriminate].
  injection Hrun as <-. simpl.
  exists t, job, nd, evs0, evs1, sts1, dest, g1. auto 10.
Qed.

Lemma iterations_S_front (k : nat) (s : state) :
  iterations (S k) s = rbind (iteration s) (iterations k).
Proof.
  induction k as [| k IH].
  - simpl. destruct (iteration s); reflexivity.
  - change (iterations (S (S k)) s)
      with (rbind (iterations (S k) s) iteration).
    rewrite IH. destruct (iteration s) as [s1 |]; reflexivity.
Qed.
End Iteration.

(** ** Job accounting of the stations *)

Lemma truthy_zero (t : Q) : (t == 0)%Q -> truthy (Some t) = false.
Proof.
  intros Ht. simpl. apply Qeq_bool_iff in Ht. rewrite Ht. reflexivity.
Qed.

Section Accounting.
Context `{Numpy}.

Lemma dispatch_accounting (s : state) (t : Q) (job : option Z) (nd : node)
    (evs0 evs1 : list event) (src1 : Source.t) (sts1 : list Queue.t)
    (dest : option nat) (g1 : nat) :
  accounting (stations s) ((t, job, nd) :: evs0) ->
  dispatch s t nd evs0 = Ok (src1, sts1, evs1, dest, g1) ->
  accounting sts1 evs1.
Proof.
  intros Hacc Hd.
  apply dispatch_Ok in Hd
    as [(-> & _ & -> & -> & _)
       | (k0 & q0 & q1 & -> & Hq0 & Hout & _ & -> & -> & _)].
  - intros k q Hq. specialize (Hacc k q Hq).
    rewrite pending_schedule. simpl in *. rewrite Nat.add_0_r. exact Hacc.
  - intros k q Hq. apply list_lookup_insert_Some in Hq
      as [(<- & <- & Hlen) | (Hne & Hq)].
    + specialize (Hacc k0 q0 Hq0). simpl in Hacc. unfold ev_node in Hacc.
      simpl in Hacc. rewrite Nat.eqb_refl in Hacc.
      destruct Hacc as [Hb Hn Hone Hbusy Hsb Hsi Hw Hall Hz].
      assert (Hp0 : pending (NStation k0) evs0 = 0%nat) by lia.
      assert (Hin : (1 <= Queue.in_system q0)%Z) by (apply Hbusy; lia).
      rewrite pending_schedule, Hp0, node_eqb_refl. simpl Nat.add.
      apply action_out_Ok in Hout
        as (_ & Hi & Haj & Harr & Hdep & _ & Hcase).
      destruct Hcase as [(Hzero & Htn & Hjs & Hsv & _ & _)
                        | (Hnz & sv & g' & _ & Hjs & Hsv & _ & Htn)].
      * rewrite Htn. simpl.
        constructor; rewrite ?Hi, ?Haj, ?Harr, ?Hdep, ?Hjs, ?Hsv, ?length_app;
          simpl; try lia; try congruence.
      * rewrite Htn.
        constructor; rewrite ?Hi, ?Haj, ?Harr, ?Hdep, ?Hsv, ?length_app;
          simpl length; try lia.
        -- destruct (truthy (Some (t + sv)%Q)); lia.
        -- rewrite Hjs in Hw. simpl length in Hw. lia.
        -- intros _ t' Ht' Hz'. rewrite Htn in Ht'. injection Ht' as <-.
           apply truthy_zero in Hz'. rewrite Hz'. reflexivity.
    + specialize (Hacc k q Hq). simpl in Hacc. unfold ev_node in Hacc.
      simpl in Hacc.
      replace (k0 =? k)%nat with false in Hacc
        by (symmetry; apply Nat.eqb_neq; exact Hne).
      rewrite pending_schedule. simpl.
      replace (k0 =? k)%nat with false
        by (symmetry; apply Nat.eqb_neq; exact Hne).
      rewrite Nat.add_0_r. exact Hacc.
Qed.

Lemma deliver_accounting (n : nat) (t : Q) (job : option Z)
    (sts sts2 : list Queue.t) (evs evs2 : list event) (dest : option nat)
    (g g2 : nat) :
  accounting sts evs ->
  deliver n t job sts evs dest g = Ok (sts2, evs2, g2) ->
  accounting sts2 evs2.
Proof.
  intros Hacc Hd.
  apply deliver_Ok in Hd
    as (d & -> & [(_ & -> & -> & _)
                 | (_ & q0 & q2 & Hq0 & Hin & -> & ->)]);
    [exact Hacc |].
  intros k q Hq. apply list_lookup_insert_Some in Hq
    as [(<- & <- & Hlen) | (Hne & Hq)].
  - specialize (Hacc d q0 Hq0).
    destruct Hacc as [Hb Hn Hone Hbusy Hsb Hsi Hw Hall Hz].
    rewrite pending_schedule, node_eqb_refl.
    apply action_in_Ok in Hin
      as (_ & Hi & Haj & Harr & Hdep & _ & Hcase).
    destruct Hcase as [(Hgt & Htn & Hjs & Hsv & _ & _ & _)
                      | (Hle & sv & _ & Hjs & Hsv & _ & Htn)].
    + rewrite Htn. simpl. rewrite Nat.add_0_r.
      constructor;
        rewrite ?Hi, ?Haj, ?Harr, ?Hdep, ?Hjs, ?Hsv, ?length_app;
        simpl length; try lia; try (intros; congruence).
    + assert (Hidle : Queue.in_system q0 = 0%Z) by lia.
      assert (Hp0 : pending (NStation d) evs = 0%nat).
      { destruct (pending (NStation d) evs) as [| [| c]]; [reflexivity | |].
        - specialize (Hbusy eq_refl). lia.
        - lia. }
      rewrite Hp0, Htn.
      constructor;
        rewrite ?Hi, ?Haj, ?Harr, ?Hdep, ?Hsv, ?length_app;
        simpl length; try lia.
      * destruct (truthy (Some (t + sv)%Q)); simpl; lia.
      * assert (Hjl : length (Queue.jobs_in_system q0 ++ [job])
                      = length (Queue.next_job q2 :: Queue.jobs_in_system q2))
          by (rewrite Hjs; reflexivity).
        rewrite length_app in Hjl. simpl length in Hjl. lia.
      * intros _ t' Ht' Hz'. rewrite Htn in Ht'. injection Ht' as <-.
        apply truthy_zero in Hz'. rewrite Hz'. reflexivity.
  - rewrite pending_schedule. simpl.
    replace (d =? k)%nat with false
      by (symmetry; apply Nat.eqb_neq; exact Hne).
    rewrite Nat.add_0_r. apply Hacc. exact Hq.
Qed.

Lemma iteration_accounting (s s' : state) :
  accounting (stations s) (events s) ->
  iteration s = Ok s' ->
  accounting (stations s') (events s').
Proof.
  intros Hacc Hit.
  apply iteration_Ok in Hit
    as (t & job & nd & evs0 & evs1 & sts1 & dest & g1
        & Hpop & Hdisp & Hdel & _).
  apply heappop_Permutation in Hpop.
  assert (Hacc0 : accounting (stations s) ((t, job, nd) :: evs0)).
  { intros k q Hq. rewrite <- (pending_Permutation _ _ _ Hpop).
    apply Hacc. exact Hq. }
  eapply deliver_accounting; [| exact Hdel].
  eapply dispatch_accounting; [exact Hacc0 | exact Hdisp].
Qed.
End Accounting.

(** ** Runs *)

Section Runs.
Context `{Numpy}.

Lemma run_0 (p : params) (s : state) :
  run p 0 = Ok s <-> wrapper_init p = Ok s.
Proof.
  unfold run. destruct (wrapper_init p); simpl; tauto.
Qed.

Lemma run_S (p : params) (k : nat) (s' : state) :
  run p (S k) = Ok s' <-> exists s, run p k = Ok s /\ iteration s = Ok s'.
Proof.
  unfold run. destruct (wrapper_init p) as [s0 |]; simpl.
  - destruct (iterations k s0) as [s |]; simpl.
    + split; [eauto | intros (s1 & [= <-] & Hs); exact Hs].
    + split; [discriminate | intros (s1 & Hs & _); discriminate].
  - split; [discriminate | intros (s1 & Hs & _); discriminate].
Qed.

(** Induction over the passes of a run. *)
Lemma run_ind (p : params) (P : state -> Prop) :
  (forall s0, wrapper_init p = Ok s0 -> P s0) ->
  (forall k s s', run p k = Ok s -> P s -> iteration s = Ok s' -> P s') ->
  forall k s, run p k = Ok s -> P s.
Proof.
  intros Hinit Hstep. induction k as [| k IH]; intros s Hrun.
  - apply Hinit. apply run_0. exact Hrun.
  - apply run_S in Hrun as (s1 & Hrun & Hit).
    eapply Hstep; eauto.
Qed.

Lemma for_range_pure_spec {A} (f : nat -> result A) (n : nat) :
  forall (i : nat) (l : list A),
    for_range_pure f i n = Ok l ->
    length l = n /\
    forall j x, l !! j = Some x -> f (i + j)%nat = Ok x.
Proof.
  induction n as [| n IH]; intros i l Hl; simpl in Hl.
  - injection Hl as <-. split; [reflexivity | intros j x Hj; discriminate].
  - destruct (f i) as [a |] eqn:Ef; simpl in Hl; [| discriminate].
    destruct (for_range_pure f (S i) n) as [l' |] eqn:El; simpl in Hl;
      [| discriminate].
    injection Hl as <-. destruct (IH _ _ El) as [Hlen Hall].
    split; [simpl; lia |].
    intros [| j] x Hj; simpl in Hj.
    + injection Hj as <-. rewrite Nat.add_0_r. exact Ef.
    + replace (i + S j)%nat with (S i + j)%nat by lia. apply Hall. exact Hj.
Qed.

Lemma float_sq_Ok (x y : Q) :
  float_sq x = Ok y -> y = sq x /\ (sq x < float_overflow)%Q.
Proof.
  unfold float_sq. destruct (Qle_bool float_overflow (sq x)) eqn:E;
    [discriminate |].
  intros [= <-]. split; [reflexivity |].
  apply Qnot_le_lt. intros Hle. apply Qle_bool_iff in Hle. congruence.
Qed.

Lemma float_sq_Raise (x : Q) (e : exn) :
  float_sq x = Raise e ->
  e = OverflowError /\ (float_overflow <= sq x)%Q.
Proof.
  unfold float_sq. destruct (Qle_bool float_overflow (sq x)) eqn:E;
    [| discriminate].
  intros [= <-]. split; [reflexivity | apply Qle_bool_iff; exact E].
Qed.


(** What a constructed station holds. *)
Lemma queue_init_Ok (m : Q) (d : list Q) (f : family) (c : Q)
    (q : Queue.t) :
  Queue.init m d f c = Ok q ->
  exists mu sigma : Q,
    q = Queue.mk (1 - sum d) d (length d) f mu sigma
                 0 [] [] None (Some 0%Q) [] [] [] 0%Q None /\
    (f = Exponential -> mu = m /\ (sq m < float_overflow)%Q) /\
    (f = Lognormal -> (sq c < float_overflow)%Q).
Proof.
  unfold Queue.init. destruct f; simpl.
  - destruct (float_sq m) as [y |] eqn:Ey; simpl; [| discriminate].
    intros [= <-]. apply float_sq_Ok in Ey as [_ Hlt].
    eexists _, _. split; [reflexivity |].
    split; [auto | discriminate].
  - destruct (float_sq c) as [y |] eqn:Ey; simpl; [| discriminate].
    intros [= <-]. apply float_sq_Ok in Ey as [_ Hlt].
    eexists _, _. split; [reflexivity |].
    split; [discriminate | auto].
  - intros [= <-]. eexists _, _. split; [reflexivity |].
    split; discriminate.
Qed.

(** The constructor raises nothing but the overflow of its power. *)
Lemma queue_init_Raise (m : Q) (d : list Q) (f : family) (c : Q)
    (e : exn) :
  Queue.init m d f c = Raise e ->
  e = OverflowError /\
  (f = Exponential /\ (float_overflow <= sq m)%Q \/
   f = Lognormal /\ (float_overflow <= sq c)%Q).
Proof.
  unfold Queue.init. destruct f; simpl.
  - destruct (float_sq m) as [y |] eqn:Ey; simpl; [discriminate |].
    intros [= <-]. apply float_sq_Raise in Ey as [-> Hle]. auto.
  - destruct (float_sq c) as [y |] eqn:Ey; simpl; [discriminate |].
    intros [= <-]. apply float_sq_Raise in Ey as [-> Hle]. auto.
  - discriminate.
Qed.

Lemma init_fresh (m : Q) (d : list Q) (f : family) (c : Q) (q : Queue.t) :
  Queue.init m d f c = Ok q ->
  fresh q /\ Queue.p_out q = (1 - sum d)%Q /\ Queue.destination q = d /\
  Queue.number_of_nodes q = length d /\ Queue.distribution q = f.
Proof.
  intros Hq. apply queue_init_Ok in Hq as (mu & sigma & -> & _).
  unfold fresh. simpl. auto 15.
Qed.

Lemma wrapper_init_Ok (p : params) (s0 : state) :
  wrapper_init p = Ok s0 ->
  exists g0 : nat,
    Source.init (arrival_means p) (source_matrix p) (distribution p)
                (arrival_covs p) (arrival_rho p) 0%nat
      = Ok (source s0, rng s0) /\
    (forall k q, stations s0 !! k = Some q -> fresh q) /\
    events s0 = [(Source.time_next (source s0),
                  Some (Source.next_job (source s0)), NSource)] /\
    Source_time s0 = 0%Q /\ Queue_time s0 = 0%Q /\ curr s0 = 0%Q /\
    jobs s0 = 0%Z /\ g0 = rng s0.
Proof.
  unfold wrapper_init. intros Hrun.
  destruct (index (transition_matrix p) 0) as [row0 |]; simpl in Hrun;
    [| discriminate].
  destruct (Source.init _ _ _ _ _ 0%nat) as [[src g] |] eqn:Es;
    simpl in Hrun; [| discriminate].
  destruct (for_range_pure _ 0 (length row0)) as [sts |] eqn:Eq;
    simpl in Hrun; [| discriminate].
  injection Hrun as <-. simpl. exists g.
  split; [reflexivity |]. split; [| auto 10].
  intros k q Hq. apply for_range_pure_spec in Eq as [_ Hall].
  specialize (Hall k q Hq). simpl in Hall.
  destruct (index (service_means p) k); simpl in Hall; [| discriminate].
  destruct (index (transition_matrix p) k); simpl in Hall; [| discriminate].
  destruct (index (service_covs p) k); simpl in Hall; [| discriminate].
  apply init_fresh in Hall. tauto.
Qed.

Lemma fresh_station_ok (q : Queue.t) : fresh q -> station_ok q 0.
Proof.
  intros (Hi & Haj & Hjs & Harr & Hsv & Hdep & _ & _).
  constructor; rewrite ?Hi, ?Haj, ?Hjs, ?Harr, ?Hsv, ?Hdep; simpl;
    try lia; auto.
Qed.

Lemma run_accounting (p : params) (k : nat) (s : state) :
  run p k = Ok s -> accounting (stations s) (events s).
Proof.
  revert k s. apply (run_ind p).
  - intros s0 Hinit. apply wrapper_init_Ok in Hinit
      as (g0 & _ & Hfresh & Hev & _).
    intros i q Hq. rewrite Hev. simpl. apply fresh_station_ok.
    eapply Hfresh. exact Hq.
  - intros j s s' _ Hacc Hit. eapply iteration_accounting; eauto.
Qed.
(** In a run no station records more service times than arrivals, nor
    fewer than departures. *)
Lemma run_services_le_arrivals (p : params) (k : nat) (s : state) (i : nat)
    (q : Queue.t) :
  run p k = Ok s -> stations s !! i = Some q ->
  (length (Queue.departure_times q) <= length (Queue.service_times q))%nat /\
  (length (Queue.service_times q) <= length (Queue.arrival_times q))%nat.
Proof.
  intros Hrun Hq. apply run_accounting in Hrun.
  destruct (Hrun i q Hq) as [Hb Hn _ _ Hsb Hsi _ _ _].
  destruct (Z.eq_dec (Queue.in_system q) 0%Z) as [E | E].
  - rewrite (Hsi E). lia.
  - rewrite Hsb by lia. lia.
Qed.
End Runs.

(** ** The accounting of a run *)

(** C8. After any number of passes through the loop of a run, and also
    between the two operations of the next pass (after the popped node's
    [action_out], before the delivery of the job), every station's
    [in_system] equals the number of arrivals it has recorded minus the
    number of departures it has recorded, and is not negative. *)
Theorem in_system_balance `{Numpy} (p : params) (k : nat) (s : state) :
  run p k = Ok s ->
  (forall i q, stations s !! i = Some q -> balanced q) /\
  (forall t job nd rest src1 sts1 evs1 dest g1 i q,
     heappop event_lt (events s) = Ok ((t, job, nd), rest) ->
     dispatch s t nd rest = Ok (src1, sts1, evs1, dest, g1) ->
     sts1 !! i = Some q -> balanced q).
Proof.
  intros Hrun. apply run_accounting in Hrun. split.
  - intros i q Hq. destruct (Hrun i q Hq) as [Hb Hn _ _ _ _ _ _ _].
    split; assumption.
  - intros t job nd rest src1 sts1 evs1 dest g1 i q Hpop Hdisp Hq.
    apply heappop_Permutation in Hpop.
    assert (Hacc : accounting (stations s) ((t, job, nd) :: rest)).
    { intros i' q' Hq'. rewrite <- (pending_Permutation _ _ _ Hpop).
      apply Hrun. exact Hq'. }
    pose proof (dispatch_accounting _ _ _ _ _ _ _ _ _ _ Hacc Hdisp) as Hmid.
    destruct (Hmid i q Hq) as [Hb Hn _ _ _ _ _ _ _]. split; assumption.
Qed.

Lemma in_system_balance_witness :
  @run tandem_numpy tandem 12 = Ok tandem_state /\
  stations tandem_state !! 0%nat = Some tandem_station /\
  balanced tandem_station.
Proof.
  assert (Hrun : @run tandem_numpy tandem 12 = Ok tandem_state)
    by (vm_compute; reflexivity).
  assert (Hq : stations tandem_state !! 0%nat = Some tandem_station)
    by (vm_compute; reflexivity).
  split; [exact Hrun |]. split; [exact Hq |].
  destruct (@in_system_balance tandem_numpy tandem 12 tandem_state Hrun)
    as [Hall _].
  exact (Hall 0%nat tandem_station Hq).
Defined.

Lemma lindley_recursion_exact_witness :
  stations tandem_state !! 0%nat = Some tandem_station /\
  (exists ex : extracted,
     extractor tandem_state 0 = Ok ex /\
     length (waiting_times ex) = length (Queue.service_times tandem_station) /\
     Forall (fun x => (0 <= x)%Q) (waiting_times ex)).
Proof.
  assert (Hq : stations tandem_state !! 0%nat = Some tandem_station)
    by (vm_compute; reflexivity).
  split; [exact Hq |].
  destruct (lindley_recursion_exact tandem_state 0 tandem_station Hq)
    as [Hspec Htotal].
  destruct Htotal as [ex Hex]; [vm_compute; lia |].
  exists ex. split; [exact Hex |].
  destruct (Hspec ex Hex) as (Hs & _ & Hl & _ & _ & Hpos).
  rewrite Hl, Hs. auto.
Defined.

(** ** The operation of the source *)

Section SourceOperation.
Context `{Numpy}.

Lemma source_action_out_Ok (t : Q) (self self' : Source.t) (g g' : nat) :
  Source.action_out t self g = Ok (self', g') ->
  Source.next_job self' = (Source.next_job self + 1)%Z /\
  Source.source_matrix self' = Source.source_matrix self /\
  Source.number_of_nodes self' = Source.number_of_nodes self /\
  Source.distribution self' = Source.distribution self /\
  Source.mu self' = Source.mu self /\
  Source.sigma self' = Source.sigma self /\
  Source.rho self' = Source.rho self /\
  exists (inc : Q) (least : Q * nat) (popped : list (Q * nat)),
    increment_of self g inc /\
    heappop arrival_lt (Source.next_arrival self) = Ok (least, popped) /\
    Source.next_arrival self'
      = popped ++ [((t + inc)%Q, Source.next_source self)] /\
    heap_top arrival_lt (Source.next_arrival self')
      = Ok (Source.time_next self', Source.next_source self').
Proof.
  unfold Source.action_out, bind, lift, ret, bound. intros Hrun.
  destruct (Source.distribution self) eqn:Edist.
  - (* Exponential *)
    destruct (index (Source.mu self) (Source.next_source self)) as [m |]
      eqn:Em; try discriminate Hrun.
    unfold np_random_exponential in Hrun.
    destruct (Qlt_bool m 0) eqn:Eneg; try discriminate Hrun.
    destruct (heappop arrival_lt (Source.next_arrival self))
      as [[least popped] |] eqn:Epop; try discriminate Hrun.
    destruct (heap_top arrival_lt _) as [[tn ns] |] eqn:Etop;
      try discriminate Hrun.
    destruct (index (Source.source_matrix self) ns) as [row |];
      try discriminate Hrun.
    destruct (np_random_choice _ row _) as [[d g2] |];
      try discriminate Hrun.
    injection Hrun as <- <-. simpl.
    repeat (split; [reflexivity |]).
    exists (m * standard_exponential g)%Q, least, popped.
    repeat split; auto.
    left. split; [exact Edist |]. exists m.
    apply index_Ok in Em. apply Qlt_bool_false in Eneg. auto.
  - (* Lognormal *)
    destruct (index (Source.previous_arrival self) (Source.next_source self))
      as [lastn |]; try discriminate Hrun.
    unfold np_random_normal in Hrun. simpl in Hrun.
    destruct (index (Source.sigma self) (Source.next_source self)) as [sg |];
      try discriminate Hrun.
    destruct (index (Source.mu self) (Source.next_source self)) as [m |];
      try discriminate Hrun.
    destruct (heappop arrival_lt (Source.next_arrival self))
      as [[least popped] |] eqn:Epop; try discriminate Hrun.
    destruct (heap_top arrival_lt _) as [[tn ns] |] eqn:Etop;
      try discriminate Hrun.
    destruct (index (Source.source_matrix self) ns) as [row |];
      try discriminate Hrun.
    destruct (np_random_choice _ row _) as [[d g2] |];
      try discriminate Hrun.
    injection Hrun as <- <-. simpl.
    repeat (split; [reflexivity |]).
    eexists _, least, popped.
    repeat split; eauto.
    right. split; [exact Edist |]. eauto.
  - (* unsupported name *)
    destruct (heappop arrival_lt (Source.next_arrival self))
      as [[least popped] |]; discriminate Hrun.
Qed.
End SourceOperation.

(** ** Job ids in the heap *)

Lemma job_below_mono (N N' : Z) (x : option Z) :
  (N <= N')%Z -> job_below N x -> job_below N' x.
Proof. intros Hle (z & -> & Hz). exists z. split; [reflexivity | lia]. Qed.

Section JobIds.
Context `{Numpy}.

Lemma dispatch_jobs_ok (s : state) (t : Q) (job : option Z) (nd : node)
    (evs0 evs1 : list event) (src1 : Source.t) (sts1 : list Queue.t)
    (dest : option nat) (g1 : nat) :
  jobs_ok (Source.next_job (source s)) (stations s) ((t, job, nd) :: evs0) ->
  dispatch s t nd evs0 = Ok (src1, sts1, evs1, dest, g1) ->
  jobs_ok (Source.next_job src1) sts1 evs1 /\
  job_below (Source.next_job src1) job.
Proof.
  intros [Hone Hsrc Hst Hw] Hd.
  apply dispatch_Ok in Hd
    as [(-> & Hout & -> & -> & _)
       | (k0 & q0 & q1 & -> & Hq0 & Hout & -> & -> & -> & _)].
  - apply source_action_out_Ok in Hout as (Hnj & _).
    simpl in Hone. unfold ev_node in Hone. simpl in Hone.
    assert (Hp0 : pending NSource evs0 = 0%nat) by lia.
    assert (Hjob : job = Some (Source.next_job (source s))).
    { apply (Hsrc (t, job, NSource)); [left | reflexivity]. }
    split.
    + constructor.
      * rewrite pending_schedule, Hp0. simpl.
        destruct (negb (Qeq_bool (Source.time_next src1) 0)); lia.
      * intros e He Hnode. apply elem_of_schedule in He
          as [He | (t' & _ & _ & ->)]; [| reflexivity].
        exfalso. eapply pending_zero in Hp0; eauto.
      * intros e k He Hnode. apply elem_of_schedule in He
          as [He | (t' & _ & _ & ->)]; [| discriminate Hnode].
        eapply job_below_mono; [| eapply Hst; [right |]; eauto]. lia.
      * intros k q x Hq Hx.
        eapply job_below_mono; [| eapply Hw; eauto]. lia.
    + exists (Source.next_job (source s)). split; [exact Hjob | lia].
  - assert (Hjob : job_below (Source.next_job (source s)) job).
    { apply (Hst (t, job, NStation k0) k0); [left | reflexivity]. }
    split; [| exact Hjob].
    apply action_out_Ok in Hout as (_ & _ & _ & _ & _ & _ & Hcase).
    assert (Hsub : forall x, x ∈ Queue.jobs_in_system q1 ->
                             x ∈ Queue.jobs_in_system q0).
    { destruct Hcase as [(_ & _ & -> & _) | (_ & sv & g' & _ & -> & _)];
        [auto | intros x Hx; right; exact Hx]. }
    constructor.
    + rewrite pending_schedule. simpl in *. unfold ev_node in Hone.
      simpl in Hone. lia.
    + intros e He Hnode. apply elem_of_schedule in He
        as [He | (t' & _ & _ & ->)]; [| discriminate Hnode].
      apply Hsrc; [right; exact He | exact Hnode].
    + intros e k He Hnode. apply elem_of_schedule in He
        as [He | (t' & Htn & _ & ->)].
      * eapply Hst; [right |]; eauto.
      * unfold ev_job. simpl.
        destruct Hcase as [(_ & Hnone & _) | (_ & sv & g' & _ & Hjs & _)];
          [congruence |].
        eapply Hw; [exact Hq0 |]. rewrite Hjs. left.
    + intros k q x Hq Hx. apply list_lookup_insert_Some in Hq
        as [(<- & <- & _) | (_ & Hq)].
      * eapply Hw; [exact Hq0 | apply Hsub; exact Hx].
      * eapply Hw; eauto.
Qed.

Lemma deliver_jobs_ok (N : Z) (n : nat) (t : Q) (job : option Z)
    (sts sts2 : list Queue.t) (evs evs2 : list event) (dest : option nat)
    (g g2 : nat) :
  jobs_ok N sts evs -> job_below N job ->
  deliver n t job sts evs dest g = Ok (sts2, evs2, g2) ->
  jobs_ok N sts2 evs2.
Proof.
  intros [Hone Hsrc Hst Hw] Hjob Hd.
  apply deliver_Ok in Hd
    as (d & -> & [(_ & -> & -> & _)
                 | (_ & q0 & q2 & Hq0 & Hin & -> & ->)]);
    [constructor; assumption |].
  apply action_in_Ok in Hin as (_ & _ & _ & _ & _ & _ & Hcase).
  assert (Hall : forall x, x ∈ Queue.next_job q2 :: Queue.jobs_in_system q2 ->
                           Queue.time_next q2 <> None \/
                           x ∈ Queue.jobs_in_system q2 ->
                           job_below N x).
  { intros x Hx Hor.
    destruct Hcase as [(_ & Hnone & Hjs & _) | (_ & sv & _ & Hjs & _)].
    - destruct Hor as [Hor | Hor]; [congruence |].
      rewrite Hjs in Hor. apply elem_of_app in Hor as [Hor | Hor].
      + eapply Hw; eauto.
      + apply list_elem_of_singleton in Hor as ->. exact Hjob.
    - rewrite <- Hjs in Hx. apply elem_of_app in Hx as [Hx | Hx].
      + eapply Hw; eauto.
      + apply list_elem_of_singleton in Hx as ->. exact Hjob. }
  constructor.
  - rewrite pending_schedule. simpl. lia.
  - intros e He Hnode. apply elem_of_schedule in He
      as [He | (t' & _ & _ & ->)]; [| discriminate Hnode].
    apply Hsrc; assumption.
  - intros e k He Hnode. apply elem_of_schedule in He
      as [He | (t' & Htn & _ & ->)].
    + eapply Hst; eauto.
    + unfold ev_job. simpl. apply Hall; [left | left; congruence].
  - intros k q x Hq Hx. apply list_lookup_insert_Some in Hq
      as [(<- & <- & _) | (_ & Hq)].
    + apply Hall; [right; exact Hx | right; exact Hx].
    + eapply Hw; eauto.
Qed.

Lemma iteration_jobs_ok (s s' : state) :
  jobs_ok (Source.next_job (source s)) (stations s) (events s) ->
  iteration s = Ok s' ->
  jobs_ok (Source.next_job (source s')) (stations s') (events s').
Proof.
  intros Hok Hit.
  apply iteration_Ok in Hit
    as (t & job & nd & evs0 & evs1 & sts1 & dest & g1
        & Hpop & Hdisp & Hdel & _).
  apply heappop_Permutation in Hpop.
  assert (Hok0 : jobs_ok (Source.next_job (source s)) (stations s)
                         ((t, job, nd) :: evs0)).
  { destruct Hok as [Hone Hsrc Hst Hw]. constructor.
    - rewrite <- (pending_Permutation _ _ _ Hpop). exact Hone.
    - intros e He. apply Hsrc. rewrite Hpop. exact He.
    - intros e k He. apply Hst. rewrite Hpop. exact He.
    - exact Hw. }
  destruct (dispatch_jobs_ok _ _ _ _ _ _ _ _ _ _ Hok0 Hdisp) as [Hok1 Hjob].
  eapply deliver_jobs_ok; eauto.
Qed.

Lemma run_jobs_ok (p : params) (k : nat) (s : state) :
  run p k = Ok s ->
  jobs_ok (Source.next_job (source s)) (stations s) (events s).
Proof.
  revert k s. apply (run_ind p).
  - intros s0 Hinit. apply wrapper_init_Ok in Hinit
      as (g0 & _ & Hfresh & Hev & _).
    rewrite Hev. constructor.
    + simpl. lia.
    + intros e He _. apply list_elem_of_singleton in He as ->. reflexivity.
    + intros e i He Hnode. apply list_elem_of_singleton in He as ->.
      discriminate Hnode.
    + intros i q x Hq Hx. apply Hfresh in Hq as (_ & _ & Hjs & _).
      rewrite Hjs in Hx. inversion Hx.
  - intros j s s' _ Hok Hit. eapply iteration_jobs_ok; eauto.
Qed.
End JobIds.






(** ** The clock *)

Lemma heap_top_least {A} (lt : A -> A -> result bool) (R : A -> A -> Prop)
    (h : list A) (m : A) :
  (forall a, R a a) ->
  (forall a b c, R a b -> R b c -> R a c) ->
  (forall a b, lt a b = Ok true -> R a b) ->
  (forall a b, lt a b = Ok false -> R b a) ->
  heap_top lt h = Ok m ->
  m ∈ h /\ forall x, x ∈ h -> R m x.
Proof.
  intros Hrefl Htrans Ht Hf. unfold heap_top. intros Htop.
  destruct (heappop lt h) as [[m' r] |] eqn:Ep; simpl in Htop;
    [| discriminate].
  injection Htop as ->.
  pose proof (heappop_least lt R Hrefl Htrans Ht Hf _ _ _ Ep) as Hall.
  split.
  - apply (heappop_elem lt _ _ _ m Ep). left. reflexivity.
  - intros x Hx. apply (heappop_elem lt _ _ _ x Ep) in Hx as [-> | Hx].
    + apply Hrefl.
    + rewrite Forall_forall in Hall. apply Hall. exact Hx.
Qed.

Lemma arrival_top_least (h : list (Q * nat)) (m : Q * nat) :
  heap_top arrival_lt h = Ok m ->
  m ∈ h /\ forall x, x ∈ h -> (m.1 <= x.1)%Q.
Proof.
  apply (heap_top_least arrival_lt arrival_le); unfold arrival_le.
  - intros a. lra.
  - intros a b c. lra.
  - apply arrival_lt_true.
  - apply arrival_lt_false.
Qed.

Lemma event_pop_least (h r : list event) (e : event) :
  heappop event_lt h = Ok (e, r) ->
  forall x, x ∈ r -> (ev_time e <= ev_time x)%Q.
Proof.
  intros Hp.
  assert (Hall : Forall (event_le e) r).
  { apply (heappop_least event_lt event_le) with (h := h);
      unfold event_le; auto.
    - intros a. lra.
    - intros a b c. lra.
    - apply event_lt_true.
    - apply event_lt_false. }
  rewrite Forall_forall in Hall. exact Hall.
Qed.

Section Clock.
Context `{Numpy}.

Lemma draw_service_nonneg (q : Queue.t) (g g' : nat) (sv : Q) :
  nonneg_increments ->
  Queue.draw_service q g = Ok (Some sv, g') -> (0 <= sv)%Q.
Proof.
  intros [Hexp Hpos]. unfold Queue.draw_service, bind, ret.
  destruct (Queue.distribution q).
  - unfold np_random_exponential.
    destruct (Qlt_bool (Queue.mu q) 0) eqn:E; [discriminate |].
    apply Qlt_bool_false in E. intros [= <- _].
    apply Qmult_le_0_compat; [exact E | apply Hexp].
  - unfold np_random_lognormal.
    destruct (Qlt_bool (Queue.sigma q) 0); [discriminate |].
    intros [= <- _]. apply Hpos.
  - discriminate.
Qed.

Lemma increment_nonneg (self : Source.t) (g : nat) (inc : Q) :
  nonneg_increments -> increment_of self g inc -> (0 <= inc)%Q.
Proof.
  intros [Hexp Hpos] [(_ & m & _ & Hm & ->) | (_ & x & ->)].
  - apply Qmult_le_0_compat; [exact Hm | apply Hexp].
  - apply Hpos.
Qed.

Lemma dispatch_clock_ok (s : state) (t : Q) (job : option Z) (nd : node)
    (evs0 evs1 : list event) (src1 : Source.t) (sts1 : list Queue.t)
    (dest : option nat) (g1 : nat) :
  nonneg_increments ->
  clock_ok t (source s) ((t, job, nd) :: evs0) ->
  dispatch s t nd evs0 = Ok (src1, sts1, evs1, dest, g1) ->
  clock_ok t src1 evs1.
Proof.
  intros Hnn [Hev Hsrc Hone] Hd.
  apply dispatch_Ok in Hd
    as [(-> & Hout & -> & -> & _)
       | (k0 & q0 & q1 & -> & Hq0 & Hout & -> & -> & -> & _)].
  - apply source_action_out_Ok in Hout
      as (_ & _ & _ & _ & _ & _ & _ & inc & least & popped
          & Hinc & Hpop & Hheap & Htop).
    apply increment_nonneg in Hinc; [| exact Hnn].
    simpl in Hone. unfold ev_node in Hone. simpl in Hone.
    assert (Hp0 : pending NSource evs0 = 0%nat) by lia.
    assert (Hold : forall a, a ∈ popped -> (t <= a.1)%Q).
    { intros a Ha.
      apply (Hsrc (t, job, NSource) a); [left | reflexivity |].
      apply (heappop_elem arrival_lt _ _ _ a Hpop). right. exact Ha. }
    assert (Hnew : forall a, a ∈ Source.next_arrival src1 -> (t <= a.1)%Q).
    { intros a Ha. rewrite Hheap in Ha.
      apply elem_of_app in Ha as [Ha | Ha]; [apply Hold; exact Ha |].
      apply list_elem_of_singleton in Ha as ->. simpl. lra. }
    apply arrival_top_least in Htop as [Hin Hleast]. simpl in Hleast.
    constructor.
    + intros e He. apply elem_of_schedule in He
        as [He | (t' & [= <-] & _ & ->)].
      * apply Hev. right. exact He.
      * unfold ev_time. simpl. apply (Hnew _ Hin).
    + intros e a He Hnode Ha. apply elem_of_schedule in He
        as [He | (t' & [= <-] & _ & ->)].
      * exfalso. eapply pending_zero in Hp0; eauto.
      * unfold ev_time. simpl. apply (Hleast a Ha).
    + rewrite pending_schedule, Hp0. simpl.
      destruct (negb (Qeq_bool (Source.time_next src1) 0)); lia.
  - apply action_out_Ok in Hout as (_ & _ & _ & _ & _ & _ & Hcase).
    constructor.
    + intros e He. apply elem_of_schedule in He
        as [He | (t' & Htn & _ & ->)].
      * apply Hev. right. exact He.
      * unfold ev_time. simpl.
        destruct Hcase as [(_ & Hnone & _) | (_ & sv & g' & Hdraw & _ & _ & _ & Htn')];
          [congruence |].
        apply draw_service_nonneg in Hdraw; [| exact Hnn].
        rewrite Htn' in Htn. injection Htn as <-. lra.
    + intros e a He Hnode Ha. apply elem_of_schedule in He
        as [He | (t' & _ & _ & ->)]; [| discriminate Hnode].
      apply (Hsrc e a); [right; exact He | exact Hnode | exact Ha].
    + rewrite pending_schedule. simpl in *. unfold ev_node in Hone.
      simpl in Hone. lia.
Qed.

Lemma deliver_clock_ok (src : Source.t) (n : nat) (t : Q) (job : option Z)
    (sts sts2 : list Queue.t) (evs evs2 : list event) (dest : option nat)
    (g g2 : nat) :
  nonneg_increments ->
  clock_ok t src evs ->
  deliver n t job sts evs dest g = Ok (sts2, evs2, g2) ->
  clock_ok t src evs2.
Proof.
  intros Hnn [Hev Hsrc Hone] Hd.
  apply deliver_Ok in Hd
    as (d & -> & [(_ & -> & -> & _)
                 | (_ & q0 & q2 & Hq0 & Hin & -> & ->)]);
    [constructor; assumption |].
  apply action_in_Ok in Hin as (_ & _ & _ & _ & _ & _ & Hcase).
  constructor.
  - intros e He. apply elem_of_schedule in He
      as [He | (t' & Htn & _ & ->)]; [apply Hev; exact He |].
    unfold ev_time. simpl.
    destruct Hcase as [(_ & Hnone & _) | (_ & sv & Hdraw & _ & _ & _ & Htn')];
      [congruence |].
    apply draw_service_nonneg in Hdraw; [| exact Hnn].
    rewrite Htn' in Htn. injection Htn as <-. lra.
  - intros e a He Hnode Ha. apply elem_of_schedule in He
      as [He | (t' & _ & _ & ->)]; [| discriminate Hnode].
    apply (Hsrc e a); assumption.
  - rewrite pending_schedule. simpl. lia.
Qed.

Lemma iteration_clock_ok (s s' : state) :
  nonneg_increments ->
  clock_ok (curr s) (source s) (events s) ->
  iteration s = Ok s' ->
  (curr s <= curr s')%Q /\ clock_ok (curr s') (source s') (events s').
Proof.
  intros Hnn Hok Hit.
  apply iteration_Ok in Hit
    as (t & job & nd & evs0 & evs1 & sts1 & dest & g1
        & Hpop & Hdisp & Hdel & _ & _ & Hcurr & _).
  pose proof (event_pop_least _ _ _ Hpop) as Hleast.
  pose proof (heappop_Permutation _ _ _ _ Hpop) as Hperm.
  destruct Hok as [Hev Hsrc Hone].
  assert (Hle : (curr s <= t)%Q).
  { apply (Hev (t, job, nd)). rewrite Hperm. left. }
  rewrite Hcurr. split; [exact Hle |].
  eapply deliver_clock_ok; [exact Hnn | | exact Hdel].
  eapply dispatch_clock_ok; [exact Hnn | | exact Hdisp].
  constructor.
  - intros e He. apply elem_of_cons in He as [-> | He].
    + unfold ev_time. simpl. lra.
    + apply (Hleast e He).
  - intros e a He. apply Hsrc. rewrite Hperm. exact He.
  - rewrite <- (pending_Permutation _ _ _ Hperm). exact Hone.
Qed.
End Clock.

Section ClockOfRuns.
Context `{Numpy}.

Lemma for_range_Forall {A} (f : nat -> M A) (P : A -> Prop) :
  (forall i g x g', f i g = Ok (x, g') -> P x) ->
  forall (n i g : nat) (l : list A) (g' : nat),
    for_range f i n g = Ok (l, g') -> Forall P l.
Proof.
  intros Hf. induction n as [| n IH]; intros i g l g' Hrun; simpl in Hrun.
  - unfold ret in Hrun. injection Hrun as <- _. constructor.
  - unfold bind, ret in Hrun.
    destruct (f i g) as [[x g1] |] eqn:Ef; [| discriminate].
    destruct (for_range f (S i) n g1) as [[l' g2] |] eqn:El; [| discriminate].
    injection Hrun as <- _. constructor; eauto.
Qed.

Lemma source_init_Ok (am : list Q) (sm : list (list Q)) (d : family)
    (covs : list Q) (r : Q) (g g' : nat) (src : Source.t) :
  Source.init am sm d covs r g = Ok (src, g') ->
  Source.next_job src = 0%Z /\
  heap_top arrival_lt (Source.next_arrival src)
    = Ok (Source.time_next src, Source.next_source src) /\
  (nonneg_increments ->
   forall a, a ∈ Source.next_arrival src -> (0 <= a.1)%Q).
Proof.
  unfold Source.init, bind, lift, ret. intros Hrun.
  destruct (index sm 0) as [row0 |]; [| discriminate].
  destruct d.
  - (* Exponential *)
    destruct (for_each float_sq am) as [sgs |]; [| discriminate].
    destruct (for_range _ 0 (length am) g) as [[heap g1] |] eqn:Eh;
      [| discriminate].
    destruct (heap_top arrival_lt heap) as [[tn ns] |] eqn:Et;
      [| discriminate].
    destruct (index sm ns) as [row |]; [| discriminate].
    destruct (np_random_choice _ row g1) as [[dst g2] |]; [| discriminate].
    injection Hrun as <- _. simpl.
    split; [reflexivity |]. split; [exact Et |].
    intros [Hexp _] a Ha.
    apply for_range_Forall with (P := fun a : Q * nat => (0 <= a.1)%Q) in Eh.
    + rewrite Forall_forall in Eh. apply Eh. exact Ha.
    + intros i g0 x g0'. unfold bind, lift, ret.
      destruct (index am i) as [m |]; [| discriminate].
      unfold np_random_exponential.
      destruct (Qlt_bool m 0) eqn:E; [discriminate |].
      apply Qlt_bool_false in E. intros [= <- _]. simpl.
      apply Qmult_le_0_compat; [exact E | apply Hexp].
  - (* Lognormal *)
    destruct (for_each _ covs) as [sgs |]; [| discriminate].
    destruct (for_range_pure _ 0 (length am)) as [mus |]; [| discriminate].
    destruct (for_range _ 0 (length am) g) as [[heap g1] |] eqn:Eh;
      [| discriminate].
    destruct (for_range_pure _ 0 (length am)) as [prev |]; [| discriminate].
    destruct (heap_top arrival_lt heap) as [[tn ns] |] eqn:Et;
      [| discriminate].
    destruct (index sm ns) as [row |]; [| discriminate].
    destruct (np_random_choice _ row g1) as [[dst g2] |]; [| discriminate].
    injection Hrun as <- _. simpl.
    split; [reflexivity |]. split; [exact Et |].
    intros [_ Hpos] a Ha.
    apply for_range_Forall with (P := fun a : Q * nat => (0 <= a.1)%Q) in Eh.
    + rewrite Forall_forall in Eh. apply Eh. exact Ha.
    + intros i g0 x g0'. unfold bind, lift, ret.
      destruct (index mus i) as [m |]; [| discriminate].
      destruct (index _ i) as [sg |]; [| discriminate].
      unfold np_random_lognormal.
      destruct (Qlt_bool sg 0); [discriminate |].
      intros [= <- _]. simpl. apply Hpos.
  - discriminate.
Qed.

Lemma run_clock_ok (p : params) (k : nat) (s : state) :
  nonneg_increments ->
  run p k = Ok s ->
  clock_ok (curr s) (source s) (events s) /\
  Source_time s = curr s /\ Queue_time s = curr s.
Proof.
  intros Hnn. revert k s. apply (run_ind p).
  - intros s0 Hinit. apply wrapper_init_Ok in Hinit
      as (g0 & Hsrc & _ & Hev & Hst & Hqt & Hcurr & _).
    apply source_init_Ok in Hsrc as (_ & Htop & Hpos).
    apply arrival_top_least in Htop as [Hin Hleast]. simpl in Hleast.
    rewrite Hev, Hst, Hqt, Hcurr. split; [| auto].
    constructor.
    + intros e He. apply list_elem_of_singleton in He as ->.
      unfold ev_time. simpl. apply (Hpos Hnn _ Hin).
    + intros e a He _ Ha. apply list_elem_of_singleton in He as ->.
      unfold ev_time. simpl. apply Hleast. exact Ha.
    + simpl. lia.
  - intros j s s' _ [Hok _] Hit.
    pose proof (iteration_clock_ok s s' Hnn Hok Hit) as [_ Hok'].
    split; [exact Hok' |].
    apply iteration_Ok in Hit
      as (t & job & nd & evs0 & evs1 & sts1 & dest & g1
          & _ & _ & _ & Hst & Hqt & Hcurr & _).
    rewrite Hst, Hqt, Hcurr. auto.
Qed.

(** C7. In a run whose sampled interarrival and service increments are all
    non-negative, each pass sets the clock ([curr], [Source.time] and
    [Queue.time] alike) to the time of the entry it pops, and the clock of a
    later pass is never before the clock of an earlier one: the popped times
    are nondecreasing. *)
Theorem clock_never_decreases (p : params) (j k : nat) (a b : state) :
  nonneg_increments ->
  run p j = Ok a -> run p k = Ok b -> (j <= k)%nat ->
  (curr a <= curr b)%Q /\
  Source_time b = curr b /\ Queue_time b = curr b /\
  forall b' : state, iteration b = Ok b' ->
    exists (job : option Z) (nd : node) (rest : list event),
      heappop event_lt (events b) = Ok ((curr b', job, nd), rest) /\
      (curr b <= curr b')%Q.
Proof.
  intros Hnn Ha Hb Hjk.
  destruct (run_clock_ok p k b Hnn Hb) as (Hok & Hst & Hqt).
  split; [| split; [exact Hst | split; [exact Hqt |]]].
  - replace k with (j + (k - j))%nat in Hb by lia.
    remember (k - j)%nat as d eqn:Hd. clear Hd Hjk Hok Hst Hqt.
    revert b Hb. induction d as [| d IH]; intros b Hb.
    + rewrite Nat.add_0_r in Hb. rewrite Ha in Hb. injection Hb as <-. lra.
    + replace (j + S d)%nat with (S (j + d)) in Hb by lia.
      apply run_S in Hb as (m & Hm & Hit).
      specialize (IH m Hm).
      destruct (run_clock_ok p _ m Hnn Hm) as (Hok & _).
      destruct (iteration_clock_ok m b Hnn Hok Hit) as [Hle _]. lra.
  - intros b' Hit.
    destruct (iteration_clock_ok b b' Hnn Hok Hit) as [Hle _].
    apply iteration_Ok in Hit
      as (t & job & nd & evs0 & evs1 & sts1 & dest & g1
          & Hpop & _ & _ & _ & _ & Hcurr & _).
    exists job, nd, evs0. rewrite Hcurr in Hle |- *. auto.
Qed.
End ClockOfRuns.

Lemma tandem_nonneg_increments : @nonneg_increments tandem_numpy.
Proof.
  split.
  - intros g.
    change (0 <= 1 + inject_Z (Z.of_nat (g mod 3)) / 2)%Q.
    set (z := Z.of_nat (g mod 3)).
    assert (0 <= inject_Z z)%Q.
    { change 0%Q with (inject_Z 0). rewrite <- Zle_Qle. lia. }
    assert (0 <= inject_Z z / 2)%Q by (apply Qle_shift_div_l; lra).
    lra.
  - intros x. change (0 <= 1 + x + x * x / 2)%Q.
    assert (Hs : (0 <= (x + 1) * (x + 1))%Q).
    { destruct (Qlt_le_dec (x + 1) 0) as [L | L].
      - assert (E0 : ((x + 1) * (x + 1) == (- (x + 1)) * (- (x + 1)))%Q)
          by ring.
        rewrite E0. apply Qmult_le_0_compat; lra.
      - apply Qmult_le_0_compat; lra. }
    assert (E : (1 + x + x * x / 2 == ((x + 1) * (x + 1) + 1) / 2)%Q)
      by field.
    rewrite E. apply Qle_shift_div_l; lra.
Qed.

(** ** Departure entries when no time is zero *)

Section BusyStations.
Context `{Numpy}.

Lemma positive_is_truthy (t sv : Q) :
  (0 < t)%Q -> (0 <= sv)%Q -> truthy (Some (t + sv)%Q) = true.
Proof. intros Ht Hsv. apply truthy_Some. lra. Qed.

Lemma dispatch_busy_has_entry (s : state) (t : Q) (job : option Z)
    (nd : node) (evs0 evs1 : list event) (src1 : Source.t)
    (sts1 : list Queue.t) (dest : option nat) (g1 : nat) :
  nonneg_increments -> (0 < t)%Q ->
  accounting (stations s) ((t, job, nd) :: evs0) ->
  busy_has_entry (stations s) ((t, job, nd) :: evs0) ->
  dispatch s t nd evs0 = Ok (src1, sts1, evs1, dest, g1) ->
  busy_has_entry sts1 evs1.
Proof.
  intros Hnn Ht Hacc Hbusy Hd.
  apply dispatch_Ok in Hd
    as [(-> & _ & -> & -> & _)
       | (k0 & q0 & q1 & -> & Hq0 & Hout & _ & -> & -> & _)].
  - intros i q Hq Hin. specialize (Hbusy i q Hq Hin).
    rewrite pending_schedule. simpl in *. lia.
  - intros i q Hq Hin. apply list_lookup_insert_Some in Hq
      as [(<- & <- & _) | (Hne & Hq)].
    + destruct (Hacc k0 q0 Hq0) as [_ _ Hone _ _ _ _ _ _].
      simpl in Hone. unfold ev_node in Hone. simpl in Hone.
      rewrite Nat.eqb_refl in Hone.
      apply action_out_Ok in Hout as (_ & Hi & _ & _ & _ & _ & Hcase).
      destruct Hcase as [(Hz & _) | (_ & sv & g' & Hdraw & _ & _ & _ & Htn)];
        [lia |].
      apply draw_service_nonneg in Hdraw; [| exact Hnn].
      rewrite pending_schedule, node_eqb_refl, Htn.
      rewrite (positive_is_truthy t sv Ht Hdraw). lia.
    + specialize (Hbusy i q Hq Hin). simpl in Hbusy. unfold ev_node in Hbusy.
      simpl in Hbusy.
      replace (k0 =? i)%nat with false in Hbusy
        by (symmetry; apply Nat.eqb_neq; exact Hne).
      rewrite pending_schedule. simpl.
      replace (k0 =? i)%nat with false
        by (symmetry; apply Nat.eqb_neq; exact Hne).
      lia.
Qed.

Lemma deliver_busy_has_entry (n : nat) (t : Q) (job : option Z)
    (sts sts2 : list Queue.t) (evs evs2 : list event) (dest : option nat)
    (g g2 : nat) :
  nonneg_increments -> (0 < t)%Q ->
  accounting sts evs -> busy_has_entry sts evs ->
  deliver n t job sts evs dest g = Ok (sts2, evs2, g2) ->
  busy_has_entry sts2 evs2.
Proof.
  intros Hnn Ht Hacc Hbusy Hd.
  apply deliver_Ok in Hd
    as (d & -> & [(_ & -> & -> & _)
                 | (_ & q0 & q2 & Hq0 & Hin & -> & ->)]);
    [exact Hbusy |].
  intros i q Hq Hbq. apply list_lookup_insert_Some in Hq
    as [(<- & <- & _) | (Hne & Hq)].
  - destruct (Hacc d q0 Hq0) as [_ Hn Hone Hev _ _ _ _ _].
    apply action_in_Ok in Hin as (_ & Hi & _ & _ & _ & _ & Hcase).
    rewrite pending_schedule, node_eqb_refl.
    destruct Hcase as [(Hgt & Htn & _) | (Hle & sv & Hdraw & _ & _ & _ & Htn)].
    + rewrite Htn. simpl. rewrite Nat.add_0_r. apply (Hbusy d q0 Hq0). lia.
    + apply draw_service_nonneg in Hdraw; [| exact Hnn].
      rewrite Htn, (positive_is_truthy t sv Ht Hdraw).
      destruct (pending (NStation d) evs) as [| [| c]]; [reflexivity | | lia].
      specialize (Hev eq_refl). lia.
  - rewrite pending_schedule. simpl.
    replace (d =? i)%nat with false
      by (symmetry; apply Nat.eqb_neq; exact Hne).
    rewrite Nat.add_0_r. apply (Hbusy i q Hq Hbq).
Qed.

Lemma run_busy_has_entry (p : params) (s0 : state) (k : nat) (s : state) :
  nonneg_increments ->
  wrapper_init p = Ok s0 -> (0 < Source.time_next (source s0))%Q ->
  run p k = Ok s ->
  busy_has_entry (stations s) (events s) /\
  forall e, e ∈ events s -> (0 < ev_time e)%Q.
Proof.
  intros Hnn Hinit Hfirst. revert k s. apply (run_ind p).
  - intros s1 Hinit1. assert (s1 = s0) as -> by congruence.
    apply wrapper_init_Ok in Hinit
      as (g0 & _ & Hfresh & Hev & _).
    rewrite Hev. split.
    + intros i q Hq Hin. apply Hfresh in Hq as (Hi & _). lia.
    + intros e He. apply list_elem_of_singleton in He as ->. exact Hfirst.
  - intros j s s' Hrun [Hbusy Hpos] Hit.
    pose proof (run_accounting p j s Hrun) as Hacc.
    destruct (run_clock_ok p j s Hnn Hrun) as (Hok & _).
    destruct (iteration_clock_ok s s' Hnn Hok Hit) as [_ Hok'].
    apply iteration_Ok in Hit
      as (t & job & nd & evs0 & evs1 & sts1 & dest & g1
          & Hpop & Hdisp & Hdel & _ & _ & Hcurr & _).
    apply heappop_Permutation in Hpop.
    assert (Ht : (0 < t)%Q).
    { apply (Hpos (t, job, nd)). rewrite Hpop. left. }
    split.
    + assert (Hacc0 : accounting (stations s) ((t, job, nd) :: evs0)).
      { intros i q Hq. rewrite <- (pending_Permutation _ _ _ Hpop).
        apply Hacc. exact Hq. }
      assert (Hbusy0 : busy_has_entry (stations s) ((t, job, nd) :: evs0)).
      { intros i q Hq Hin. rewrite <- (pending_Permutation _ _ _ Hpop).
        apply (Hbusy i q Hq Hin). }
      eapply deliver_busy_has_entry; [exact Hnn | exact Ht | | | exact Hdel].
      * eapply dispatch_accounting; eauto.
      * eapply dispatch_busy_has_entry; eauto.
    + intros e He. destruct Hok' as [Hev _ _]. specialize (Hev e He).
      rewrite Hcurr in Hev. lra.
Qed.

(** In a run with non-negative increments whose first outside arrival is
    after time 0, a station has an entry in the heap exactly while it holds
    a job, and never more than one. *)
Lemma pending_departure_iff_busy (p : params) (s0 : state) (k : nat)
    (s : state) (i : nat) (q : Queue.t) :
  nonneg_increments ->
  wrapper_init p = Ok s0 -> (0 < Source.time_next (source s0))%Q ->
  run p k = Ok s -> stations s !! i = Some q ->
  (pending (NStation i) (events s) <= 1)%nat /\
  (pending (NStation i) (events s) = 1%nat <-> (1 <= Queue.in_system q)%Z).
Proof.
  intros Hnn Hinit Hfirst Hrun Hq.
  destruct (run_busy_has_entry p s0 k s Hnn Hinit Hfirst Hrun) as [Hbusy _].
  destruct (run_accounting p k s Hrun i q Hq) as [_ _ Hone Hev _ _ _ _ _].
  split; [exact Hone |]. split; [exact Hev | apply (Hbusy i q Hq)].
Qed.
End BusyStations.

(** ** The loop and its stopping condition *)

Lemma fold_min_spec (l : list Z) :
  forall x : Z,
    let m := fold_left Z.min l x in
    (m <= x)%Z /\ (forall y, y ∈ l -> (m <= y)%Z) /\ (m = x \/ m ∈ l).
Proof.
  induction l as [| a l IH]; intros x; simpl.
  - split; [lia |]. split; [intros y Hy; inversion Hy | auto].
  - destruct (IH (Z.min x a)) as (Hle & Hall & Hin).
    split; [lia |]. split.
    + intros y Hy. apply elem_of_cons in Hy as [-> | Hy]; [lia | auto].
    + destruct Hin as [Hin | Hin].
      * destruct (Z.min_spec x a) as [[_ E] | [_ E]].
        -- left. rewrite Hin. exact E.
        -- right. rewrite Hin, E. left.
      * right. right. exact Hin.
Qed.

Lemma py_min_spec (l : list Z) (m : Z) :
  py_min l = Ok m -> m ∈ l /\ forall y, y ∈ l -> (m <= y)%Z.
Proof.
  destruct l as [| x l]; simpl; [discriminate |]. intros [= <-].
  destruct (fold_min_spec l x) as (Hle & Hall & Hin). split.
  - destruct Hin as [-> | Hin]; [left | right; exact Hin].
  - intros y Hy. apply elem_of_cons in Hy as [-> | Hy]; auto.
Qed.

Section Loop.
Context `{Numpy}.

Lemma loop_spec (final : Z) (fuel : nat) :
  forall s s' : state,
    loop fuel final s = Some (Ok s') <->
    exists k : nat,
      (k <= fuel)%nat /\ iterations k s = Ok s' /\ (final <= jobs s')%Z /\
      forall (j : nat) (sj : state),
        (j < k)%nat -> iterations j s = Ok sj -> (jobs sj < final)%Z.
Proof.
  induction fuel as [| fuel IH]; intros s s'.
  - simpl. destruct (Z.ltb_spec (jobs s) final) as [Hlt | Hge].
    + split; [discriminate |].
      intros (k & Hk & Hit & Hstop & _).
      assert (k = 0%nat) as -> by lia. simpl in Hit.
      injection Hit as <-. lia.
    + split.
      * intros [= <-]. exists 0%nat. repeat split; auto. intros; lia.
      * intros (k & Hk & Hit & _). assert (k = 0%nat) as -> by lia.
        simpl in Hit. congruence.
  - simpl. destruct (Z.ltb_spec (jobs s) final) as [Hlt | Hge].
    + destruct (iteration s) as [s1 |] eqn:Es1.
      * rewrite IH. split.
        -- intros (k & Hk & Hit & Hstop & Hbelow).
           exists (S k). split; [lia |]. split.
           { rewrite iterations_S_front, Es1. exact Hit. }
           split; [exact Hstop |].
           intros [| j] sj Hj Hsj.
           ++ simpl in Hsj. injection Hsj as <-. exact Hlt.
           ++ rewrite iterations_S_front, Es1 in Hsj.
              apply (Hbelow j); [lia | exact Hsj].
        -- intros (k & Hk & Hit & Hstop & Hbelow).
           destruct k as [| k].
           { simpl in Hit. injection Hit as <-. lia. }
           rewrite iterations_S_front, Es1 in Hit. simpl in Hit.
           exists k. split; [lia |]. split; [exact Hit |].
           split; [exact Hstop |].
           intros j sj Hj Hsj. apply (Hbelow (S j)); [lia |].
           rewrite iterations_S_front, Es1. exact Hsj.
      * split; [discriminate |].
        intros (k & Hk & Hit & Hstop & Hbelow).
        destruct k as [| k].
        -- simpl in Hit. injection Hit as <-. lia.
        -- rewrite iterations_S_front, Es1 in Hit. discriminate Hit.
    + split.
      * intros [= <-]. exists 0%nat. split; [lia |]. split; [reflexivity |].
        split; [exact Hge |]. intros; lia.
      * intros (k & Hk & Hit & _ & Hbelow).
        destruct k as [| k]; [simpl in Hit; congruence |].
        specialize (Hbelow 0%nat s). simpl in Hbelow.
        specialize (Hbelow ltac:(lia) eq_refl). lia.
Qed.

(** A pass only appends to the departure history of a station. *)
Lemma iteration_history (s s' : state) (i : nat) (q : Queue.t) :
  iteration s = Ok s' ->
  stations s !! i = Some q ->
  exists q' : Queue.t,
    stations s' !! i = Some q' /\
    Queue.departure_times q `prefix_of` Queue.departure_times q'.
Proof.
  intros Hit Hq.
  apply iteration_Ok in Hit
    as (t & job & nd & evs0 & evs1 & sts1 & dest & g1
        & _ & Hdisp & Hdel & _).
  assert (H1 : exists q1, sts1 !! i = Some q1 /\
                 Queue.departure_times q `prefix_of` Queue.departure_times q1).
  { apply dispatch_Ok in Hdisp
      as [(_ & _ & -> & _)
         | (k0 & q0 & q1 & _ & Hq0 & Hout & _ & -> & _)].
    - exists q. split; [exact Hq | reflexivity].
    - destruct (decide (k0 = i)) as [-> | Hne].
      + exists q1. split.
        * apply list_lookup_insert_eq. eapply lookup_lt_Some; eauto.
        * apply action_out_Ok in Hout as (_ & _ & _ & _ & Hdep & _).
          rewrite Hdep. replace q0 with q by congruence.
          apply prefix_app_r. reflexivity.
      + exists q. split; [| reflexivity].
        rewrite list_lookup_insert_ne by exact Hne. exact Hq. }
  destruct H1 as (q1 & Hq1 & Hpre).
  apply deliver_Ok in Hdel
    as (d & _ & [(_ & <- & _)
                | (_ & q0 & q2 & Hq0 & Hin & -> & _)]).
  - exists q1. auto.
  - destruct (decide (d = i)) as [-> | Hne].
    + exists q2. split.
      * apply list_lookup_insert_eq. eapply lookup_lt_Some; eauto.
      * apply action_in_Ok in Hin as (_ & _ & _ & _ & Hdep & _).
        rewrite Hdep. replace q0 with q1 by congruence. exact Hpre.
    + exists q1. split; [| exact Hpre].
      rewrite list_lookup_insert_ne by exact Hne. exact Hq1.
Qed.

(** The loop counter is the least number of departures over the stations. *)
Lemma run_jobs_counter (p : params) (s0 : state) (k : nat) (s : state) :
  wrapper_init p = Ok s0 -> stations s0 <> [] ->
  run p k = Ok s ->
  py_min (map departures (stations s)) = Ok (jobs s).
Proof.
  intros Hinit Hne Hrun. destruct k as [| k].
  - apply run_0 in Hrun. assert (s = s0) as -> by congruence.
    apply wrapper_init_Ok in Hinit
      as (g0 & _ & Hfresh & _ & _ & _ & _ & Hjobs & _).
    rewrite Hjobs.
    destruct (stations s0) as [| q0 sts] eqn:Es; [congruence |].
    simpl. f_equal.
    assert (Hq0 : departures q0 = 0%Z).
    { destruct (Hfresh 0%nat q0 eq_refl) as (_ & _ & _ & _ & _ & Hd & _).
      unfold departures. rewrite Hd. reflexivity. }
    rewrite Hq0.
    assert (Hall : forall y, y ∈ map departures sts -> y = 0%Z).
    { intros y Hy. apply list_elem_of_fmap in Hy as (q & -> & Hq).
      apply list_elem_of_lookup in Hq as [i Hi].
      destruct (Hfresh (S i) q Hi) as (_ & _ & _ & _ & _ & Hd & _).
      unfold departures. rewrite Hd. reflexivity. }
    destruct (fold_min_spec (map departures sts) 0) as (_ & _ & [E | E]);
      [exact E | apply Hall; exact E].
  - apply run_S in Hrun as (s1 & _ & Hit).
    apply iteration_Ok in Hit
      as (t & job & nd & evs0 & evs1 & sts1 & dest & g1
          & _ & _ & _ & _ & _ & _ & Hmin).
    exact Hmin.
Qed.

Lemma counter_reached (sts : list Queue.t) (m final : Z) :
  py_min (map departures sts) = Ok m ->
  ((final <= m)%Z <->
   forall i q, sts !! i = Some q -> (final <= departures q)%Z) /\
  ((m < final)%Z <->
   exists i q, sts !! i = Some q /\ (departures q < final)%Z).
Proof.
  intros Hmin. apply py_min_spec in Hmin as [Hin Hall].
  apply list_elem_of_fmap in Hin as (qm & Hm & Hqm).
  apply list_elem_of_lookup in Hqm as [im Him].
  assert (Hle : forall i q, sts !! i = Some q -> (m <= departures q)%Z).
  { intros i q Hq. apply Hall. apply list_elem_of_fmap. exists q.
    split; [reflexivity |]. eapply list_elem_of_lookup_2; eauto. }
  split; split.
  - intros Hf i q Hq. specialize (Hle i q Hq). lia.
  - intros Hf. specialize (Hf im qm Him). lia.
  - intros Hlt. exists im, qm. split; [exact Him | lia].
  - intros (i & q & Hq & Hlt). specialize (Hle i q Hq). lia.
Qed.

Lemma slice_to_length {A} (n : Z) (l : list A) :
  (0 <= n)%Z -> (n <= Z.of_nat (length l))%Z ->
  length (slice_to n l) = Z.to_nat n.
Proof.
  intros H0 Hn. unfold slice_to.
  destruct (Z.leb_spec 0 n) as [_ | Hneg]; [| lia].
  rewrite length_take. lia.
Qed.

End Loop.

(** C9. [wrapper] returns exactly at the first pass after which every
    station has recorded at least [final_jobs] departures: it returns after
    [k] passes if and only if all stations have reached the target then and,
    after each earlier pass, some station was still below it.  A pass never
    removes anything from a station's departure history, so a station that
    reached the target earlier keeps accumulating; the first [final_jobs]
    waiting times and job ids that [export] keeps exist for every station. *)
Theorem loop_stops_at_target `{Numpy} (p : params) (fuel : nat) (s0 : state) :
  wrapper_init p = Ok s0 -> stations s0 <> [] ->
  (forall s' : state,
     wrapper fuel p = Some (Ok s') <->
     exists k : nat,
       (k <= fuel)%nat /\ run p k = Ok s' /\
       (forall i q, stations s' !! i = Some q ->
                    (final_jobs p <= departures q)%Z) /\
       (forall j sj, (j < k)%nat -> run p j = Ok sj ->
          exists i q, stations sj !! i = Some q /\
                      (departures q < final_jobs p)%Z)) /\
  (forall (k : nat) (s s1 : state) (i : nat) (q : Queue.t),
     run p k = Ok s -> iteration s = Ok s1 -> stations s !! i = Some q ->
     exists q1 : Queue.t,
       stations s1 !! i = Some q1 /\
       Queue.departure_times q `prefix_of` Queue.departure_times q1) /\
  (forall (s' : state) (i : nat) (q : Queue.t),
     wrapper fuel p = Some (Ok s') -> stations s' !! i = Some q ->
     (0 <= final_jobs p)%Z ->
     exists ex : extracted,
       extractor s' i = Ok ex /\
       length (slice_to (final_jobs p) (waiting_times ex))
       = Z.to_nat (final_jobs p) /\
       length (slice_to (final_jobs p) (job_ids ex))
       = Z.to_nat (final_jobs p)).
Proof.
  intros Hinit Hne.
  assert (Hrun : forall k s, run p k = Ok s <-> iterations k s0 = Ok s).
  { intros k s. unfold run. rewrite Hinit. reflexivity. }
  assert (Hstop : forall s' : state,
     wrapper fuel p = Some (Ok s') <->
     exists k : nat,
       (k <= fuel)%nat /\ run p k = Ok s' /\
       (forall i q, stations s' !! i = Some q ->
                    (final_jobs p <= departures q)%Z) /\
       (forall j sj, (j < k)%nat -> run p j = Ok sj ->
          exists i q, stations sj !! i = Some q /\
                      (departures q < final_jobs p)%Z)).
  { intros s'. unfold wrapper. rewrite Hinit, loop_spec. split.
    - intros (k & Hk & Hit & Hfin & Hbelow). exists k.
      apply Hrun in Hit. split; [exact Hk |]. split; [exact Hit |].
      pose proof (run_jobs_counter p s0 k s' Hinit Hne Hit) as Hmin.
      split; [apply (counter_reached _ _ _ Hmin); exact Hfin |].
      intros j sj Hj Hsj.
      pose proof (run_jobs_counter p s0 j sj Hinit Hne Hsj) as Hminj.
      apply (counter_reached _ _ _ Hminj).
      apply (Hbelow j sj Hj). apply Hrun. exact Hsj.
    - intros (k & Hk & Hit & Hfin & Hbelow). exists k.
      pose proof (run_jobs_counter p s0 k s' Hinit Hne Hit) as Hmin.
      split; [exact Hk |]. split; [apply Hrun; exact Hit |].
      split; [apply (counter_reached _ _ _ Hmin); exact Hfin |].
      intros j sj Hj Hsj. apply Hrun in Hsj.
      pose proof (run_jobs_counter p s0 j sj Hinit Hne Hsj) as Hminj.
      apply (counter_reached _ _ _ Hminj). eapply Hbelow; eauto. }
  split; [exact Hstop |]. split.
  - intros k s s1 i q _ Hit Hq. eapply iteration_history; eauto.
  - intros s' i q Hw Hq Hpos.
    apply Hstop in Hw as (k & _ & Hk & Hfin & _).
    specialize (Hfin i q Hq). unfold departures in Hfin.
    destruct (run_services_le_arrivals p k s' i q Hk Hq) as [Hsv Hsa].
    apply run_accounting in Hk.
    destruct (Hk i q Hq) as [Hb Hn _ _ _ _ _ Hall _].
    destruct (extractor_returns s' i q Hq Hsa) as (ex & Hex & Hl & Hids).
    exists ex. split; [exact Hex |].
    split; apply slice_to_length; try exact Hpos.
    + rewrite Hl. lia.
    + rewrite Hids, Hall. lia.
Qed.

(** ** Next-event times that are zero *)

Lemma schedule_follow_up (evs : list event) (tn : option Q) (nj : option Z)
    (nd : node) :
  follow_up evs (schedule evs tn nj nd) tn nj nd.
Proof.
  destruct (schedule_cases evs tn nj nd) as [[Ht ->] | (t & -> & Hz & ->)].
  - left. split; [reflexivity |]. destruct tn as [x |]; [| auto].
    right. exists x. split; [reflexivity |].
    simpl in Ht. apply negb_false_iff in Ht. apply Qeq_bool_iff. exact Ht.
  - right. exists t. auto.
Qed.

Section ZeroTimes.
Context `{Numpy}.

Lemma dispatch_follow_up (s : state) (t : Q) (nd : node)
    (evs evs1 : list event) (src1 : Source.t) (sts1 : list Queue.t)
    (dest : option nat) (g1 : nat) :
  dispatch s t nd evs = Ok (src1, sts1, evs1, dest, g1) ->
  follow_up evs evs1 (node_time_next src1 sts1 nd)
            (node_next_job src1 sts1 nd) nd.
Proof.
  intros Hd. apply dispatch_Ok in Hd
    as [(-> & _ & _ & -> & _)
       | (k0 & q0 & q1 & -> & Hq0 & _ & _ & -> & -> & _)].
  - apply schedule_follow_up.
  - simpl. rewrite list_lookup_insert_eq by (eapply lookup_lt_Some; eauto).
    simpl. apply schedule_follow_up.
Qed.

Lemma deliver_follow_up (src : Source.t) (n d : nat) (t : Q)
    (job : option Z) (sts sts2 : list Queue.t) (evs evs2 : list event)
    (g g2 : nat) :
  deliver n t job sts evs (Some d) g = Ok (sts2, evs2, g2) -> d <> n ->
  follow_up evs evs2 (node_time_next src sts2 (NStation d))
            (node_next_job src sts2 (NStation d)) (NStation d).
Proof.
  intros Hd Hne. apply deliver_Ok in Hd
    as (d' & [= <-] & [(Heq & _) | (_ & q0 & q2 & Hq0 & _ & -> & ->)]);
    [contradiction |].
  simpl. rewrite list_lookup_insert_eq by (eapply lookup_lt_Some; eauto).
  simpl. apply schedule_follow_up.
Qed.

(** A busy station without an entry in the heap stays so, and records no
    departure. *)
Lemma iteration_stalled (s s' : state) (i : nat) (q : Queue.t) :
  iteration s = Ok s' ->
  stations s !! i = Some q -> (1 <= Queue.in_system q)%Z ->
  pending (NStation i) (events s) = 0%nat ->
  exists q' : Queue.t,
    stations s' !! i = Some q' /\ (1 <= Queue.in_system q')%Z /\
    pending (NStation i) (events s') = 0%nat /\
    Queue.departure_times q' = Queue.departure_times q.
Proof.
  intros Hit Hq Hbusy Hp.
  apply iteration_Ok in Hit
    as (t & job & nd & evs0 & evs1 & sts1 & dest & g1
        & Hpop & Hdisp & Hdel & _).
  apply heappop_Permutation in Hpop.
  rewrite (pending_Permutation _ _ _ Hpop) in Hp. simpl in Hp.
  unfold ev_node in Hp. simpl in Hp.
  destruct (node_eqb nd (NStation i)) eqn:End; [lia |].
  apply node_eqb_neq in End. simpl in Hp.
  assert (H1 : sts1 !! i = Some q /\ pending (NStation i) evs1 = 0%nat).
  { apply dispatch_Ok in Hdisp
      as [(-> & _ & -> & -> & _)
         | (k0 & q0 & q1 & -> & _ & _ & _ & -> & -> & _)].
    - split; [exact Hq |]. rewrite pending_schedule, Hp. reflexivity.
    - assert (Hne : k0 <> i) by congruence.
      split; [rewrite list_lookup_insert_ne by exact Hne; exact Hq |].
      rewrite pending_schedule, Hp. simpl.
      replace (k0 =? i)%nat with false
        by (symmetry; apply Nat.eqb_neq; exact Hne).
      reflexivity. }
  destruct H1 as [Hq1 Hp1].
  apply deliver_Ok in Hdel
    as (d & _ & [(_ & <- & <- & _)
                | (_ & q0 & q2 & Hq0 & Hin & -> & ->)]).
  - exists q. auto.
  - destruct (decide (d = i)) as [-> | Hne].
    + exists q2. replace q0 with q in * by congruence.
      apply action_in_Ok in Hin
        as (_ & Hi & _ & _ & Hdep & _ & Hcase).
      split; [apply list_lookup_insert_eq; eapply lookup_lt_Some; eauto |].
      split; [lia |]. split; [| exact Hdep].
      destruct Hcase as [(_ & -> & _) | (Hle & _)]; [| lia].
      rewrite pending_schedule, Hp1, node_eqb_refl. reflexivity.
    + exists q. split; [rewrite list_lookup_insert_ne by exact Hne; exact Hq1 |].
      split; [exact Hbusy |]. split; [| reflexivity].
      rewrite pending_schedule, Hp1. simpl.
      replace (d =? i)%nat with false
        by (symmetry; apply Nat.eqb_neq; exact Hne).
      reflexivity.
Qed.

Lemma iterations_stalled (m : nat) :
  forall (s s' : state) (i : nat) (q : Queue.t),
    iterations m s = Ok s' ->
    stations s !! i = Some q -> (1 <= Queue.in_system q)%Z ->
    pending (NStation i) (events s) = 0%nat ->
    exists q' : Queue.t,
      stations s' !! i = Some q' /\ (1 <= Queue.in_system q')%Z /\
      pending (NStation i) (events s') = 0%nat /\
      Queue.departure_times q' = Queue.departure_times q.
Proof.
  induction m as [| m IH]; intros s s' i q Hit Hq Hbusy Hp.
  - simpl in Hit. injection Hit as <-. exists q. auto.
  - simpl in Hit. destruct (iterations m s) as [s1 |] eqn:E1; simpl in Hit;
      [| discriminate].
    destruct (IH s s1 i q E1 Hq Hbusy Hp) as (q1 & Hq1 & Hb1 & Hp1 & Hd1).
    destruct (iteration_stalled s1 s' i q1 Hit Hq1 Hb1 Hp1)
      as (q' & Hq' & Hb' & Hp' & Hd').
    exists q'. repeat split; auto. congruence.
Qed.

(** Without an entry in the heap the source never fires again. *)
Lemma iteration_source_stalled (s s' : state) :
  iteration s = Ok s' ->
  pending NSource (events s) = 0%nat ->
  source s' = source s /\ pending NSource (events s') = 0%nat.
Proof.
  intros Hit Hp.
  apply iteration_Ok in Hit
    as (t & job & nd & evs0 & evs1 & sts1 & dest & g1
        & Hpop & Hdisp & Hdel & _).
  apply heappop_Permutation in Hpop.
  rewrite (pending_Permutation _ _ _ Hpop) in Hp. simpl in Hp.
  unfold ev_node in Hp. simpl in Hp.
  destruct nd as [| k0]; [simpl in Hp; lia |]. simpl in Hp.
  apply dispatch_Ok in Hdisp
    as [(Hnd & _) | (k1 & q0 & q1 & _ & _ & _ & Hsrc & _ & -> & _)];
    [discriminate Hnd |].
  split; [exact Hsrc |].
  apply deliver_Ok in Hdel
    as (d & _ & [(_ & _ & He & _) | (_ & q2 & q3 & _ & _ & _ & He)]);
    rewrite He, !pending_schedule, Hp; reflexivity.
Qed.

Lemma iterations_source_stalled (m : nat) :
  forall s s' : state,
    iterations m s = Ok s' ->
    pending NSource (events s) = 0%nat ->
    source s' = source s /\ pending NSource (events s') = 0%nat.
Proof.
  induction m as [| m IH]; intros s s' Hit Hp.
  - simpl in Hit. injection Hit as <-. auto.
  - simpl in Hit. destruct (iterations m s) as [s1 |] eqn:E1; simpl in Hit;
      [| discriminate].
    destruct (IH s s1 E1 Hp) as [Hs1 Hp1].
    destruct (iteration_source_stalled s1 s' Hit Hp1) as [Hs' Hp'].
    split; [congruence | exact Hp'].
Qed.

Lemma iteration_source_entry_ok (s s' : state) :
  source_entry_ok (source s) (events s) ->
  iteration s = Ok s' ->
  source_entry_ok (source s') (events s').
Proof.
  intros [Hone Hcount Hzero] Hit.
  apply iteration_Ok in Hit
    as (t & job & nd & evs0 & evs1 & sts1 & dest & g1
        & Hpop & Hdisp & Hdel & _).
  apply heappop_Permutation in Hpop.
  rewrite (pending_Permutation _ _ _ Hpop) in Hone, Hzero.
  simpl in Hone, Hzero. unfold ev_node in Hone, Hzero. simpl in Hone, Hzero.
  assert (Hsame : pending NSource (events s') = pending NSource evs1).
  { apply deliver_Ok in Hdel
      as (d & _ & [(_ & _ & He & _) | (_ & q2 & q3 & _ & _ & _ & He)]);
      rewrite He; [reflexivity |].
    rewrite pending_schedule. simpl. lia. }
  apply dispatch_Ok in Hdisp
    as [(-> & Hout & _ & -> & _)
       | (k1 & q0 & q1 & -> & _ & _ & Hsrc & _ & -> & _)].
  - apply source_action_out_Ok in Hout as (Hnj & _).
    simpl in Hone. assert (Hp0 : pending NSource evs0 = 0%nat) by lia.
    constructor; rewrite ?Hsame, ?pending_schedule, ?Hp0; simpl.
    + destruct (negb (Qeq_bool (Source.time_next (source s')) 0)); lia.
    + lia.
    + intros _ Hz. apply Qeq_bool_iff in Hz. rewrite Hz. reflexivity.
  - rewrite Hsrc. simpl in Hone, Hzero.
    constructor; rewrite ?Hsame, ?pending_schedule; simpl;
      rewrite ?Nat.add_0_r; auto.
Qed.

Lemma run_source_entry_ok (p : params) (k : nat) (s : state) :
  run p k = Ok s -> source_entry_ok (source s) (events s).
Proof.
  revert k s. apply (run_ind p).
  - intros s0 Hinit. apply wrapper_init_Ok in Hinit
      as (g0 & Hsrc & _ & Hev & _).
    apply source_init_Ok in Hsrc as (Hnj & _).
    rewrite Hev. constructor; simpl; lia.
  - intros j s s' _ Hok Hit. eapply iteration_source_entry_ok; eauto.
Qed.
End ZeroTimes.

(** C10. After [system[node].action_out()], and after
    [system[dest].action_in(job_id)], the loop pushes the entry
    [(time_next, next_job, node)] of that node if and only if its [time_next]
    is neither [None] nor equal to 0.  A station that holds a job and whose
    [time_next] is 0 therefore has no entry in the heap, and from then on it
    never records a departure; a source that has fired and whose [time_next]
    is 0 has no entry either and never fires again. *)
Theorem zero_next_event_time_is_not_scheduled `{Numpy} :
  (forall s t nd evs src1 sts1 evs1 dest g1,
     dispatch s t nd evs = Ok (src1, sts1, evs1, dest, g1) ->
     follow_up evs evs1 (node_time_next src1 sts1 nd)
               (node_next_job src1 sts1 nd) nd) /\
  (forall src n d t job sts sts2 evs evs2 g g2,
     deliver n t job sts evs (Some d) g = Ok (sts2, evs2, g2) -> d <> n ->
     follow_up evs evs2 (node_time_next src sts2 (NStation d))
               (node_next_job src sts2 (NStation d)) (NStation d)) /\
  (forall p k s i q t m s',
     run p k = Ok s -> stations s !! i = Some q ->
     (1 <= Queue.in_system q)%Z ->
     Queue.time_next q = Some t -> (t == 0)%Q ->
     iterations m s = Ok s' ->
     pending (NStation i) (events s') = 0%nat /\
     exists q', stations s' !! i = Some q' /\
                (1 <= Queue.in_system q')%Z /\
                Queue.departure_times q' = Queue.departure_times q) /\
  (forall p k s m s',
     run p k = Ok s -> (0 < Source.next_job (source s))%Z ->
     (Source.time_next (source s) == 0)%Q ->
     iterations m s = Ok s' ->
     pending NSource (events s') = 0%nat /\ source s' = source s).
Proof.
  split; [intros; eapply dispatch_follow_up; eauto |].
  split; [intros; eapply deliver_follow_up; eauto |].
  split.
  - intros p k s i q t m s' Hrun Hq Hbusy Htn Hz Hit.
    apply run_accounting in Hrun.
    destruct (Hrun i q Hq) as [_ _ _ _ _ _ _ _ Hzero].
    pose proof (Hzero Hbusy t Htn Hz) as Hp.
    destruct (iterations_stalled m s s' i q Hit Hq Hbusy Hp)
      as (q' & Hq' & Hb' & Hp' & Hd').
    split; [exact Hp' |]. exists q'. auto.
  - intros p k s m s' Hrun Hfired Hz Hit.
    apply run_source_entry_ok in Hrun as [_ _ Hzero].
    pose proof (Hzero Hfired Hz) as Hp.
    destruct (iterations_source_stalled m s s' Hit Hp) as [Hs Hp'].
    auto.
Qed.

(** C3, at its failing input. The first job arrives at time 0 and draws the
    service time 0: after the first pass the station holds one job and the
    heap holds no entry for it. *)
Theorem zero_service_time_leaves_no_departure_entry :
  exists (s : state) (q : Queue.t),
    @run zero_draws single_station 1 = Ok s /\
    stations s !! 0%nat = Some q /\
    Queue.in_system q = 1%Z /\
    Queue.time_next q = Some 0%Q /\
    events s = [(1%Q, Some 1%Z, NSource)] /\
    pending (NStation 0) (events s) = 0%nat.
Proof.
  eexists _, _. split; [vm_compute; reflexivity |].
  split; [vm_compute; reflexivity |].
  repeat split; vm_compute; reflexivity.
Qed.

(** In every pass that pops the entry of the source, the popped job goes to
    the destination that [action_out] has just sampled, the one stored in
    the source after the call, for the stream that is due next. *)
Lemma source_pass_delivery `{Numpy} (s s' : state) (t : Q) (job : option Z)
    (rest : list event) :
  heappop event_lt (events s) = Ok ((t, job, NSource), rest) ->
  iteration s = Ok s' ->
  exists g1 : nat,
    Source.action_out t (source s) (rng s) = Ok (source s', g1) /\
    let d := Source.next_destination (source s') in
    d = length (stations s) \/
    exists q q' : Queue.t,
      stations s !! d = Some q /\ stations s' !! d = Some q' /\
      Queue.all_jobs q' = Queue.all_jobs q ++ [job] /\
      Queue.arrival_times q' = Queue.arrival_times q ++ [t].
Proof.
  intros Hpop Hit.
  apply iteration_Ok in Hit
    as (t' & job' & nd & evs0 & evs1 & sts1 & dest & g1
        & Hpop' & Hdisp & Hdel & _).
  rewrite Hpop in Hpop'. injection Hpop' as <- <- <- <-.
  apply dispatch_Ok in Hdisp
    as [(_ & Hout & -> & _ & ->) | (k0 & q0 & q1 & Hnd & _)];
    [| discriminate Hnd].
  exists g1. split; [exact Hout |]. simpl.
  apply deliver_Ok in Hdel
    as (d & [= <-] & [(Hd & _) | (_ & q & q' & Hq & Hin & Hsts & _)]);
    [left; exact Hd | right].
  exists q, q'. split; [exact Hq |].
  apply action_in_Ok in Hin as (_ & _ & Hjobs & Harr & _).
  rewrite Hsts. split; [| auto].
  apply list_lookup_insert_eq. eapply lookup_lt_Some; eauto.
Qed.

(** C1, at its failing input. Stream 0 fires first and its precomputed
    destination is station 0, the only station its row allows; the job is
    delivered to station 1, the destination sampled during the firing over
    the row of stream 1, which is due next. *)
Theorem job_goes_to_next_arrivals_destination :
  exists (s0 s1 : state) (q0 q1 : Queue.t),
    @wrapper_init two_streams_draws two_streams = Ok s0 /\
    Source.next_source (source s0) = 0%nat /\
    Source.next_destination (source s0) = 0%nat /\
    events s0 = [(1%Q, Some 0%Z, NSource)] /\
    @iteration two_streams_draws s0 = Ok s1 /\
    Source.next_source (source s1) = 1%nat /\
    Source.next_destination (source s1) = 1%nat /\
    stations s1 !! 0%nat = Some q0 /\ Queue.all_jobs q0 = [] /\
    stations s1 !! 1%nat = Some q1 /\ Queue.all_jobs q1 = [Some 0%Z].
Proof.
  eexists _, _, _, _. split; [vm_compute; reflexivity |].
  repeat split; vm_compute; reflexivity.
Qed.

(** ** Construction and sampling check nothing *)

(** C5, as the code has it. [Queue.__init__] checks neither the routing
    vector nor the sign of the service parameters.  The only exception it
    can raise is the [OverflowError] of its power, when the square of the
    service mean (exponential family) or of the coefficient of variation
    (lognormal family) is out of the range of a float.  In every other case
    it returns a station whose exit probability is [1 - sum(destination)],
    negative when the vector sums to more than 1.  Such a routing vector is
    refused only by the routing draw of the station's first departure, and
    a negative exponential mean only by the first service-time draw. *)
Theorem station_construction_checks_nothing `{Numpy} (service_mean : Q)
    (destination : list Q) (distribution : family) (cov : Q) :
  (Queue.init service_mean destination distribution cov
     = Raise OverflowError /\
   (distribution = Exponential /\ (float_overflow <= sq service_mean)%Q \/
    distribution = Lognormal /\ (float_overflow <= sq cov)%Q)) \/
  (exists q : Queue.t,
    Queue.init service_mean destination distribution cov = Ok q /\
    (distribution = Exponential -> (sq service_mean < float_overflow)%Q) /\
    (distribution = Lognormal -> (sq cov < float_overflow)%Q) /\
    Queue.p_out q = (1 - sum destination)%Q /\
    Queue.destination q = destination /\
    Queue.in_system q = 0%Z /\
    (distribution = Exponential -> Queue.mu q = service_mean) /\
    ((1 < sum destination)%Q ->
     forall t job g q1 g1 t',
       Queue.action_in t job q g = Ok (q1, g1) ->
       Queue.action_out t' q1 g1 = Raise ValueError) /\
    (distribution = Exponential -> (service_mean < 0)%Q ->
     forall t job g, Queue.action_in t job q g = Raise ValueError)).
Proof.
  destruct (Queue.init service_mean destination distribution cov)
    as [q | e] eqn:Einit.
  2: { left. apply queue_init_Raise in Einit as [-> Hcase].
       split; [reflexivity | exact Hcase]. }
  right. exists q. split; [reflexivity |].
  pose proof (init_fresh _ _ _ _ _ Einit)
    as ((Hi & _ & Hjs & _) & Hp & Hd & Hn & Hf).
  pose proof (queue_init_Ok _ _ _ _ _ Einit)
    as (mu & sigma & Hq & Hexp & Hlog).
  split; [intros E; apply Hexp; exact E |]. split; [exact Hlog |].
  split; [exact Hp |]. split; [exact Hd |]. split; [exact Hi |].
  split; [| split].
  - intros E. destruct (Hexp E) as [-> _]. rewrite Hq. reflexivity.
  - intros Hsum t job g q1 g1 t' Hin.
    apply action_in_Ok in Hin
      as ((Hp1 & Hd1 & Hn1 & _) & Hi1 & _).
    unfold Queue.action_out. rewrite Hi1, Hi. simpl negb. cbv iota.
    unfold bind, ret.
    rewrite Hn1, Hn, Hd1, Hd, Hp1, Hp.
    rewrite choice_negative_exit by lra. reflexivity.
  - intros E Hneg t job g.
    unfold Queue.action_in. rewrite Hi. simpl. unfold bind.
    rewrite draw_service_negative_mean; [reflexivity | |].
    + rewrite Hf. exact E.
    + destruct (Hexp E) as [-> _]. rewrite Hq. exact Hneg.
Qed.

(** A routing vector that sums to 2 and a negative mean are accepted. *)
Lemma invalid_station_is_constructed :
  (1 < sum [1; 1])%Q /\
  (exists q : Queue.t,
     @Queue.init zero_draws 1 [1; 1]%Q Exponential 1 = Ok q /\
     (Queue.p_out q < 0)%Q) /\
  (exists q : Queue.t,
     @Queue.init zero_draws (-1) [0]%Q Exponential 1 = Ok q /\
     (Queue.mu q < 0)%Q).
Proof.
  split; [vm_compute; reflexivity |].
  split; eexists; (split; [reflexivity | vm_compute; reflexivity]).
Qed.

(** A mean whose square is out of the range of a float stops the
    constructor: [Queue(1e200, [0], 'Exponential', 1)] raises at
    [self.mu ** 2]. *)
Lemma overflowing_mean_is_refused :
  @Queue.init zero_draws (inject_Z (10 ^ 200)) [0]%Q Exponential 1
  = Raise OverflowError.
Proof. vm_compute. reflexivity. Qed.

(** C6, as the code has it. The lognormal branch of [Source.action_out]
    never inspects the argument of the logarithm: whatever its sign, an
    advance of a source that holds the parameters of the due stream, a
    non-empty heap and valid routing rows returns normally (the uniform
    variate of the routing draw being below 1), with the next arrival time [time + exp(m + new_normal * s)] of
    the stream in the heap. *)
Theorem lognormal_advance_checks_nothing `{Numpy} (time : Q)
    (self : Source.t) (g : nat) (last s m : Q) :
  Source.distribution self = Lognormal ->
  Source.previous_arrival self !! Source.next_source self = Some last ->
  Source.sigma self !! Source.next_source self = Some s ->
  Source.mu self !! Source.next_source self = Some m ->
  Source.next_arrival self <> [] ->
  (forall t i, (t, i) ∈ Source.next_arrival self \/
               i = Source.next_source self ->
               exists row : list Q,
                 Source.source_matrix self !! i = Some row /\
                 valid_row (Source.number_of_nodes self) row) ->
  (random_sample (S g) < 1)%Q ->
  let rho_normal :=
    (np_log (Source.rho self * (np_exp (sq s) - 1) + 1) / sq s)%Q in
  let new_normal :=
    (rho_normal * last
     + np_sqrt (1 - sq rho_normal) * (0 + 1 * standard_normal g))%Q in
  let new_time := (time + np_exp (m + new_normal * s))%Q in
  exists self' : Source.t,
    Source.action_out time self g = Ok (self', S (S g)) /\
    (new_time, Source.next_source self) ∈ Source.next_arrival self' /\
    Source.previous_arrival self' !! Source.next_source self
      = Some new_normal /\
    Source.next_job self' = (Source.next_job self + 1)%Z.
Proof.
  intros Hdist Hlast Hs Hm Hheap Hrow Hu rho_normal new_normal new_time.
  unfold Source.action_out, bind, lift, ret, bound, index.
  rewrite Hdist, Hlast, Hs, Hm. simpl.
  fold rho_normal. fold new_normal. fold new_time.
  destruct (heappop_total arrival_lt (Source.next_arrival self) Hheap)
    as (least & popped & Hpop).
  { intros a b _ _. apply arrival_lt_total. }
  rewrite Hpop.
  set (heap := heappush popped (new_time, Source.next_source self)).
  assert (Hnew : (new_time, Source.next_source self) ∈ heap).
  { unfold heap, heappush. apply elem_of_app. right. left. }
  destruct (heappop_total arrival_lt heap) as ([tn ns] & rest & Hpop').
  { intros E. rewrite E in Hnew. inversion Hnew. }
  { intros a b _ _. apply arrival_lt_total. }
  unfold heap_top. rewrite Hpop'. simpl.
  assert (Hin : (tn, ns) ∈ heap).
  { apply (heappop_elem arrival_lt _ _ _ (tn, ns) Hpop'). left. reflexivity. }
  destruct (Hrow tn ns) as (row & Hr & Hvalid).
  { unfold heap, heappush in Hin. apply elem_of_app in Hin as [Hin | Hin].
    - left. apply (heappop_elem arrival_lt _ _ _ (tn, ns) Hpop). right.
      exact Hin.
    - right. apply list_elem_of_singleton in Hin. congruence. }
  destruct (choice_succeeds _ _ (S g) Hvalid Hu) as (d & Hc & _).
  rewrite Hr, Hc. eexists. split; [reflexivity |]. simpl.
  split; [exact Hnew |]. split; [| reflexivity].
  apply list_lookup_insert_eq. eapply lookup_lt_Some; eauto.
Qed.

(** ** The clock, the loop and the zero times at concrete inputs *)

Lemma clock_never_decreases_witness :
  @run tandem_numpy tandem 3 = Ok tandem_early /\
  @run tandem_numpy tandem 12 = Ok tandem_state /\
  (curr tandem_early <= curr tandem_state)%Q /\
  Source_time tandem_state = curr tandem_state /\
  Queue_time tandem_state = curr tandem_state.
Proof.
  assert (Ha : @run tandem_numpy tandem 3 = Ok tandem_early)
    by (vm_compute; reflexivity).
  assert (Hb : @run tandem_numpy tandem 12 = Ok tandem_state)
    by (vm_compute; reflexivity).
  assert (Hjk : (3 <= 12)%nat) by lia.
  destruct (@clock_never_decreases tandem_numpy tandem 3 12 tandem_early
              tandem_state tandem_nonneg_increments Ha Hb Hjk)
    as (Hle & Hst & Hqt & _).
  auto.
Defined.

Lemma loop_stops_at_target_witness :
  @wrapper_init tandem_numpy tandem = Ok tandem_initial /\
  @wrapper tandem_numpy 20 tandem = Some (Ok tandem_final) /\
  exists k : nat,
    (k <= 20)%nat /\ @run tandem_numpy tandem k = Ok tandem_final /\
    forall i q, stations tandem_final !! i = Some q ->
                (final_jobs tandem <= departures q)%Z.
Proof.
  assert (Hinit : @wrapper_init tandem_numpy tandem = Ok tandem_initial)
    by (vm_compute; reflexivity).
  assert (Hne : stations tandem_initial <> []) by discriminate.
  assert (Hw : @wrapper tandem_numpy 20 tandem = Some (Ok tandem_final))
    by (vm_compute; reflexivity).
  split; [exact Hinit |]. split; [exact Hw |].
  destruct (@loop_stops_at_target tandem_numpy tandem 20 tandem_initial
              Hinit Hne) as (Hstop & _).
  apply Hstop in Hw as (k & Hk & Hrun & Hall & _).
  exists k. auto.
Defined.

Lemma zero_next_event_time_is_not_scheduled_witness :
  @run zero_draws single_station 1 = Ok (zero_draws_state 1) /\
  @iterations zero_draws 4 (zero_draws_state 1) = Ok (zero_draws_state 5) /\
  pending (NStation 0) (events (zero_draws_state 5)) = 0%nat /\
  exists q q' : Queue.t,
    stations (zero_draws_state 1) !! 0%nat = Some q /\
    stations (zero_draws_state 5) !! 0%nat = Some q' /\
    (1 <= Queue.in_system q')%Z /\
    Queue.departure_times q' = Queue.departure_times q.
Proof.
  assert (Hrun : @run zero_draws single_station 1 = Ok (zero_draws_state 1))
    by (vm_compute; reflexivity).
  assert (Hit : @iterations zero_draws 4 (zero_draws_state 1)
                = Ok (zero_draws_state 5))
    by (vm_compute; reflexivity).
  split; [exact Hrun |]. split; [exact Hit |].
  destruct (stations (zero_draws_state 1) !! 0%nat) as [q |] eqn:Hq;
    [| vm_compute in Hq; discriminate Hq].
  assert (Hbusy : (1 <= Queue.in_system q)%Z).
  { vm_compute in Hq. injection Hq as <-. vm_compute. discriminate. }
  assert (Htn : Queue.time_next q = Some 0%Q).
  { vm_compute in Hq. injection Hq as <-. reflexivity. }
  assert (Hz : (0 == 0)%Q) by reflexivity.
  destruct (@zero_next_event_time_is_not_scheduled zero_draws)
    as (_ & _ & Hstation & _).
  destruct (Hstation single_station 1%nat (zero_draws_state 1) 0%nat q 0%Q
              4%nat (zero_draws_state 5) Hrun Hq Hbusy Htn Hz Hit)
    as (Hp & q' & Hq' & Hb' & Hd').
  split; [exact Hp |]. exists q, q'. auto.
Defined.

Lemma lognormal_advance_checks_nothing_witness :
  (exists x : Q,
     @log_argument lognormal_draws lognormal_source = Some x /\ (x < 0)%Q) /\
  exists self' : Source.t,
    @Source.action_out lognormal_draws (Source.time_next lognormal_source)
                       lognormal_source 2 = Ok (self', 4%nat) /\
    Source.next_job self' = 1%Z.
Proof.
  split; [eexists; split; [vm_compute; reflexivity | reflexivity] |].
  destruct (@lognormal_advance_checks_nothing lognormal_draws
              (Source.time_next lognormal_source) lognormal_source 2
              (640000 # 327680)%Q (5 # 2)%Q (-25 # 8)%Q)
    as (self' & Hout & _ & _ & Hnj).
  - reflexivity.
  - reflexivity.
  - reflexivity.
  - reflexivity.
  - discriminate.
  - intros t i Hi.
    assert (i = 0%nat) as ->.
    { destruct Hi as [Hi | Hi]; [| exact Hi].
      vm_compute in Hi. apply list_elem_of_singleton in Hi. congruence. }
    exists [1%Q]. split; [reflexivity |].
    split; [discriminate |]. split; [reflexivity |].
    split; [repeat constructor; discriminate | vm_compute; discriminate].
  - reflexivity.
  - exists self'. split; [exact Hout | exact Hnj].
Defined.

(** With a negative argument of the logarithm the advance returns a next
    arrival time all the same. *)
Lemma nonpositive_log_argument_is_accepted :
  exists (x : Q) (self' : Source.t),
    @Source.init lognormal_draws [1%Q] [[1%Q]] Lognormal [2%Q] (-1 # 2) 0%nat
    = Ok (lognormal_source, 2%nat) /\
    @log_argument lognormal_draws lognormal_source = Some x /\
    (x <= 0)%Q /\
    @Source.action_out lognormal_draws (Source.time_next lognormal_source)
                       lognormal_source 2 = Ok (self', 4%nat).
Proof.
  eexists _, _. split; [vm_compute; reflexivity |].
  split; [vm_compute; reflexivity |].
  split; [vm_compute; discriminate |].
  vm_compute. reflexivity.
Qed.

(** * The order of service *)

Section OrderOfService.
Context `{Numpy}.

Lemma action_in_fcfs (t : Q) (job : option Z) (q q' : Queue.t) (c g g' : nat) :
  station_ok q c -> fcfs q ->
  Queue.action_in t job q g = Ok (q', g') -> fcfs q'.
Proof.
  intros [Hb Hn _ _ _ _ Hw Hall _] Hf Hin.
  apply action_in_Ok in Hin as (_ & Hi & Haj & Harr & Hdep & _ & Hcase).
  unfold fcfs, present in *. rewrite Hi, Haj, Hdep.
  assert (Hd : (length (Queue.departure_times q)
                <= length (Queue.all_jobs q))%nat) by lia.
  rewrite drop_app_le by exact Hd.
  destruct Hcase as [(Hgt & _ & Hjs & _ & Hnj & _)
                    | (Hle & sv & _ & Hjs & _)].
  - replace (Queue.in_system q + 1 =? 0)%Z with false
      by (symmetry; apply Z.eqb_neq; lia).
    replace (Queue.in_system q =? 0)%Z with false in Hf
      by (symmetry; apply Z.eqb_neq; lia).
    rewrite Hf, Hjs, Hnj. reflexivity.
  - replace (Queue.in_system q + 1 =? 0)%Z with false
      by (symmetry; apply Z.eqb_neq; lia).
    replace (Queue.in_system q =? 0)%Z with true in Hf
      by (symmetry; apply Z.eqb_eq; lia).
    rewrite Hf.
    destruct (Queue.jobs_in_system q) as [| x l]; [| simpl in Hw; lia].
    simpl in Hjs. injection Hjs as <- <-. reflexivity.
Qed.

Lemma action_out_fcfs (t : Q) (q q' : Queue.t) (c g g' : nat) :
  station_ok q c -> (1 <= Queue.in_system q)%Z -> fcfs q ->
  Queue.action_out t q g = Ok (q', g') -> fcfs q'.
Proof.
  intros [Hb Hn _ _ _ _ Hw Hall _] Hbusy Hf Hout.
  apply action_out_Ok in Hout as (_ & Hi & Haj & Harr & Hdep & _ & Hcase).
  unfold fcfs, present in *. rewrite Hi, Haj, Hdep, length_app.
  simpl length.
  replace (Queue.in_system q =? 0)%Z with false in Hf
    by (symmetry; apply Z.eqb_neq; lia).
  rewrite <- drop_drop, Hf. simpl.
  destruct Hcase as [(Hz & _ & Hjs & _) | (Hnz & sv & g1 & _ & Hjs & _)].
  - rewrite Hz. simpl.
    destruct (Queue.jobs_in_system q) as [| x l]; [| simpl in Hw; lia].
    rewrite drop_0. reflexivity.
  - replace (Queue.in_system q - 1 =? 0)%Z with false
      by (symmetry; apply Z.eqb_neq; lia).
    rewrite drop_0. exact Hjs.
Qed.

Lemma dispatch_fcfs (s : state) (t : Q) (job : option Z) (nd : node)
    (evs0 evs1 : list event) (src1 : Source.t) (sts1 : list Queue.t)
    (dest : option nat) (g1 : nat) :
  accounting (stations s) ((t, job, nd) :: evs0) ->
  all_fcfs (stations s) ->
  dispatch s t nd evs0 = Ok (src1, sts1, evs1, dest, g1) ->
  all_fcfs sts1.
Proof.
  intros Hacc Hf Hd.
  apply dispatch_Ok in Hd
    as [(-> & _ & -> & _) | (k0 & q0 & q1 & -> & Hq0 & Hout & _ & -> & _)];
    [exact Hf |].
  intros i q Hq. apply list_lookup_insert_Some in Hq
    as [(<- & <- & _) | (_ & Hq)]; [| eapply Hf; exact Hq].
  pose proof (Hacc k0 q0 Hq0) as Hok. simpl in Hok. unfold ev_node in Hok.
  simpl in Hok. rewrite Nat.eqb_refl in Hok.
  assert (Hbusy : (1 <= Queue.in_system q0)%Z).
  { destruct Hok as [_ _ Hone Hb _ _ _ _ _]. apply Hb. lia. }
  eapply action_out_fcfs; eauto.
Qed.

Lemma deliver_fcfs (n : nat) (t : Q) (job : option Z)
    (sts sts2 : list Queue.t) (evs evs2 : list event) (dest : option nat)
    (g g2 : nat) :
  accounting sts evs -> all_fcfs sts ->
  deliver n t job sts evs dest g = Ok (sts2, evs2, g2) ->
  all_fcfs sts2.
Proof.
  intros Hacc Hf Hd.
  apply deliver_Ok in Hd
    as (d & -> & [(_ & -> & _) | (_ & q0 & q2 & Hq0 & Hin & -> & _)]);
    [exact Hf |].
  intros i q Hq. apply list_lookup_insert_Some in Hq
    as [(<- & <- & _) | (_ & Hq)]; [| eapply Hf; exact Hq].
  eapply action_in_fcfs; eauto.
Qed.

Lemma iteration_fcfs (s s' : state) :
  accounting (stations s) (events s) -> all_fcfs (stations s) ->
  iteration s = Ok s' -> all_fcfs (stations s').
Proof.
  intros Hacc Hf Hit.
  apply iteration_Ok in Hit
    as (t & job & nd & evs0 & evs1 & sts1 & dest & g1
        & Hpop & Hdisp & Hdel & _).
  apply heappop_Permutation in Hpop.
  assert (Hacc0 : accounting (stations s) ((t, job, nd) :: evs0)).
  { intros k q Hq. rewrite <- (pending_Permutation _ _ _ Hpop).
    apply Hacc. exact Hq. }
  eapply deliver_fcfs; [| | exact Hdel].
  - eapply dispatch_accounting; eauto.
  - eapply dispatch_fcfs; eauto.
Qed.

Lemma run_fcfs (p : params) (k : nat) (s : state) :
  run p k = Ok s -> all_fcfs (stations s).
Proof.
  revert k s. apply (run_ind p).
  - intros s0 Hinit. apply wrapper_init_Ok in Hinit
      as (g0 & _ & Hfresh & _).
    intros i q Hq.
    destruct (Hfresh i q Hq) as (Hi & Haj & _ & _ & _ & Hdep & _).
    unfold fcfs, present. rewrite Hi, Haj, Hdep. reflexivity.
  - intros j s s' Hrun Hf Hit. eapply iteration_fcfs; eauto.
    eapply run_accounting; eauto.
Qed.

(** ** The entries of the heap *)

Lemma mirrors_Permutation (src : Source.t) (sts : list Queue.t)
    (a b : list event) :
  Permutation a b -> mirrors src sts a -> mirrors src sts b.
Proof.
  intros Hp Hm e He. apply Hm. rewrite Hp. exact He.
Qed.

Lemma dispatch_mirrors (s : state) (t : Q) (job : option Z) (nd : node)
    (evs0 evs1 : list event) (src1 : Source.t) (sts1 : list Queue.t)
    (dest : option nat) (g1 : nat) :
  accounting (stations s) ((t, job, nd) :: evs0) ->
  (pending NSource ((t, job, nd) :: evs0) <= 1)%nat ->
  mirrors (source s) (stations s) ((t, job, nd) :: evs0) ->
  dispatch s t nd evs0 = Ok (src1, sts1, evs1, dest, g1) ->
  mirrors src1 sts1 evs1.
Proof.
  intros Hacc Hone Hm Hd.
  apply dispatch_Ok in Hd
    as [(-> & _ & -> & -> & _)
       | (k0 & q0 & q1 & -> & Hq0 & Hout & -> & -> & -> & _)].
  - assert (Hp0 : pending NSource evs0 = 0%nat) by (simpl in Hone; lia).
    intros e He. apply elem_of_schedule in He
      as [He | (t' & [= <-] & _ & ->)]; [| reflexivity].
    pose proof (proj1 (pending_zero _ _) Hp0 e He) as Hne.
    specialize (Hm e (list_elem_of_further _ _ _ He)).
    destruct (ev_node e); [congruence | exact Hm].
  - pose proof (Hacc k0 q0 Hq0) as Hok. simpl in Hok. unfold ev_node in Hok.
    simpl in Hok. rewrite Nat.eqb_refl in Hok.
    assert (Hp0 : pending (NStation k0) evs0 = 0%nat).
    { destruct Hok as [_ _ Hle _ _ _ _ _ _]. lia. }
    intros e He. apply elem_of_schedule in He as [He | (t' & Htn & _ & ->)].
    + pose proof (proj1 (pending_zero _ _) Hp0 e He) as Hne.
      specialize (Hm e (list_elem_of_further _ _ _ He)).
      destruct (ev_node e) as [| i]; [exact Hm |].
      destruct Hm as (q & Hq & ->). exists q. split; [| reflexivity].
      rewrite list_lookup_insert_ne by congruence. exact Hq.
    + simpl. exists q1. split.
      * apply list_lookup_insert_eq. eapply lookup_lt_Some; eauto.
      * apply action_out_Ok in Hout as (_ & _ & _ & _ & _ & _ & Hcase).
        destruct Hcase as [(_ & Hn & _) | (_ & sv & g' & _ & _ & _ & Hf & Ht)];
          [congruence |].
        rewrite Hf. congruence.
Qed.

Lemma deliver_mirrors (src : Source.t) (n : nat) (t : Q) (job : option Z)
    (sts sts2 : list Queue.t) (evs evs2 : list event) (dest : option nat)
    (g g2 : nat) :
  accounting sts evs -> mirrors src sts evs ->
  deliver n t job sts evs dest g = Ok (sts2, evs2, g2) ->
  mirrors src sts2 evs2.
Proof.
  intros Hacc Hm Hd.
  apply deliver_Ok in Hd
    as (d & -> & [(_ & -> & -> & _) | (_ & q0 & q2 & Hq0 & Hin & -> & ->)]);
    [exact Hm |].
  destruct (Hacc d q0 Hq0) as [_ Hn Hone Hbusy _ _ _ _ _].
  apply action_in_Ok in Hin as (_ & _ & _ & _ & _ & _ & Hcase).
  assert (Hold : forall e, e ∈ evs ->
            (ev_node e = NStation d ->
             Queue.finish_time q2 = Queue.finish_time q0 /\
             Queue.next_job q2 = Queue.next_job q0) ->
            match ev_node e with
            | NSource =>
                e = (Source.time_next src, Some (Source.next_job src), NSource)
            | NStation i =>
                exists q : Queue.t,
                  <[d := q2]> sts !! i = Some q /\
                  e = (Queue.finish_time q, Queue.next_job q, NStation i)
            end).
  { intros e He Hsame. specialize (Hm e He).
    destruct (ev_node e) as [| i] eqn:En; [exact Hm |].
    destruct Hm as (q & Hq & ->).
    destruct (decide (i = d)) as [-> | Hne].
    - exists q2. split.
      + apply list_lookup_insert_eq. eapply lookup_lt_Some; eauto.
      + destruct (Hsame eq_refl) as [-> ->]. congruence.
    - exists q. split; [| reflexivity].
      rewrite list_lookup_insert_ne by congruence. exact Hq. }
  destruct Hcase as [(_ & Htn & _ & _ & Hnj & Hft & _)
                    | (Hle & sv & _ & _ & _ & Hft & Htn)].
  - rewrite Htn. simpl. intros e He. apply Hold; [exact He | auto].
  - assert (Hp0 : pending (NStation d) evs = 0%nat).
    { destruct (pending (NStation d) evs) as [| [| c]]; [reflexivity | |].
      - specialize (Hbusy eq_refl). lia.
      - lia. }
    intros e He. apply elem_of_schedule in He as [He | (t' & Ht' & _ & ->)].
    + apply Hold; [exact He |]. intros En.
      exfalso. exact (proj1 (pending_zero _ _) Hp0 e He En).
    + simpl. exists q2. split.
      * apply list_lookup_insert_eq. eapply lookup_lt_Some; eauto.
      * rewrite Hft. congruence.
Qed.

Lemma iteration_mirrors (s s' : state) :
  accounting (stations s) (events s) ->
  (pending NSource (events s) <= 1)%nat ->
  mirrors (source s) (stations s) (events s) ->
  iteration s = Ok s' ->
  mirrors (source s') (stations s') (events s').
Proof.
  intros Hacc Hone Hm Hit.
  apply iteration_Ok in Hit
    as (t & job & nd & evs0 & evs1 & sts1 & dest & g1
        & Hpop & Hdisp & Hdel & _).
  apply heappop_Permutation in Hpop.
  assert (Hacc0 : accounting (stations s) ((t, job, nd) :: evs0)).
  { intros k q Hq. rewrite <- (pending_Permutation _ _ _ Hpop).
    apply Hacc. exact Hq. }
  rewrite (pending_Permutation _ _ _ Hpop) in Hone.
  apply (mirrors_Permutation _ _ _ _ Hpop) in Hm.
  eapply deliver_mirrors; [| | exact Hdel].
  - eapply dispatch_accounting; eauto.
  - eapply dispatch_mirrors; eauto.
Qed.

Lemma run_mirrors (p : params) (k : nat) (s : state) :
  run p k = Ok s -> mirrors (source s) (stations s) (events s).
Proof.
  revert k s. apply (run_ind p).
  - intros s0 Hinit. apply wrapper_init_Ok in Hinit
      as (g0 & _ & _ & Hev & _).
    rewrite Hev. intros e He. apply list_elem_of_singleton in He as ->.
    reflexivity.
  - intros j s s' Hrun Hm Hit. eapply iteration_mirrors; eauto.
    + eapply run_accounting; eauto.
    + apply run_jobs_ok in Hrun as [Hone _ _ _]. exact Hone.
Qed.
End OrderOfService.

(** * The recorded times *)

Lemma later_le (a d : Q) : (d <= a)%Q -> later a d = a.
Proof.
  intros Hle. unfold later.
  destruct (Qlt_bool a d) eqn:E; [| reflexivity].
  apply Qlt_bool_iff in E. lra.
Qed.

Lemma later_ge (a d : Q) : (a <= d)%Q -> (later a d == d)%Q.
Proof.
  intros Hle. unfold later.
  destruct (Qlt_bool a d) eqn:E; [reflexivity |].
  apply Qlt_bool_false in E. lra.
Qed.

Lemma nondecreasing_snoc (l : list Q) (c t : Q) :
  nondecreasing l -> before c l -> (c <= t)%Q -> nondecreasing (l ++ [t]).
Proof.
  intros Hl Hb Hct i j x y Hij Hi Hj.
  apply lookup_app_Some in Hj as [Hj | (Hlen & Hj)].
  - rewrite lookup_app_l in Hi by (apply lookup_lt_Some in Hj; lia).
    eapply Hl; eauto.
  - destruct (j - length l)%nat as [| m] eqn:Em; [| destruct m; discriminate].
    simpl in Hj. injection Hj as <-.
    apply lookup_app_Some in Hi as [Hi | (Hlen' & Hi)].
    + unfold before in Hb. rewrite Forall_lookup in Hb.
      destruct (Hb i x Hi) as [_ Hx]. lra.
    + destruct (i - length l)%nat as [| m'] eqn:Em';
        [| destruct m'; discriminate].
      simpl in Hi. injection Hi as <-. lra.
Qed.

Lemma before_mono (c c' : Q) (l : list Q) :
  before c l -> (c <= c')%Q -> before c' l.
Proof.
  intros Hb Hc. unfold before in *. eapply Forall_impl; [exact Hb |].
  simpl. intros x [H0 Hx]. split; lra.
Qed.

Lemma before_snoc (c t : Q) (l : list Q) :
  before c l -> (0 <= c)%Q -> (c <= t)%Q -> before t (l ++ [t]).
Proof.
  intros Hb H0 Hc. apply Forall_app. split.
  - eapply before_mono; eauto.
  - constructor; [split; lra | constructor].
Qed.

Lemma service_start_grows (q q' : Queue.t) (k : nat) (st : Q) :
  Queue.arrival_times q `prefix_of` Queue.arrival_times q' ->
  Queue.departure_times q `prefix_of` Queue.departure_times q' ->
  service_start q k = Some st -> service_start q' k = Some st.
Proof.
  intros Ha Hd. unfold service_start.
  destruct (Queue.arrival_times q !! k) as [a |] eqn:Ea; [| discriminate].
  rewrite (prefix_lookup_Some _ _ _ _ Ea Ha). simpl.
  destruct k as [| k']; [auto |].
  destruct (Queue.departure_times q !! k') as [d |] eqn:Ed; [| discriminate].
  rewrite (prefix_lookup_Some _ _ _ _ Ed Hd). auto.
Qed.

Lemma timing_mono (c c' : Q) (q : Queue.t) :
  timing c q -> (c <= c')%Q -> timing c' q.
Proof.
  intros [Ha Hd Hb Hl Hdep Hs] Hc.
  constructor; auto; eapply before_mono; eauto.
Qed.

Section RecordedTimes.
Context `{Numpy}.

Lemma action_in_timing (c t : Q) (job : option Z) (q q' : Queue.t)
    (cnt g g' : nat) :
  station_ok q cnt -> timing c q -> (0 <= c)%Q -> (c <= t)%Q ->
  Queue.action_in t job q g = Ok (q', g') -> timing t q'.
Proof.
  intros [Hb Hn _ _ Hsb Hsi _ _ _] [Ha Hd Hbe Hl Hdep Hs] H0 Hct Hin.
  apply action_in_Ok in Hin as (_ & Hi & _ & Harr & Hdp & _ & Hcase).
  assert (Hpa : Queue.arrival_times q `prefix_of` Queue.arrival_times q')
    by (rewrite Harr; apply prefix_app_r; reflexivity).
  assert (Hpd : Queue.departure_times q `prefix_of` Queue.departure_times q')
    by (rewrite Hdp; reflexivity).
  assert (Hsv : exists x, Queue.service_times q' = Queue.service_times q ++ x).
  { destruct Hcase as [(_ & _ & _ & Hsv & _) | (_ & sv & _ & _ & Hsv & _)].
    - exists []. rewrite app_nil_r. exact Hsv.
    - exists [sv]. exact Hsv. }
  destruct Hsv as [x Hsv].
  constructor.
  - rewrite Harr. eapply nondecreasing_snoc; eauto.
  - rewrite Hdp. exact Hd.
  - rewrite Harr. eapply before_snoc; eauto.
  - rewrite Hdp. eapply before_mono; eauto.
  - rewrite Hdp. intros k dk Hk.
    destruct (Hdep k dk Hk) as (st & sk & Hst & Hsk & He).
    exists st, sk. split; [eapply service_start_grows; eauto |].
    split; [| exact He]. rewrite Hsv. apply lookup_app_l_Some. exact Hsk.
  - intros _. rewrite Hdp.
    destruct Hcase as [(Hgt & _ & _ & Hsv' & _ & Hft & _)
                      | (Hle & sv & _ & _ & Hsv' & Hft & _)].
    + destruct Hs as (st & sk & Hst & Hsk & He); [lia |].
      exists st, sk. split; [eapply service_start_grows; eauto |].
      rewrite Hsv', Hft. auto.
    + assert (Hidle : Queue.in_system q = 0%Z) by lia.
      assert (Hlen : length (Queue.arrival_times q)
                     = length (Queue.departure_times q)) by lia.
      exists t, sv. split; [| split].
      * unfold service_start. rewrite Harr, Hdp.
        rewrite lookup_app_r by lia. rewrite Hlen, Nat.sub_diag. simpl.
        destruct (length (Queue.departure_times q)) as [| d'] eqn:Ed;
          [reflexivity |].
        destruct (lookup_lt_is_Some_2 (Queue.departure_times q) d')
          as [dp Hdp']; [lia |].
        rewrite Hdp'. simpl. f_equal. apply later_le.
        unfold before in Hl. rewrite Forall_lookup in Hl.
        destruct (Hl d' dp Hdp') as [_ Hx]. lra.
      * rewrite Hsv', lookup_app_r by (rewrite (Hsi Hidle); lia).
        rewrite (Hsi Hidle), Nat.sub_diag. reflexivity.
      * rewrite Hft. reflexivity.
Qed.

Lemma action_out_timing (c t : Q) (q q' : Queue.t) (cnt g g' : nat) :
  station_ok q cnt -> (1 <= Queue.in_system q)%Z ->
  timing c q -> (0 <= c)%Q -> (c <= t)%Q -> t = Queue.finish_time q ->
  Queue.action_out t q g = Ok (q', g') -> timing t q'.
Proof.
  intros [Hb Hn _ _ Hsb Hsi _ _ _] Hbusy [Ha Hd Hbe Hl Hdep Hs] H0 Hct Hfin
         Hout.
  apply action_out_Ok in Hout as (_ & Hi & _ & Harr & Hdp & _ & Hcase).
  assert (Hpa : Queue.arrival_times q `prefix_of` Queue.arrival_times q')
    by (rewrite Harr; reflexivity).
  assert (Hpd : Queue.departure_times q `prefix_of` Queue.departure_times q')
    by (rewrite Hdp; apply prefix_app_r; reflexivity).
  assert (Hsv : exists x, Queue.service_times q' = Queue.service_times q ++ x).
  { destruct Hcase as [(_ & _ & _ & Hsv & _) | (_ & sv & g1 & _ & _ & Hsv & _)].
    - exists []. rewrite app_nil_r. exact Hsv.
    - exists [sv]. exact Hsv. }
  destruct Hsv as [x Hsv].
  destruct (Hs Hbusy) as (st0 & sk0 & Hst0 & Hsk0 & He0).
  constructor.
  - rewrite Harr. exact Ha.
  - rewrite Hdp. eapply nondecreasing_snoc; eauto.
  - rewrite Harr. eapply before_mono; eauto.
  - rewrite Hdp. eapply before_snoc; eauto.
  - rewrite Hdp. intros k dk Hk.
    apply lookup_app_Some in Hk as [Hk | (Hlen & Hk)].
    + destruct (Hdep k dk Hk) as (st & sk & Hst & Hsk & He).
      exists st, sk. split; [eapply service_start_grows; eauto |].
      split; [| exact He]. rewrite Hsv. apply lookup_app_l_Some. exact Hsk.
    + destruct (k - length (Queue.departure_times q))%nat as [| m] eqn:Em;
        [| destruct m; discriminate].
      simpl in Hk. injection Hk as <-.
      assert (k = length (Queue.departure_times q)) as -> by lia.
      exists st0, sk0. split; [eapply service_start_grows; eauto |].
      split; [rewrite Hsv; apply lookup_app_l_Some; exact Hsk0 |].
      rewrite Hfin. exact He0.
  - intros Hbusy'. rewrite Hdp, length_app. simpl length.
    destruct Hcase as [(Hz & _) | (Hnz & sv & g1 & _ & _ & Hsv' & Hft & _)];
      [lia |].
    destruct (lookup_lt_is_Some_2 (Queue.arrival_times q)
                (length (Queue.departure_times q) + 1)) as [a Harr'];
      [lia |].
    exists (later a t), sv. split; [| split].
    + unfold service_start. rewrite Harr, Harr'. simpl.
      rewrite Nat.add_1_r, Hdp.
      rewrite lookup_app_r by lia. rewrite Nat.sub_diag. reflexivity.
    + rewrite Hsv', lookup_app_r by (rewrite (Hsb Hbusy); lia).
      rewrite (Hsb Hbusy).
      replace (length (Queue.departure_times q) + 1
               - S (length (Queue.departure_times q)))%nat with 0%nat by lia.
      reflexivity.
    + rewrite Hft. rewrite later_ge; [reflexivity |].
      unfold before in Hbe. rewrite Forall_lookup in Hbe.
      destruct (Hbe _ a Harr') as [_ Hx]. lra.
Qed.

Lemma dispatch_timing (s : state) (c t : Q) (job : option Z) (nd : node)
    (evs0 evs1 : list event) (src1 : Source.t) (sts1 : list Queue.t)
    (dest : option nat) (g1 : nat) :
  accounting (stations s) ((t, job, nd) :: evs0) ->
  mirrors (source s) (stations s) ((t, job, nd) :: evs0) ->
  all_timing c (stations s) -> (0 <= c)%Q -> (c <= t)%Q ->
  dispatch s t nd evs0 = Ok (src1, sts1, evs1, dest, g1) ->
  all_timing t sts1.
Proof.
  intros Hacc Hm Ht H0 Hct Hd.
  apply dispatch_Ok in Hd
    as [(-> & _ & -> & _) | (k0 & q0 & q1 & -> & Hq0 & Hout & _ & -> & _)].
  - intros i q Hq. eapply timing_mono; eauto.
  - intros i q Hq. apply list_lookup_insert_Some in Hq
      as [(<- & <- & _) | (_ & Hq)]; [| eapply timing_mono; eauto].
    pose proof (Hacc k0 q0 Hq0) as Hok. simpl in Hok. unfold ev_node in Hok.
    simpl in Hok. rewrite Nat.eqb_refl in Hok.
    assert (Hbusy : (1 <= Queue.in_system q0)%Z).
    { destruct Hok as [_ _ Hone Hb _ _ _ _ _]. apply Hb. lia. }
    specialize (Hm (t, job, NStation k0) (list_elem_of_here _ _)).
    simpl in Hm. destruct Hm as (q & Hq & He).
    rewrite Hq0 in Hq. injection Hq as <-. injection He as Hfin _.
    eapply action_out_timing; eauto.
Qed.

Lemma deliver_timing (n : nat) (t : Q) (job : option Z)
    (sts sts2 : list Queue.t) (evs evs2 : list event) (dest : option nat)
    (g g2 : nat) :
  accounting sts evs -> all_timing t sts -> (0 <= t)%Q ->
  deliver n t job sts evs dest g = Ok (sts2, evs2, g2) ->
  all_timing t sts2.
Proof.
  intros Hacc Ht H0 Hd.
  apply deliver_Ok in Hd
    as (d & -> & [(_ & -> & _) | (_ & q0 & q2 & Hq0 & Hin & -> & _)]);
    [exact Ht |].
  intros i q Hq. apply list_lookup_insert_Some in Hq
    as [(<- & <- & _) | (_ & Hq)]; [| eapply Ht; exact Hq].
  eapply action_in_timing; eauto. lra.
Qed.

Lemma run_timing (p : params) (k : nat) (s : state) :
  nonneg_increments -> run p k = Ok s ->
  (0 <= curr s)%Q /\ all_timing (curr s) (stations s).
Proof.
  intros Hnn. revert k s. apply (run_ind p).
  - intros s0 Hinit. apply wrapper_init_Ok in Hinit
      as (g0 & _ & Hfresh & _ & _ & _ & Hc & _).
    rewrite Hc. split; [lra |]. intros i q Hq.
    destruct (Hfresh i q Hq) as (Hi & _ & _ & Harr & Hsv & Hdep & _).
    constructor; rewrite ?Harr, ?Hdep, ?Hi.
    + intros a b x y _ Hx. discriminate.
    + intros a b x y _ Hx. discriminate.
    + constructor.
    + constructor.
    + intros a dk Hk. discriminate.
    + lia.
  - intros j s s' Hrun [H0 Ht] Hit.
    pose proof (run_accounting _ _ _ Hrun) as Hacc.
    pose proof (run_mirrors _ _ _ Hrun) as Hm.
    destruct (run_clock_ok _ _ _ Hnn Hrun) as [[Hev _ _] _].
    apply iteration_Ok in Hit
      as (t & job & nd & evs0 & evs1 & sts1 & dest & g1
          & Hpop & Hdisp & Hdel & _ & _ & Hcurr & _).
    apply heappop_Permutation in Hpop.
    assert (Hacc0 : accounting (stations s) ((t, job, nd) :: evs0)).
    { intros i q Hq. rewrite <- (pending_Permutation _ _ _ Hpop).
      apply Hacc. exact Hq. }
    apply (mirrors_Permutation _ _ _ _ Hpop) in Hm.
    assert (Hct : (curr s <= t)%Q).
    { apply (Hev (t, job, nd)). rewrite Hpop. apply list_elem_of_here. }
    rewrite Hcurr. split; [lra |].
    eapply deliver_timing; [| | | exact Hdel].
    + eapply dispatch_accounting; eauto.
    + eapply dispatch_timing; eauto.
    + lra.
Qed.
End RecordedTimes.

(** ** What the stations record *)

Lemma pending_elem (nd : node) (evs : list event) (e : event) :
  e ∈ evs -> ev_node e = nd -> (1 <= pending nd evs)%nat.
Proof.
  intros He Hn.
  destruct (pending nd evs) eqn:E; [| lia].
  exfalso. exact (proj1 (pending_zero _ _) E e He Hn).
Qed.

(** X1. In every run, each station serves in the order of arrival: the
    list [all_jobs] is made of the jobs that have left, one per recorded
    departure, followed by the job in service and the jobs of the deque in
    their order; an empty station has an empty deque. *)
Theorem first_come_first_served `{Numpy} (p : params) (k : nat) (s : state)
    (i : nat) (q : Queue.t) :
  run p k = Ok s -> stations s !! i = Some q ->
  let d := length (Queue.departure_times q) in
  Queue.all_jobs q = take d (Queue.all_jobs q) ++ present q /\
  length (take d (Queue.all_jobs q)) = d /\
  (Queue.in_system q = 0%Z -> Queue.jobs_in_system q = []) /\
  Z.of_nat (length (present q)) = Queue.in_system q.
Proof.
  intros Hrun Hq d.
  pose proof (run_fcfs _ _ _ Hrun i q Hq) as Hf.
  destruct (run_accounting _ _ _ Hrun i q Hq) as [Hb Hn _ _ _ _ Hw Hall _].
  unfold fcfs in Hf. fold d in Hf.
  split; [rewrite <- Hf; symmetry; apply take_drop |].
  split; [rewrite length_take; lia |].
  split.
  - intros Hz. destruct (Queue.jobs_in_system q); [reflexivity |].
    simpl in Hw. lia.
  - unfold present. destruct (Queue.in_system q =? 0)%Z eqn:E.
    + apply Z.eqb_eq in E. simpl. lia.
    + apply Z.eqb_neq in E. simpl length. lia.
Qed.

Lemma first_come_first_served_witness :
  @run tandem_numpy tandem 12 = Ok tandem_state /\
  stations tandem_state !! 3%nat = Some tandem_last_station /\
  Queue.all_jobs tandem_last_station
  = take 1 (Queue.all_jobs tandem_last_station)
    ++ present tandem_last_station /\
  present tandem_last_station = [Some 1%Z; Some 2%Z].
Proof.
  split; [vm_compute; reflexivity |].
  split; [vm_compute; reflexivity |].
  split; [| vm_compute; reflexivity].
  apply (@first_come_first_served tandem_numpy tandem 12 tandem_state 3
           tandem_last_station); vm_compute; reflexivity.
Defined.

(** X2. In every run, an entry of the heap is the current triple of its
    node.  The entry of the source is [(time_next, next_job, 'Source')].
    The entry of station [i] carries the station's [finish_time] and
    [next_job]; the station then holds a job, and the job of the entry is
    the earliest arrival that has not left. *)
Theorem heap_entries_are_current `{Numpy} (p : params) (k : nat) (s : state)
    (e : event) :
  run p k = Ok s -> e ∈ events s ->
  match ev_node e with
  | NSource =>
      e = (Source.time_next (source s), Some (Source.next_job (source s)),
           NSource)
  | NStation i =>
      exists q : Queue.t,
        stations s !! i = Some q /\
        e = (Queue.finish_time q, Queue.next_job q, NStation i) /\
        (1 <= Queue.in_system q)%Z /\
        Queue.all_jobs q !! length (Queue.departure_times q)
        = Some (ev_job e)
  end.
Proof.
  intros Hrun He.
  pose proof (run_mirrors _ _ _ Hrun e He) as Hm.
  destruct (ev_node e) as [| i] eqn:En; [exact Hm |].
  destruct Hm as (q & Hq & Heq). exists q.
  split; [exact Hq |]. split; [exact Heq |].
  destruct (run_accounting _ _ _ Hrun i q Hq) as [_ _ Hone Hbusy _ _ _ _ _].
  pose proof (pending_elem _ _ _ He En) as Hp.
  assert (Hin : (1 <= Queue.in_system q)%Z) by (apply Hbusy; lia).
  split; [exact Hin |].
  pose proof (run_fcfs _ _ _ Hrun i q Hq) as Hf.
  unfold fcfs, present in Hf.
  replace (Queue.in_system q =? 0)%Z with false in Hf
    by (symmetry; apply Z.eqb_neq; lia).
  rewrite <- (Nat.add_0_r (length (Queue.departure_times q))).
  rewrite <- lookup_drop, Hf, Heq. reflexivity.
Qed.

Lemma heap_entries_are_current_witness :
  @run tandem_numpy tandem 12 = Ok tandem_state /\
  ((896 # 128)%Q, Some 1%Z, NStation 3) ∈ events tandem_state /\
  exists q : Queue.t,
    stations tandem_state !! 3%nat = Some q /\
    ((896 # 128)%Q, Some 1%Z, NStation 3)
    = (Queue.finish_time q, Queue.next_job q, NStation 3) /\
    (1 <= Queue.in_system q)%Z /\
    Queue.all_jobs q !! length (Queue.departure_times q) = Some (Some 1%Z).
Proof.
  assert (Hrun : @run tandem_numpy tandem 12 = Ok tandem_state)
    by (vm_compute; reflexivity).
  assert (He : ((896 # 128)%Q, Some 1%Z, NStation 3) ∈ events tandem_state).
  { apply list_elem_of_further, list_elem_of_further, list_elem_of_here. }
  split; [exact Hrun |]. split; [exact He |].
  exact (@heap_entries_are_current tandem_numpy tandem 12 tandem_state
           _ Hrun He).
Defined.

Lemma differences_lookup (l : list Q) :
  forall (j : nat) (x : Q),
    differences l !! j = Some x ->
    exists a b : Q, l !! j = Some a /\ l !! S j = Some b /\ x = (b - a)%Q.
Proof.
  induction l as [| i [| j' l'] IH]; intros j x Hx; [discriminate.. |].
  change (differences (i :: j' :: l'))
    with ((j' - i)%Q :: differences (j' :: l')) in Hx.
  destruct j as [| j].
  - simpl in Hx. injection Hx as <-. exists i, j'. auto.
  - simpl in Hx. apply IH in Hx as (a & b & Ha & Hb & ->).
    exists a, b. auto.
Qed.

Lemma recorded_interarrivals_lookup (q : Queue.t) (j : nat) (x : Q) :
  recorded_interarrivals q !! S j = Some x ->
  exists a b : Q,
    Queue.arrival_times q !! j = Some a /\
    Queue.arrival_times q !! S j = Some b /\ x = (b - a)%Q.
Proof.
  unfold recorded_interarrivals.
  destruct (Queue.arrival_times q) as [| a0 l]; [discriminate |].
  intros Hx. change ((a0 :: differences (a0 :: l)) !! S j)
    with (differences (a0 :: l) !! j) in Hx.
  apply differences_lookup in Hx. exact Hx.
Qed.

Lemma nondecreasing_tail (x : Q) (l : list Q) :
  nondecreasing (x :: l) -> nondecreasing l.
Proof.
  intros Hl i j a b Hij Ha Hb.
  apply (Hl (S i) (S j)); [lia | exact Ha | exact Hb].
Qed.

Lemma differences_nonneg (l : list Q) :
  nondecreasing l -> Forall (fun x => (0 <= x)%Q) (differences l).
Proof.
  induction l as [| i [| j' l'] IH]; intros Hl; [constructor.. |].
  change (differences (i :: j' :: l'))
    with ((j' - i)%Q :: differences (j' :: l')).
  constructor.
  - assert (i <= j')%Q
      by (apply (Hl 0%nat 1%nat); [lia | reflexivity | reflexivity]).
    lra.
  - apply IH. eapply nondecreasing_tail; eauto.
Qed.

Lemma max0_later (x b d : Q) :
  (x == d - b)%Q -> (max0 x == later b d - b)%Q.
Proof.
  intros Hx. unfold max0, later.
  destruct (Qlt_bool 0 x) eqn:E1; destruct (Qlt_bool b d) eqn:E2;
    rewrite ?Qlt_bool_iff, ?Qlt_bool_false in *; lra.
Qed.

(** What [extractor] returns for a station. *)
Lemma extractor_Ok (system : state) (k : nat) (q : Queue.t) (ex : extracted) :
  stations system !! k = Some q -> extractor system k = Ok ex ->
  interarrival_times ex = recorded_interarrivals q /\
  ex_service_times ex = Queue.service_times q /\
  job_ids ex = Queue.all_jobs q /\
  length (waiting_times ex) = length (Queue.service_times q) /\
  lindley (Queue.service_times q) (recorded_interarrivals q)
          (waiting_times ex) /\
  (forall w0 : Q, waiting_times ex !! 0%nat = Some w0 -> w0 = 0%Q).
Proof.
  intros Hq. unfold extractor.
  apply get_station_Ok in Hq. rewrite Hq. simpl.
  fold (recorded_interarrivals q).
  destruct (Queue.service_times q) as [| s0 srest] eqn:Es.
  - intros [= <-]. simpl. repeat split; auto; intros; discriminate.
  - intros Hex.
    destruct (waiting_loop (s0 :: srest) (recorded_interarrivals q) 1
                (length (s0 :: srest) - 1) [0%Q]) as [w |] eqn:Ew;
      [| discriminate].
    simpl in Hex. injection Hex as <-. simpl.
    apply waiting_loop_spec in Ew.
    + destruct Ew as (Hl & Hlin & H0 & Hpos).
      repeat split; auto.
      * rewrite Hl. simpl. lia.
      * intros w0 Hw0. congruence.
    + reflexivity.
    + intros i wi Hi. destruct i; discriminate.
    + reflexivity.
    + constructor; [lra | constructor].
Qed.

(** X3. With non-negative increments, every departure that a station
    records is at the start of the job's service plus its service time,
    where the service of the first job starts at its arrival and the service
    of a later job starts at its arrival or at the departure of the job
    before it, whichever is later. *)
Theorem departure_is_start_plus_service `{Numpy} (p : params) (k : nat)
    (s : state) (i : nat) (q : Queue.t) (j : nat) (dj : Q) :
  nonneg_increments ->
  run p k = Ok s -> stations s !! i = Some q ->
  Queue.departure_times q !! j = Some dj ->
  exists st sj : Q,
    service_start q j = Some st /\
    Queue.service_times q !! j = Some sj /\
    (dj == st + sj)%Q.
Proof.
  intros Hnn Hrun Hq Hj.
  destruct (run_timing _ _ _ Hnn Hrun) as [_ Ht].
  destruct (Ht i q Hq) as [_ _ _ _ Hdep _].
  apply Hdep. exact Hj.
Qed.

Lemma departure_is_start_plus_service_witness :
  @run tandem_numpy tandem 12 = Ok tandem_state /\
  stations tandem_state !! 3%nat = Some tandem_last_station /\
  Queue.departure_times tandem_last_station !! 0%nat = Some (240 # 64)%Q /\
  exists st sj : Q,
    service_start tandem_last_station 0 = Some st /\
    Queue.service_times tandem_last_station !! 0%nat = Some sj /\
    (240 # 64 == st + sj)%Q.
Proof.
  split; [vm_compute; reflexivity |].
  split; [vm_compute; reflexivity |].
  split; [vm_compute; reflexivity |].
  apply (@departure_is_start_plus_service tandem_numpy tandem 12 tandem_state
           3 tandem_last_station 0 (240 # 64)%Q tandem_nonneg_increments);
    vm_compute; reflexivity.
Defined.

(** X4. With non-negative increments, the arrival times and the departure
    times that a station records are in non-decreasing order and lie between
    0 and the clock, so that no interarrival time [extractor] derives from
    them is negative. *)
Theorem recorded_times_are_ordered `{Numpy} (p : params) (k : nat)
    (s : state) (i : nat) (q : Queue.t) :
  nonneg_increments ->
  run p k = Ok s -> stations s !! i = Some q ->
  nondecreasing (Queue.arrival_times q) /\
  nondecreasing (Queue.departure_times q) /\
  before (curr s) (Queue.arrival_times q) /\
  before (curr s) (Queue.departure_times q) /\
  Forall (fun x => (0 <= x)%Q) (recorded_interarrivals q).
Proof.
  intros Hnn Hrun Hq.
  destruct (run_timing _ _ _ Hnn Hrun) as [_ Ht].
  destruct (Ht i q Hq) as [Ha Hd Hb Hl _ _].
  repeat split; auto.
  unfold recorded_interarrivals.
  destruct (Queue.arrival_times q) as [| a0 l] eqn:E; [constructor |].
  constructor.
  - apply Forall_cons in Hb as [[H0 _] _]. exact H0.
  - apply differences_nonneg. exact Ha.
Qed.

Lemma recorded_times_are_ordered_witness :
  @run tandem_numpy tandem 12 = Ok tandem_state /\
  stations tandem_state !! 3%nat = Some tandem_last_station /\
  nondecreasing (Queue.arrival_times tandem_last_station) /\
  nondecreasing (Queue.departure_times tandem_last_station) /\
  before (curr tandem_state) (Queue.arrival_times tandem_last_station) /\
  before (curr tandem_state) (Queue.departure_times tandem_last_station) /\
  Forall (fun x => (0 <= x)%Q) (recorded_interarrivals tandem_last_station).
Proof.
  split; [vm_compute; reflexivity |].
  split; [vm_compute; reflexivity |].
  apply (@recorded_times_are_ordered tandem_numpy tandem 12 tandem_state 3
           tandem_last_station tandem_nonneg_increments);
    vm_compute; reflexivity.
Defined.

(** X5. With non-negative increments, the waiting times that [extractor]
    computes by the recursion are the waits of the run: the [j]-th one is
    the start of the [j]-th job's service minus its arrival time, and once
    the job has left, its departure time is its arrival time plus its
    waiting time plus its service time. *)
Theorem waiting_times_are_waits `{Numpy} (p : params) (k : nat) (s : state)
    (i : nat) (q : Queue.t) (ex : extracted) (j : nat) (wj : Q) :
  nonneg_increments ->
  run p k = Ok s -> stations s !! i = Some q ->
  extractor s i = Ok ex -> waiting_times ex !! j = Some wj ->
  exists aj st : Q,
    Queue.arrival_times q !! j = Some aj /\
    service_start q j = Some st /\
    (wj == st - aj)%Q /\
    forall dj : Q, Queue.departure_times q !! j = Some dj ->
      exists sj : Q, Queue.service_times q !! j = Some sj /\
                     (dj == aj + wj + sj)%Q.
Proof.
  intros Hnn Hrun Hq Hex Hj.
  destruct (run_timing _ _ _ Hnn Hrun) as [_ Ht].
  destruct (Ht i q Hq) as [_ _ _ _ Hdep _].
  destruct (run_services_le_arrivals _ _ _ _ _ Hrun Hq) as [_ Hsa].
  destruct (run_accounting _ _ _ Hrun i q Hq) as [_ Hn _ _ Hsb Hsi _ _ _].
  destruct (extractor_Ok _ _ _ _ Hq Hex) as (_ & _ & _ & Hlen & Hlin & H0).
  assert (Hmain : exists aj st : Q,
             Queue.arrival_times q !! j = Some aj /\
             service_start q j = Some st /\ (wj == st - aj)%Q).
  { clear Hsa. revert wj Hj. induction j as [| j IH]; intros wj Hj.
    - rewrite (H0 wj Hj).
      destruct (lookup_lt_is_Some_2 (Queue.arrival_times q) 0) as [a0 Ha0].
      { apply lookup_lt_Some in Hj.
        destruct (run_services_le_arrivals _ _ _ _ _ Hrun Hq). lia. }
      exists a0, a0. unfold service_start. rewrite Ha0. simpl.
      repeat split; auto. lra.
    - destruct (Hlin j wj Hj) as (wp & sp & ai & Hwp & Hsp & Hai & ->).
      destruct (IH wp Hwp) as (ap & stp & Hap & Hstp & Hwpe).
      apply recorded_interarrivals_lookup in Hai
        as (a & b & Ha & Hb & ->).
      rewrite Hap in Ha. injection Ha as <-.
      destruct (lookup_lt_is_Some_2 (Queue.departure_times q) j) as [dp Hdp].
      { apply lookup_lt_Some in Hj.
        destruct (Z.eq_dec (Queue.in_system q) 0%Z) as [E | E].
        - rewrite (Hsi E) in Hlen. lia.
        - rewrite Hsb in Hlen by lia. lia. }
      destruct (Hdep j dp Hdp) as (st' & sk' & Hst' & Hsk' & He).
      rewrite Hstp in Hst'. injection Hst' as <-.
      rewrite Hsp in Hsk'. injection Hsk' as <-.
      exists b, (later b dp). unfold service_start. rewrite Hb, Hdp. simpl.
      repeat split; auto.
      apply max0_later. rewrite Hwpe, He. ring. }
  destruct Hmain as (aj & st & Haj & Hst & Hw).
  exists aj, st. repeat split; auto.
  intros dj Hdj.
  destruct (Hdep j dj Hdj) as (st' & sj & Hst' & Hsj & He).
  rewrite Hst in Hst'. injection Hst' as <-.
  exists sj. split; [exact Hsj |]. rewrite He, Hw. ring.
Qed.

Lemma waiting_times_are_waits_witness :
  @run tandem_numpy tandem 12 = Ok tandem_state /\
  stations tandem_state !! 3%nat = Some tandem_last_station /\
  extractor tandem_state 3 = Ok tandem_extracted /\
  waiting_times tandem_extracted !! 1%nat = Some 0%Q /\
  exists aj st : Q,
    Queue.arrival_times tandem_last_station !! 1%nat = Some aj /\
    service_start tandem_last_station 1 = Some st /\
    (0 == st - aj)%Q.
Proof.
  split; [vm_compute; reflexivity |].
  split; [vm_compute; reflexivity |].
  split; [vm_compute; reflexivity |].
  split; [vm_compute; reflexivity |].
  destruct (@waiting_times_are_waits tandem_numpy tandem 12 tandem_state 3
              tandem_last_station tandem_extracted 1 0%Q
              tandem_nonneg_increments)
    as (aj & st & Ha & Hs & Hw & _); try (vm_compute; reflexivity).
  exists aj, st. auto.
Defined.

(** * The streams of the source *)

Section Streams.
Context `{Numpy}.

Lemma for_range_indices {A} (f : nat -> M (A * nat)) :
  (forall i g x g', f i g = Ok (x, g') -> x.2 = i) ->
  forall (n i g : nat) (l : list (A * nat)) (g' : nat),
    for_range f i n g = Ok (l, g') -> map snd l = seq i n.
Proof.
  intros Hf. induction n as [| n IH]; intros i g l g' Hrun; simpl in Hrun.
  - unfold ret in Hrun. injection Hrun as <- _. reflexivity.
  - unfold bind, ret in Hrun.
    destruct (f i g) as [[x g1] |] eqn:Ef; [| discriminate].
    destruct (for_range f (S i) n g1) as [[l' g2] |] eqn:El; [| discriminate].
    injection Hrun as <- _. simpl. f_equal; eauto.
Qed.

Lemma source_init_streams (am : list Q) (sm : list (list Q)) (d : family)
    (covs : list Q) (r : Q) (g g' : nat) (src : Source.t) :
  Source.init am sm d covs r g = Ok (src, g') ->
  Source.number_of_sources src = length am /\
  map snd (Source.next_arrival src) = seq 0 (length am) /\
  Source.source_matrix src = sm /\
  Source.distribution src = d /\
  (d = Exponential -> Source.mu src = am) /\
  exists row0, sm !! 0%nat = Some row0 /\
               Source.number_of_nodes src = length row0.
Proof.
  unfold Source.init, bind, lift, ret. intros Hrun.
  destruct (index sm 0) as [row0 |] eqn:E0; [| discriminate].
  apply index_Ok in E0.
  destruct d.
  - destruct (for_each float_sq am) as [sgs |]; [| discriminate].
    destruct (for_range _ 0 (length am) g) as [[heap g1] |] eqn:Eh;
      [| discriminate].
    destruct (heap_top arrival_lt heap) as [[tn ns] |] eqn:Et;
      [| discriminate].
    destruct (index sm ns) as [row |]; [| discriminate].
    destruct (np_random_choice _ row g1) as [[dst g2] |]; [| discriminate].
    injection Hrun as <- _. simpl.
    repeat split; eauto.
    eapply for_range_indices; [| exact Eh].
    intros i g0 x g0'. unfold bind, lift, ret.
    destruct (index am i) as [m |]; [| discriminate].
    destruct (np_random_exponential m g0) as [[y g3] |]; [| discriminate].
    intros [= <- _]. reflexivity.
  - destruct (for_each _ covs) as [sgs |]; [| discriminate].
    destruct (for_range_pure _ 0 (length am)) as [mus |]; [| discriminate].
    destruct (for_range _ 0 (length am) g) as [[heap g1] |] eqn:Eh;
      [| discriminate].
    destruct (for_range_pure _ 0 (length am)) as [prev |]; [| discriminate].
    destruct (heap_top arrival_lt heap) as [[tn ns] |] eqn:Et;
      [| discriminate].
    destruct (index sm ns) as [row |]; [| discriminate].
    destruct (np_random_choice _ row g1) as [[dst g2] |]; [| discriminate].
    injection Hrun as <- _. simpl.
    repeat split; eauto; try discriminate.
    eapply for_range_indices; [| exact Eh].
    intros i g0 x g0'. unfold bind, lift, ret.
    destruct (index mus i) as [m |]; [| discriminate].
    destruct (index _ i) as [sg |]; [| discriminate].
    destruct (np_random_lognormal m sg g0) as [[y g3] |]; [| discriminate].
    intros [= <- _]. reflexivity.
  - discriminate.
Qed.

(** The destination that [Source.action_out] stores is drawn over the row
    of the stream that is due next, after the variate of the increment. *)
Lemma source_action_out_draw (t : Q) (self self' : Source.t) (g g' : nat) :
  Source.action_out t self g = Ok (self', g') ->
  Source.number_of_sources self' = Source.number_of_sources self /\
  exists row : list Q,
    Source.source_matrix self !! Source.next_source self' = Some row /\
    np_random_choice (Source.number_of_nodes self) row (S g)
    = Ok (Source.next_destination self', g').
Proof.
  unfold Source.action_out, bind, lift, ret, bound. intros Hrun.
  destruct (Source.distribution self) eqn:Edist.
  - destruct (index (Source.mu self) (Source.next_source self)) as [m |]
      eqn:Em; try discriminate Hrun.
    unfold np_random_exponential in Hrun.
    destruct (Qlt_bool m 0) eqn:Eneg; try discriminate Hrun.
    destruct (heappop arrival_lt (Source.next_arrival self))
      as [[least popped] |] eqn:Epop; try discriminate Hrun.
    destruct (heap_top arrival_lt _) as [[tn ns] |] eqn:Etop;
      try discriminate Hrun.
    destruct (index (Source.source_matrix self) ns) as [row |] eqn:Er;
      try discriminate Hrun.
    destruct (np_random_choice _ row _) as [[d g2] |] eqn:Ec;
      try discriminate Hrun.
    injection Hrun as <- <-. simpl.
    split; [reflexivity |]. exists row. apply index_Ok in Er. auto.
  - destruct (index (Source.previous_arrival self) (Source.next_source self))
      as [lastn |]; try discriminate Hrun.
    unfold np_random_normal in Hrun. simpl in Hrun.
    destruct (index (Source.sigma self) (Source.next_source self)) as [sg |];
      try discriminate Hrun.
    destruct (index (Source.mu self) (Source.next_source self)) as [m |];
      try discriminate Hrun.
    destruct (heappop arrival_lt (Source.next_arrival self))
      as [[least popped] |] eqn:Epop; try discriminate Hrun.
    destruct (heap_top arrival_lt _) as [[tn ns] |] eqn:Etop;
      try discriminate Hrun.
    destruct (index (Source.source_matrix self) ns) as [row |] eqn:Er;
      try discriminate Hrun.
    destruct (np_random_choice _ row _) as [[d g2] |] eqn:Ec;
      try discriminate Hrun.
    injection Hrun as <- <-. simpl.
    split; [reflexivity |]. exists row. apply index_Ok in Er. auto.
  - destruct (heappop arrival_lt (Source.next_arrival self))
      as [[least popped] |]; discriminate Hrun.
Qed.

Lemma heap_top_pop {A} (lt : A -> A -> result bool) (h r : list A) (m e : A) :
  heap_top lt h = Ok m -> heappop lt h = Ok (e, r) -> e = m.
Proof.
  unfold heap_top. intros Ht Hp. rewrite Hp in Ht. simpl in Ht. congruence.
Qed.

Lemma source_action_out_streams (t : Q) (self self' : Source.t) (g g' : nat) :
  streams_ok self ->
  Source.action_out t self g = Ok (self', g') -> streams_ok self'.
Proof.
  intros [Hperm Htop] Hout.
  pose proof (source_action_out_draw _ _ _ _ _ Hout) as [Hn _].
  apply source_action_out_Ok in Hout
    as (_ & _ & _ & _ & _ & _ & _ & inc & least & popped & _ & Hpop & Hnew
        & Htop').
  split; [| exact Htop'].
  rewrite Hn, <- Hperm, Hnew, map_app. simpl.
  pose proof (heap_top_pop _ _ _ _ _ Htop Hpop) as ->.
  apply heappop_Permutation in Hpop. rewrite Hpop. simpl.
  symmetry. apply Permutation_cons_append.
Qed.

Lemma iteration_source (s s' : state) :
  iteration s = Ok s' ->
  source s' = source s \/
  exists (t : Q) (g' : nat),
    Source.action_out t (source s) (rng s) = Ok (source s', g').
Proof.
  intros Hit.
  apply iteration_Ok in Hit
    as (t & job & nd & evs0 & evs1 & sts1 & dest & g1
        & _ & Hdisp & _).
  apply dispatch_Ok in Hdisp
    as [(_ & Hout & _) | (k0 & q0 & q1 & _ & _ & _ & Hsrc & _)].
  - right. eauto.
  - left. exact Hsrc.
Qed.

Lemma run_streams (p : params) (k : nat) (s : state) :
  run p k = Ok s ->
  streams_ok (source s) /\
  Source.number_of_sources (source s) = length (arrival_means p).
Proof.
  revert k s. apply (run_ind p).
  - intros s0 Hinit. apply wrapper_init_Ok in Hinit as (g0 & Hsrc & _).
    pose proof (source_init_Ok _ _ _ _ _ _ _ _ Hsrc) as (_ & Htop & _).
    apply source_init_streams in Hsrc as (Hn & Hidx & _).
    split; [| exact Hn]. split; [| exact Htop].
    rewrite Hn, Hidx. reflexivity.
  - intros j s s' _ [Hst Hn] Hit.
    destruct (iteration_source _ _ Hit) as [-> | (t & g' & Hout)]; [auto |].
    split; [eapply source_action_out_streams; eauto |].
    apply source_action_out_draw in Hout as [-> _]. exact Hn.
Qed.
End Streams.

(** X6. In every run the heap of the source holds exactly one next-arrival
    time per stream, and the stored [(time_next, next_source)] is an entry
    of it that no other entry precedes: the stream that fires next is the
    one with the smallest next-arrival time. *)
Theorem one_entry_per_stream `{Numpy} (p : params) (k : nat) (s : state) :
  run p k = Ok s ->
  let src := source s in
  Source.number_of_sources src = length (arrival_means p) /\
  map snd (Source.next_arrival src) ≡ₚ seq 0 (Source.number_of_sources src) /\
  (Source.time_next src, Source.next_source src) ∈ Source.next_arrival src /\
  (forall a, a ∈ Source.next_arrival src -> (Source.time_next src <= a.1)%Q) /\
  (Source.next_source src < Source.number_of_sources src)%nat.
Proof.
  intros Hrun src.
  destruct (run_streams _ _ _ Hrun) as [[Hperm Htop] Hn].
  fold src in Hperm, Htop, Hn.
  apply arrival_top_least in Htop as [Hin Hleast].
  repeat split; auto.
  assert (Hs : Source.next_source src ∈ map snd (Source.next_arrival src)).
  { apply list_elem_of_fmap. eexists. split; [| exact Hin]. reflexivity. }
  rewrite Hperm in Hs. apply elem_of_seq in Hs. lia.
Qed.

Lemma one_entry_per_stream_witness :
  @run two_streams_draws two_streams 1 = Ok two_streams_state /\
  map snd (Source.next_arrival (source two_streams_state)) ≡ₚ seq 0 2 /\
  Source.next_source (source two_streams_state) = 1%nat /\
  (forall a, a ∈ Source.next_arrival (source two_streams_state) ->
             (Source.time_next (source two_streams_state) <= a.1)%Q).
Proof.
  assert (Hrun : @run two_streams_draws two_streams 1 = Ok two_streams_state)
    by (vm_compute; reflexivity).
  destruct (@one_entry_per_stream two_streams_draws two_streams 1
              two_streams_state Hrun) as (_ & Hperm & _ & Hleast & _).
  split; [exact Hrun |]. split; [exact Hperm |].
  split; [vm_compute; reflexivity | exact Hleast].
Defined.

(** * Well-formed exponential networks *)




Section Progress.
Context `{Numpy}.



















End Progress.






(** * The counter of the loop and the end of the events *)

Section Counter.
Context `{Numpy}.

Lemma iteration_length (s s' : state) :
  iteration s = Ok s' -> length (stations s') = length (stations s).
Proof.
  intros Hit.
  apply iteration_Ok in Hit
    as (t & job & nd & evs0 & evs1 & sts1 & dest & g1
        & _ & Hdisp & Hdel & _).
  apply dispatch_Ok in Hdisp
    as [(_ & _ & -> & _) | (k0 & q0 & q1 & _ & _ & _ & _ & -> & _)];
    apply deliver_Ok in Hdel
      as (d & _ & [(_ & -> & _) | (_ & q & q2 & _ & _ & -> & _)]);
    rewrite ?length_insert; reflexivity.
Qed.

Lemma departures_nonneg (sts : list Queue.t) (m : Z) :
  py_min (map departures sts) = Ok m -> (0 <= m)%Z.
Proof.
  intros Hm. apply py_min_spec in Hm as [Hin _].
  apply list_elem_of_fmap in Hin as (q & -> & _). unfold departures. lia.
Qed.

Lemma iteration_jobs_le (s s' : state) :
  iteration s = Ok s' ->
  py_min (map departures (stations s)) = Ok (jobs s) ->
  (jobs s <= jobs s')%Z.
Proof.
  intros Hit Hmin. pose proof (iteration_length _ _ Hit) as Hlen.
  pose proof Hit as Hit'.
  apply iteration_Ok in Hit'
    as (t & job & nd & evs0 & evs1 & sts1 & dest & g1 & _ & _ & _ & _ & _ & _
        & Hmin').
  apply py_min_spec in Hmin' as [Hin _].
  apply list_elem_of_fmap in Hin as (q' & Hj & Hq').
  apply list_elem_of_lookup in Hq' as [i Hq'].
  destruct (lookup_lt_is_Some_2 (stations s) i) as [q Hq].
  { apply lookup_lt_Some in Hq'. lia. }
  destruct (iteration_history _ _ _ _ Hit Hq) as (q'' & Hq'' & Hpre).
  rewrite Hq' in Hq''. injection Hq'' as <-.
  apply prefix_length in Hpre.
  apply py_min_spec in Hmin as [_ Hle].
  assert (jobs s <= departures q)%Z.
  { apply Hle. apply list_elem_of_fmap. exists q. split; [reflexivity |].
    eapply list_elem_of_lookup_2; eauto. }
  rewrite Hj. unfold departures in *. lia.
Qed.

Lemma run_jobs_min (p : params) (k : nat) (s : state) :
  run p k = Ok s ->
  jobs s = 0%Z \/ py_min (map departures (stations s)) = Ok (jobs s).
Proof.
  destruct k as [| k]; intros Hrun.
  - apply run_0, wrapper_init_Ok in Hrun
      as (g0 & _ & _ & _ & _ & _ & _ & Hj & _).
    left. exact Hj.
  - apply run_S in Hrun as (s1 & _ & Hit).
    apply iteration_Ok in Hit
      as (t & job & nd & evs0 & evs1 & sts1 & dest & g1 & _ & _ & _ & _ & _
          & _ & Hmin).
    right. exact Hmin.
Qed.

Lemma run_jobs_monotone (p : params) (j k : nat) (a b : state) :
  run p j = Ok a -> run p k = Ok b -> (j <= k)%nat ->
  (jobs a <= jobs b)%Z.
Proof.
  intros Ha. revert b. induction k as [| k IH]; intros b Hb Hjk.
  - assert (j = 0%nat) as -> by lia. rewrite Ha in Hb. injection Hb as <-.
    lia.
  - destruct (decide (j = S k)) as [-> | Hne].
    + rewrite Ha in Hb. injection Hb as <-. lia.
    + apply run_S in Hb as (s & Hs & Hit).
      specialize (IH s Hs ltac:(lia)).
      assert (jobs s <= jobs b)%Z; [| lia].
      destruct (run_jobs_min _ _ _ Hs) as [Hz | Hmin].
      * rewrite Hz.
        apply iteration_Ok in Hit
          as (t & job & nd & evs0 & evs1 & sts1 & dest & g1 & _ & _ & _ & _
              & _ & _ & Hmin).
        eapply departures_nonneg; eauto.
      * apply iteration_jobs_le; assumption.
Qed.

Lemma loop_reaches_raise (final : Z) (e : exn) (k : nat) :
  forall (s s' : state) (fuel : nat),
    iterations k s = Ok s' -> iteration s' = Raise e ->
    (forall j sj, (j <= k)%nat -> iterations j s = Ok sj ->
                  (jobs sj < final)%Z) ->
    (k < fuel)%nat ->
    loop fuel final s = Some (Raise e).
Proof.
  induction k as [| k IH]; intros s s' fuel Hit Hr Hbelow Hfuel.
  - simpl in Hit. injection Hit as <-.
    destruct fuel as [| fuel]; [lia |]. simpl.
    replace (jobs s <? final)%Z with true
      by (symmetry; apply Z.ltb_lt; apply (Hbelow 0%nat); [lia | reflexivity]).
    rewrite Hr. reflexivity.
  - rewrite iterations_S_front in Hit.
    destruct (iteration s) as [s1 |] eqn:E1; [| discriminate].
    simpl in Hit.
    destruct fuel as [| fuel]; [lia |]. simpl.
    replace (jobs s <? final)%Z with true
      by (symmetry; apply Z.ltb_lt; apply (Hbelow 0%nat); [lia | reflexivity]).
    rewrite E1. apply (IH s1 s'); auto; [| lia].
    intros j sj Hj Hsj. apply (Hbelow (S j)); [lia |].
    rewrite iterations_S_front, E1. exact Hsj.
Qed.
End Counter.

(** X8. The counter [jobs] of the loop never decreases during a run.  When
    a run reaches a state whose heap is empty while the counter is still
    below the target, the next pass raises [IndexError] at
    [heapq.heappop(events)]: with fuel for that pass [wrapper] ends in this
    exception, it neither returns nor loops on. *)
Theorem stalled_simulation_raises_IndexError `{Numpy} (p : params) (k : nat)
    (s : state) :
  run p k = Ok s ->
  (forall (j : nat) (a : state),
     run p j = Ok a -> (j <= k)%nat -> (jobs a <= jobs s)%Z) /\
  (events s = [] -> (jobs s < final_jobs p)%Z ->
   iteration s = Raise IndexError /\
   forall fuel : nat, (k < fuel)%nat ->
     wrapper fuel p = Some (Raise IndexError)).
Proof.
  intros Hrun. split.
  - intros j a Ha Hj. eapply run_jobs_monotone; eauto.
  - intros Hev Hlt.
    assert (Hr : iteration s = Raise IndexError).
    { unfold iteration. rewrite Hev. reflexivity. }
    split; [exact Hr |]. intros fuel Hfuel.
    unfold wrapper. unfold run in Hrun.
    destruct (wrapper_init p) as [s0 |] eqn:E0; [| discriminate].
    simpl in Hrun.
    apply (loop_reaches_raise _ _ k s0 s); auto.
    intros j sj Hj Hsj.
    assert (Hrunj : run p j = Ok sj) by (unfold run; rewrite E0; exact Hsj).
    assert (Hrunk : run p k = Ok s) by (unfold run; rewrite E0; exact Hrun).
    pose proof (run_jobs_monotone _ _ _ _ _ Hrunj Hrunk Hj). lia.
Qed.

Lemma stalled_simulation_raises_IndexError_witness :
  @run tandem_numpy absorbed 2 = Ok absorbed_state /\
  events absorbed_state = [] /\
  jobs absorbed_state = 1%Z /\
  @wrapper tandem_numpy 3 absorbed = Some (Raise IndexError).
Proof.
  assert (Hrun : @run tandem_numpy absorbed 2 = Ok absorbed_state)
    by (vm_compute; reflexivity).
  split; [exact Hrun |]. split; [reflexivity |]. split; [reflexivity |].
  destruct (@stalled_simulation_raises_IndexError tandem_numpy absorbed 2
              absorbed_state Hrun) as [_ Hstall].
  apply Hstall; [reflexivity | reflexivity | lia].
Defined.

(** * Unsupported distribution names *)

(** X9. A distribution name other than ['Exponential'] and ['Lognormal'] is
    not rejected by a check.  [wrapper], given such a name and non-empty
    matrices, ends in the [AttributeError] that [Source.__init__] raises
    when it reads the attribute [next_arrival] it has never set; and a
    [Queue] built with such a name is constructed, and raises
    [UnboundLocalError] when its first job arrives. *)
Theorem unsupported_family_raises `{Numpy} :
  (forall p : params,
     distribution p = Unsupported ->
     transition_matrix p <> [] -> source_matrix p <> [] ->
     wrapper_init p = Raise AttributeError /\
     forall fuel : nat, wrapper fuel p = Some (Raise AttributeError)) /\
  (forall (service_mean : Q) (destination : list Q) (cov t : Q)
          (job : option Z) (g : nat),
     exists q : Queue.t,
       Queue.init service_mean destination Unsupported cov = Ok q /\
       Queue.action_in t job q g = Raise UnboundLocalError).
Proof.
  split.
  - intros p Hd Htm Hsm.
    assert (Hinit : wrapper_init p = Raise AttributeError).
    { unfold wrapper_init, Source.init, bind, lift, raise.
      destruct (transition_matrix p) as [| row0 tm]; [congruence |].
      destruct (source_matrix p) as [| srow sm]; [congruence |].
      rewrite Hd. reflexivity. }
    split; [exact Hinit |]. intros fuel. unfold wrapper. rewrite Hinit.
    reflexivity.
  - intros m d c t job g. eexists. split; [reflexivity |]. reflexivity.
Qed.

(** * The stations that [extractor] can read *)

Section Extraction.
Context `{Numpy}.

Lemma run_length (p : params) (k : nat) (s : state) :
  run p k = Ok s ->
  exists row0 : list Q,
    transition_matrix p !! 0%nat = Some row0 /\
    length (stations s) = length row0.
Proof.
  revert k s. apply (run_ind p).
  - intros s0. unfold wrapper_init. intros Hrun.
    destruct (index (transition_matrix p) 0) as [row0 |] eqn:E0;
      simpl in Hrun; [| discriminate].
    destruct (Source.init _ _ _ _ _ 0%nat) as [[src g] |];
      simpl in Hrun; [| discriminate].
    destruct (for_range_pure _ 0 (length row0)) as [sts |] eqn:Eq;
      simpl in Hrun; [| discriminate].
    injection Hrun as <-. simpl. exists row0.
    apply index_Ok in E0. apply for_range_pure_spec in Eq as [Hlen _]. auto.
  - intros j s s' _ (row0 & Hrow & Hlen) Hit. exists row0.
    split; [exact Hrow |]. rewrite (iteration_length _ _ Hit). exact Hlen.
Qed.
End Extraction.

(** X10. In every run [system] holds one station per entry of the first
    row of the transition matrix.  For each of these numbers [extractor]
    returns: one interarrival time per job id, one waiting time per service
    time, and fewer waiting times than job ids by exactly the number of
    jobs that still wait in the deque.  For any other number it raises
    [KeyError]. *)
Theorem extractor_covers_the_stations `{Numpy} (p : params) (k : nat)
    (s : state) :
  run p k = Ok s ->
  exists row0 : list Q,
    transition_matrix p !! 0%nat = Some row0 /\
    length (stations s) = length row0 /\
    (forall i : nat, (i < length row0)%nat ->
       exists (q : Queue.t) (ex : extracted),
         stations s !! i = Some q /\ extractor s i = Ok ex /\
         job_ids ex = Queue.all_jobs q /\
         length (interarrival_times ex) = length (job_ids ex) /\
         length (waiting_times ex) = length (ex_service_times ex) /\
         (length (job_ids ex)
          = length (waiting_times ex) + length (Queue.jobs_in_system q))%nat) /\
    (forall i : nat, (length row0 <= i)%nat ->
       extractor s i = Raise KeyError).
Proof.
  intros Hrun. destruct (run_length _ _ _ Hrun) as (row0 & Hrow & Hlen).
  exists row0. split; [exact Hrow |]. split; [exact Hlen |]. split.
  - intros i Hi.
    destruct (lookup_lt_is_Some_2 (stations s) i) as [q Hq]; [lia |].
    destruct (run_services_le_arrivals _ _ _ _ _ Hrun Hq) as [_ Hsa].
    destruct (extractor_returns _ _ _ Hq Hsa) as (ex & Hex & Hw & Hj).
    destruct (extractor_Ok _ _ _ _ Hq Hex) as (Ha & Hs & _).
    destruct (run_accounting _ _ _ Hrun i q Hq)
      as [Hb Hn _ _ Hsb Hsi Hwait Hall _].
    exists q, ex. repeat (split; [assumption |]).
    split; [rewrite Ha, Hj, length_recorded_interarrivals; lia |].
    split; [rewrite Hw, Hs; reflexivity |].
    rewrite Hj, Hw, Hall.
    destruct (Z.eq_dec (Queue.in_system q) 0%Z) as [E | E].
    + rewrite (Hsi E). lia.
    + rewrite Hsb by lia. lia.
  - intros i Hi. unfold extractor, get_station.
    rewrite lookup_ge_None_2 by lia. reflexivity.
Qed.

Lemma extractor_covers_the_stations_witness :
  @run tandem_numpy tandem 12 = Ok tandem_state /\
  length (stations tandem_state) = 4%nat /\
  extractor tandem_state 4 = Raise KeyError /\
  extractor tandem_state 3 = Ok tandem_extracted /\
  (length (job_ids tandem_extracted)
   = length (waiting_times tandem_extracted)
     + length (Queue.jobs_in_system tandem_last_station))%nat.
Proof.
  assert (Hrun : @run tandem_numpy tandem 12 = Ok tandem_state)
    by (vm_compute; reflexivity).
  destruct (@extractor_covers_the_stations tandem_numpy tandem 12
              tandem_state Hrun) as (row0 & Hrow & Hlen & Hin & Hout).
  injection Hrow as <-.
  split; [exact Hrun |]. split; [exact Hlen |].
  split; [apply Hout; simpl; lia |].
  split; [vm_compute; reflexivity |]. vm_compute. reflexivity.
Defined.

(** * The departure of a busy station *)

Lemma pending_positive (nd : node) (evs : list event) :
  (1 <= pending nd evs)%nat -> exists e, e ∈ evs /\ ev_node e = nd.
Proof.
  induction evs as [| e evs IH]; simpl; [lia |].
  destruct (node_eqb (ev_node e) nd) eqn:E.
  - intros _. exists e. split; [apply list_elem_of_here |].
    apply node_eqb_eq. exact E.
  - intros Hp. destruct IH as (e' & He' & Hn); [lia |].
    exists e'. split; [apply list_elem_of_further; exact He' | exact Hn].
Qed.

(** X11. When no increment is negative and the first arrival is after time
    0, no entry of the heap has time 0, so nothing is left unscheduled: a
    station that holds a job has exactly one entry in the heap, the triple
    [(finish_time, next_job, i)], and its finish time is not before the
    clock; a station that holds no job has no entry. *)
Theorem busy_station_is_scheduled_at_finish_time `{Numpy} (p : params)
    (s0 : state) (k : nat) (s : state) (i : nat) (q : Queue.t) :
  nonneg_increments ->
  wrapper_init p = Ok s0 -> (0 < Source.time_next (source s0))%Q ->
  run p k = Ok s -> stations s !! i = Some q ->
  ((1 <= Queue.in_system q)%Z ->
   pending (NStation i) (events s) = 1%nat /\
   (Queue.finish_time q, Queue.next_job q, NStation i) ∈ events s /\
   (0 < Queue.finish_time q)%Q /\ (curr s <= Queue.finish_time q)%Q) /\
  (Queue.in_system q = 0%Z -> pending (NStation i) (events s) = 0%nat).
Proof.
  intros Hnn Hinit Hfirst Hrun Hq.
  destruct (run_busy_has_entry _ _ _ _ Hnn Hinit Hfirst Hrun) as [Hbusy Hpos].
  destruct (run_accounting _ _ _ Hrun i q Hq) as [_ _ Hone Hev _ _ _ _ _].
  split.
  - intros Hin. pose proof (Hbusy i q Hq Hin) as Hp.
    split; [exact Hp |].
    destruct (pending_positive (NStation i) (events s)) as (e & He & Hn);
      [lia |].
    pose proof (run_mirrors _ _ _ Hrun e He) as Hm. rewrite Hn in Hm.
    destruct Hm as (q' & Hq' & Heq). rewrite Hq in Hq'. injection Hq' as <-.
    rewrite <- Heq. split; [exact He |].
    destruct (run_clock_ok _ _ _ Hnn Hrun) as [[Hclock _ _] _].
    pose proof (Hpos e He) as H0. pose proof (Hclock e He) as H1.
    rewrite Heq in H0, H1. simpl in H0, H1. auto.
  - intros Hz. destruct (pending (NStation i) (events s)) as [| [| c]];
      [reflexivity | | lia].
    specialize (Hev eq_refl). lia.
Qed.

Lemma busy_station_is_scheduled_at_finish_time_witness :
  @wrapper_init tandem_numpy tandem = Ok tandem_initial /\
  @run tandem_numpy tandem 12 = Ok tandem_state /\
  stations tandem_state !! 3%nat = Some tandem_last_station /\
  (Queue.finish_time tandem_last_station,
   Queue.next_job tandem_last_station, NStation 3) ∈ events tandem_state /\
  (curr tandem_state <= Queue.finish_time tandem_last_station)%Q.
Proof.
  assert (Hinit : @wrapper_init tandem_numpy tandem = Ok tandem_initial)
    by (vm_compute; reflexivity).
  assert (Hrun : @run tandem_numpy tandem 12 = Ok tandem_state)
    by (vm_compute; reflexivity).
  assert (Hq : stations tandem_state !! 3%nat = Some tandem_last_station)
    by (vm_compute; reflexivity).
  destruct (@busy_station_is_scheduled_at_finish_time tandem_numpy tandem
              tandem_initial 12 tandem_state 3 tandem_last_station
              tandem_nonneg_increments Hinit ltac:(reflexivity) Hrun Hq)
    as [Hbusy _].
  destruct Hbusy as (_ & Hin & _ & Hle); [vm_compute; discriminate |].
  auto.
Defined.

(** * The routing of the popped job *)

(** X12. In every pass the popped job goes where the popped node's
    [action_out] has just drawn: after the pass the node stores a
    destination [d]; if [d] is the number of stations the job leaves the
    network and no station records an arrival, otherwise station [d]
    records the job and the time of the popped entry as its latest
    arrival. *)
Theorem popped_job_is_routed `{Numpy} (s s' : state) (t : Q)
    (job : option Z) (nd : node) (rest : list event) :
  heappop event_lt (events s) = Ok ((t, job, nd), rest) ->
  iteration s = Ok s' ->
  exists d : nat,
    node_next_destination (source s') (stations s') nd = Some d /\
    ((d = length (stations s) /\
      forall i q, stations s !! i = Some q ->
        exists q', stations s' !! i = Some q' /\
                   Queue.all_jobs q' = Queue.all_jobs q /\
                   Queue.arrival_times q' = Queue.arrival_times q)
     \/
     (d <> length (stations s) /\
      exists q q' : Queue.t,
        stations s !! d = Some q /\ stations s' !! d = Some q' /\
        Queue.all_jobs q' = Queue.all_jobs q ++ [job] /\
        Queue.arrival_times q' = Queue.arrival_times q ++ [t])).
Proof.
  intros Hpop Hit.
  apply iteration_Ok in Hit
    as (t' & job' & nd' & evs0 & evs1 & sts1 & dest & g1
        & Hpop' & Hdisp & Hdel & _).
  rewrite Hpop in Hpop'. injection Hpop' as <- <- <- <-.
  apply dispatch_Ok in Hdisp
    as [(-> & Hout & -> & _ & ->)
       | (k0 & q0 & q1 & -> & Hq0 & Hout & _ & -> & _ & ->)].
  - apply deliver_Ok in Hdel
      as (d & [= <-] & [(Hd & Hsts & _) | (Hd & q & q' & Hq & Hin & Hsts & _)]).
    + exists (Source.next_destination (source s')).
      split; [reflexivity |]. left. split; [exact Hd |].
      intros i q Hq. exists q. rewrite Hsts. auto.
    + exists (Source.next_destination (source s')).
      split; [reflexivity |]. right. split; [exact Hd |].
      exists q, q'. split; [exact Hq |].
      apply action_in_Ok in Hin as (_ & _ & Hjobs & Harr & _).
      rewrite Hsts. split; [| auto].
      apply list_lookup_insert_eq. eapply lookup_lt_Some; eauto.
  - pose proof (lookup_lt_Some _ _ _ Hq0) as Hk0.
    apply action_out_Ok in Hout
      as (_ & _ & Haj1 & Harr1 & _ & (d & Hd1) & _).
    rewrite Hd1 in Hdel.
    apply deliver_Ok in Hdel
      as (d' & [= <-]
          & [(Hd & Hsts & _) | (Hd & q & q' & Hq & Hin & Hsts & _)]).
    + exists d. rewrite Hsts. simpl.
      rewrite list_lookup_insert_eq by exact Hk0. simpl.
      split; [exact Hd1 |]. left. split; [exact Hd |].
      intros i q Hq. destruct (decide (i = k0)) as [-> | Hne].
      * rewrite Hq0 in Hq. injection Hq as <-. exists q1.
        rewrite list_lookup_insert_eq by exact Hk0. auto.
      * exists q. rewrite list_lookup_insert_ne by congruence. auto.
    + apply action_in_Ok in Hin as (_ & _ & Hjobs & Harr & _ & Hnd & _).
      exists d. rewrite Hsts. simpl. split.
      * destruct (decide (d = k0)) as [-> | Hne].
        -- rewrite list_lookup_insert_eq
             by (rewrite length_insert; exact Hk0).
           simpl. rewrite Hnd.
           rewrite list_lookup_insert_eq in Hq by exact Hk0.
           injection Hq as <-. exact Hd1.
        -- rewrite list_lookup_insert_ne by congruence.
           rewrite list_lookup_insert_eq by exact Hk0. exact Hd1.
      * right. split; [exact Hd |].
        destruct (decide (d = k0)) as [-> | Hne].
        -- rewrite list_lookup_insert_eq in Hq by exact Hk0.
           injection Hq as <-. exists q0, q'.
           split; [exact Hq0 |]. split.
           ++ apply list_lookup_insert_eq. rewrite length_insert. exact Hk0.
           ++ rewrite Hjobs, Harr, Haj1, Harr1. auto.
        -- rewrite list_lookup_insert_ne in Hq by congruence.
           exists q, q'. split; [exact Hq |]. split; [| auto].
           apply list_lookup_insert_eq. rewrite length_insert.
           eapply lookup_lt_Some; eauto.
Qed.

Lemma popped_job_is_routed_witness :
  heappop event_lt (events tandem_initial)
  = Ok (((2 # 2)%Q, Some 0%Z, NSource), []) /\
  @iteration tandem_numpy tandem_initial = Ok tandem_first /\
  exists d : nat,
    node_next_destination (source tandem_first) (stations tandem_first)
                          NSource = Some d /\
    d = 0%nat.
Proof.
  assert (Hpop : heappop event_lt (events tandem_initial)
                 = Ok (((2 # 2)%Q, Some 0%Z, NSource), []))
    by (vm_compute; reflexivity).
  assert (Hit : @iteration tandem_numpy tandem_initial = Ok tandem_first)
    by (vm_compute; reflexivity).
  split; [exact Hpop |]. split; [exact Hit |].
  destruct (@popped_job_is_routed tandem_numpy tandem_initial tandem_first
              _ _ _ _ Hpop Hit) as (d & Hd & _).
  exists d. split; [exact Hd |].
  vm_compute in Hd. injection Hd as <-. reflexivity.
Defined.

(** * The job ids that the stations record *)

Section JobIdsRecorded.
Context `{Numpy}.

Lemma job_issued_mono (N N' : Z) (x : option Z) :
  (N <= N')%Z -> job_issued N x -> job_issued N' x.
Proof.
  intros Hle (z & -> & Hz). exists z. split; [reflexivity | lia].
Qed.

Lemma iteration_issued (s s' : state) :
  accounting (stations s) (events s) ->
  mirrors (source s) (stations s) (events s) ->
  all_fcfs (stations s) ->
  (0 <= Source.next_job (source s))%Z ->
  all_issued (Source.next_job (source s)) (stations s) ->
  iteration s = Ok s' ->
  all_issued (Source.next_job (source s')) (stations s').
Proof.
  intros Hacc Hm Hf H0 Hall Hit.
  apply iteration_Ok in Hit
    as (t & job & nd & evs0 & evs1 & sts1 & dest & g1
        & Hpop & Hdisp & Hdel & _).
  pose proof (heappop_Permutation _ _ _ _ Hpop) as Hperm.
  assert (Hacc0 : accounting (stations s) ((t, job, nd) :: evs0)).
  { intros k q Hq. rewrite <- (pending_Permutation _ _ _ Hperm).
    apply Hacc. exact Hq. }
  apply (mirrors_Permutation _ _ _ _ Hperm) in Hm.
  specialize (Hm (t, job, nd) (list_elem_of_here _ _)). simpl in Hm.
  assert (Hmid : (Source.next_job (source s) <= Source.next_job (source s'))%Z
                 /\ job_issued (Source.next_job (source s')) job
                 /\ all_issued (Source.next_job (source s)) sts1).
  { apply dispatch_Ok in Hdisp
      as [(-> & Hout & -> & _)
         | (k0 & q0 & q1 & -> & Hq0 & Hout & -> & -> & _)].
    - apply source_action_out_Ok in Hout as (Hn & _).
      injection Hm as _ Hj. rewrite Hn.
      split; [lia |]. split; [| exact Hall].
      exists (Source.next_job (source s)). split; [auto | lia].
    - split; [lia |].
      destruct Hm as (q & Hq & Heq). rewrite Hq0 in Hq. injection Hq as <-.
      injection Heq as _ Hj.
      pose proof (Hacc0 k0 q0 Hq0) as Hok. simpl in Hok.
      unfold ev_node in Hok. simpl in Hok. rewrite Nat.eqb_refl in Hok.
      assert (Hbusy : (1 <= Queue.in_system q0)%Z).
      { destruct Hok as [_ _ Hone Hb _ _ _ _ _]. apply Hb. lia. }
      split.
      + apply (Hall k0 q0 job Hq0).
        pose proof (Hf k0 q0 Hq0) as Hfq. unfold fcfs, present in Hfq.
        replace (Queue.in_system q0 =? 0)%Z with false in Hfq
          by (symmetry; apply Z.eqb_neq; lia).
        apply (list_elem_of_lookup_2 _ (length (Queue.departure_times q0))).
        rewrite <- (Nat.add_0_r (length (Queue.departure_times q0))).
        rewrite <- lookup_drop, Hfq, Hj. reflexivity.
      + apply action_out_Ok in Hout as (_ & _ & Haj & _).
        intros i q x Hq Hx. apply list_lookup_insert_Some in Hq
          as [(<- & <- & _) | (_ & Hq)].
        * rewrite Haj in Hx. eapply Hall; eauto.
        * eapply Hall; eauto. }
  destruct Hmid as (Hle & Hjob & Hall1).
  apply deliver_Ok in Hdel
    as (d & _ & [(_ & Hsts & _) | (_ & q & q2 & Hq & Hin & Hsts & _)]);
    rewrite Hsts.
  - intros i q x Hq Hx. eapply job_issued_mono; [exact Hle |].
    eapply Hall1; eauto.
  - apply action_in_Ok in Hin as (_ & _ & Haj & _).
    intros i q' x Hq' Hx. apply list_lookup_insert_Some in Hq'
      as [(<- & <- & _) | (_ & Hq')].
    + rewrite Haj in Hx. apply elem_of_app in Hx as [Hx | Hx].
      * eapply job_issued_mono; [exact Hle |]. eapply Hall1; eauto.
      * apply list_elem_of_singleton in Hx as ->. exact Hjob.
    + eapply job_issued_mono; [exact Hle |]. eapply Hall1; eauto.
Qed.

Lemma run_issued (p : params) (k : nat) (s : state) :
  run p k = Ok s -> all_issued (Source.next_job (source s)) (stations s).
Proof.
  revert k s. apply (run_ind p).
  - intros s0 Hinit. apply wrapper_init_Ok in Hinit
      as (g0 & _ & Hfresh & _).
    intros i q x Hq Hx.
    destruct (Hfresh i q Hq) as (_ & Haj & _).
    rewrite Haj in Hx. inversion Hx.
  - intros j s s' Hrun Hall Hit.
    eapply iteration_issued; eauto.
    + eapply run_accounting; eauto.
    + eapply run_mirrors; eauto.
    + eapply run_fcfs; eauto.
    + apply run_source_entry_ok in Hrun as [_ H0 _]. exact H0.
Qed.
End JobIdsRecorded.

(** X13. In every run each job id that a station has recorded in
    [all_jobs] is an integer, never [None], from 0 up to but not including
    the counter [next_job] of the source: the id of an outside job that has
    already arrived. *)
Theorem recorded_job_ids_were_issued `{Numpy} (p : params) (k : nat)
    (s : state) (i : nat) (q : Queue.t) (x : option Z) :
  run p k = Ok s -> stations s !! i = Some q -> x ∈ Queue.all_jobs q ->
  exists z : Z,
    x = Some z /\ (0 <= z < Source.next_job (source s))%Z.
Proof.
  intros Hrun Hq Hx. exact (run_issued _ _ _ Hrun i q x Hq Hx).
Qed.

Lemma recorded_job_ids_were_issued_witness :
  @run tandem_numpy tandem 12 = Ok tandem_state /\
  stations tandem_state !! 3%nat = Some tandem_last_station /\
  Some 2%Z ∈ Queue.all_jobs tandem_last_station /\
  exists z : Z,
    Some 2%Z = Some z /\ (0 <= z < Source.next_job (source tandem_state))%Z.
Proof.
  assert (Hrun : @run tandem_numpy tandem 12 = Ok tandem_state)
    by (vm_compute; reflexivity).
  assert (Hq : stations tandem_state !! 3%nat = Some tandem_last_station)
    by (vm_compute; reflexivity).
  assert (Hx : Some 2%Z ∈ Queue.all_jobs tandem_last_station).
  { apply list_elem_of_further, list_elem_of_further, list_elem_of_here. }
  split; [exact Hrun |]. split; [exact Hq |]. split; [exact Hx |].
  exact (@recorded_job_ids_were_issued tandem_numpy tandem 12 tandem_state
           3 tandem_last_station _ Hrun Hq Hx).
Defined.

(** * The service means of [main] *)

Lemma coefficient_insert (l : list Q) (k j : nat) (x : Q) :
  (k < length l)%nat ->
  coefficient (<[k := x]> l) j
  = if (k =? j)%nat then x else coefficient l j.
Proof.
  intros Hk. unfold coefficient.
  destruct (Nat.eqb_spec k j) as [-> | Hne].
  - rewrite list_lookup_insert_eq by exact Hk. reflexivity.
  - rewrite list_lookup_insert_ne by exact Hne. reflexivity.
Qed.

Lemma waiting_flow_snoc (starts : list (nat * Q)) (l j : nat) (w : Q) :
  (waiting_flow (starts ++ [(l, w)]) j
   == waiting_flow starts j + if (l =? j)%nat then w else 0)%Q.
Proof.
  induction starts as [| [l' w'] starts IH]; simpl.
  - ring.
  - rewrite IH. ring.
Qed.

Lemma shifted_cons (x : Q) (row : list Q) (j0 j : nat) :
  (shifted (x :: row) j0 j
   == (if (j0 =? j)%nat then x else 0) + shifted row (S j0) j)%Q.
Proof.
  unfold shifted, coefficient.
  destruct (Nat.eqb_spec j0 j) as [-> | Hne].
  - rewrite Nat.leb_refl, Nat.sub_diag.
    replace (S j <=? j)%nat with false by (symmetry; apply Nat.leb_gt; lia).
    simpl. ring.
  - destruct (Nat.leb_spec j0 j) as [Hle | Hgt].
    + replace (S j0 <=? j)%nat with true by (symmetry; apply Nat.leb_le; lia).
      replace (j - j0)%nat with (S (j - S j0)) by lia. simpl. ring.
    + replace (S j0 <=? j)%nat with false by (symmetry; apply Nat.leb_gt; lia).
      ring.
Qed.

Lemma shifted_0 (row : list Q) (j : nat) : shifted row 0 j = coefficient row j.
Proof. unfold shifted. simpl. rewrite Nat.sub_0_r. reflexivity. Qed.

(** What one pass over a row does to the rates and to the work list, for
    a weight that can be read. *)
Lemma spread_Ok (wv : Q) (row : list Q) :
  forall (j0 : nat) (flows : list Q) (starts : list (nat * Q))
         (flows' : list Q) (starts' : list (nat * Q)),
    spread (Ok wv) row j0 flows starts = Ok (flows', starts') ->
    length flows' = length flows /\
    (forall j, coefficient flows' j
               == coefficient flows j + wv * shifted row j0 j)%Q /\
    (forall j, waiting_flow starts' j
               == waiting_flow starts j + wv * shifted row j0 j)%Q /\
    (forall e, e ∈ starts' -> e ∈ starts \/ (e.1 < length flows)%nat) /\
    (forall e, e ∈ starts -> e ∈ starts') /\
    (forall j x, row !! j = Some x -> ~ (x == 0)%Q ->
                 exists w, ((j0 + j)%nat, w) ∈ starts').
Proof.
  induction row as [| x row IH]; intros j0 flows starts flows' starts' Hrun;
    simpl in Hrun.
  - injection Hrun as <- <-. split; [reflexivity |].
    split; [intros j; unfold shifted, coefficient;
            destruct (j0 <=? j)%nat; simpl; ring |].
    split; [intros j; unfold shifted, coefficient;
            destruct (j0 <=? j)%nat; simpl; ring |].
    split; [auto |]. split; [auto |]. intros j x Hj. discriminate.
  - destruct (Qeq_bool x 0) eqn:Ex.
    + apply Qeq_bool_iff in Ex.
      destruct (IH _ _ _ _ _ Hrun) as (Hlen & Hf & Hw & Hin & Hsub & Hnz).
      split; [exact Hlen |].
      split; [intros j; rewrite Hf, shifted_cons;
              destruct (j0 =? j)%nat; [rewrite Ex |]; ring |].
      split; [intros j; rewrite Hw, shifted_cons;
              destruct (j0 =? j)%nat; [rewrite Ex |]; ring |].
      split; [exact Hin |]. split; [exact Hsub |].
      intros [| j] y Hy Hy0; simpl in Hy.
      * injection Hy as <-. contradiction.
      * destruct (Hnz j y Hy Hy0) as [w Hw'].
        exists w. replace (j0 + S j)%nat with (S j0 + j)%nat by lia. exact Hw'.
    + destruct (index flows j0) as [y |] eqn:Ey; simpl in Hrun;
        [| discriminate].
      apply index_Ok in Ey. pose proof (lookup_lt_Some _ _ _ Ey) as Hj0.
      destruct (IH _ _ _ _ _ Hrun) as (Hlen & Hf & Hw & Hin & Hsub & Hnz).
      rewrite length_insert in Hlen, Hin.
      split; [exact Hlen |].
      split.
      { intros j. rewrite Hf, shifted_cons, coefficient_insert by exact Hj0.
        destruct (Nat.eqb_spec j0 j) as [<- | Hne]; [| ring].
        unfold coefficient. rewrite Ey. simpl. ring. }
      split.
      { intros j. rewrite Hw, waiting_flow_snoc, shifted_cons.
        destruct (j0 =? j)%nat; ring. }
      split.
      { intros e He. destruct (Hin e He) as [He' | He']; [| auto].
        apply elem_of_app in He' as [He' | He']; [auto |].
        apply list_elem_of_singleton in He' as ->. right. exact Hj0. }
      split.
      { intros e He. apply Hsub. apply elem_of_app. auto. }
      intros [| j] z Hz Hz0; simpl in Hz.
      * injection Hz as <-. exists (wv * x)%Q. apply Hsub.
        rewrite Nat.add_0_r. apply elem_of_app. right.
        apply list_elem_of_here.
      * destruct (Hnz j z Hz Hz0) as [w Hw'].
        exists w. replace (j0 + S j)%nat with (S j0 + j)%nat by lia. exact Hw'.
Qed.

(** With a weight that cannot be read, a pass returns only over a row of
    zeros, and changes nothing. *)
Lemma spread_Raise (e : exn) (row : list Q) :
  forall (j0 : nat) (flows : list Q) (starts : list (nat * Q))
         (flows' : list Q) (starts' : list (nat * Q)),
    spread (Raise e) row j0 flows starts = Ok (flows', starts') ->
    flows' = flows /\ starts' = starts /\
    forall j, (coefficient row j == 0)%Q.
Proof.
  induction row as [| x row IH]; intros j0 flows starts flows' starts' Hrun;
    simpl in Hrun.
  - injection Hrun as <- <-. split; [reflexivity |]. split; [reflexivity |].
    intros j. unfold coefficient. rewrite lookup_nil. reflexivity.
  - destruct (Qeq_bool x 0) eqn:Ex.
    + apply Qeq_bool_iff in Ex.
      destruct (IH _ _ _ _ _ Hrun) as (Hf & Hs & Hz).
      split; [exact Hf |]. split; [exact Hs |].
      intros [| j]; [exact Ex | apply Hz].
    + destruct (index flows j0); simpl in Hrun; discriminate.
Qed.

Lemma seed_Ok (am : list Q) (sm : list (list Q)) :
  forall (i : nat) (flows : list Q) (starts : list (nat * Q))
         (flows' : list Q) (starts' : list (nat * Q)),
    seed am sm i flows starts = Ok (flows', starts') ->
    length flows' = length flows /\
    (forall j, coefficient flows' j
               == coefficient flows j + weighted (coefficient am) sm i j)%Q /\
    (forall j, waiting_flow starts' j
               == waiting_flow starts j + weighted (coefficient am) sm i j)%Q /\
    (forall e, e ∈ starts' -> e ∈ starts \/ (e.1 < length flows)%nat) /\
    (forall e, e ∈ starts -> e ∈ starts') /\
    (forall r row j x, sm !! r = Some row -> row !! j = Some x ->
                       ~ (x == 0)%Q -> exists w, (j, w) ∈ starts').
Proof.
  induction sm as [| row sm IH]; intros i flows starts flows' starts' Hrun;
    simpl in Hrun.
  - injection Hrun as <- <-. split; [reflexivity |].
    split; [intros j; simpl; ring |]. split; [intros j; simpl; ring |].
    split; [auto |]. split; [auto |]. intros r row j x Hr. discriminate.
  - destruct (spread (index am i) row 0 flows starts) as [[f1 s1] |] eqn:E1;
      simpl in Hrun; [| discriminate].
    destruct (IH _ _ _ _ _ Hrun) as (Hlen & Hf & Hw & Hin & Hsub & Hnz).
    assert (Hrow : length f1 = length flows /\
              (forall j, coefficient f1 j
                 == coefficient flows j
                    + coefficient am i * coefficient row j)%Q /\
              (forall j, waiting_flow s1 j
                 == waiting_flow starts j
                    + coefficient am i * coefficient row j)%Q /\
              (forall e, e ∈ s1 -> e ∈ starts \/ (e.1 < length flows)%nat) /\
              (forall e, e ∈ starts -> e ∈ s1) /\
              (forall j x, row !! j = Some x -> ~ (x == 0)%Q ->
                           exists w, (j, w) ∈ s1)).
    { destruct (index am i) as [wv | e] eqn:Ew.
      - apply index_Ok in Ew.
        destruct (spread_Ok _ _ _ _ _ _ _ E1)
          as (Hl & Hf1 & Hw1 & Hi1 & Hs1 & Hn1).
        assert (Hc : coefficient am i = wv)
          by (unfold coefficient; rewrite Ew; reflexivity).
        rewrite Hc.
        split; [exact Hl |].
        split; [intros j; rewrite Hf1, shifted_0; reflexivity |].
        split; [intros j; rewrite Hw1, shifted_0; reflexivity |].
        split; [exact Hi1 |]. split; [exact Hs1 |].
        intros j x Hj Hx. destruct (Hn1 j x Hj Hx) as [w Hw']. eauto.
      - destruct (spread_Raise _ _ _ _ _ _ _ E1) as (-> & -> & Hz).
        split; [reflexivity |].
        split; [intros j; rewrite (Hz j); ring |].
        split; [intros j; rewrite (Hz j); ring |].
        split; [auto |]. split; [auto |].
        intros j x Hj Hx. exfalso. apply Hx. specialize (Hz j).
        unfold coefficient in Hz. rewrite Hj in Hz. exact Hz. }
    destruct Hrow as (Hl1 & Hf1 & Hw1 & Hi1 & Hs1 & Hn1).
    split; [congruence |].
    split; [intros j; simpl; rewrite Hf, Hf1; ring |].
    split; [intros j; simpl; rewrite Hw, Hw1; ring |].
    split.
    { intros e He. destruct (Hin e He) as [He' | He'].
      - apply Hi1. exact He'.
      - right. rewrite <- Hl1. exact He'. }
    split; [auto |].
    intros [| r] row' j x Hr Hj Hx; simpl in Hr.
    + injection Hr as <-. destruct (Hn1 j x Hj Hx) as [w Hw']. eauto.
    + eapply Hnz; eauto.
Qed.

Lemma weighted_ext (v v' : nat -> Q) (m : list (list Q)) (j : nat) :
  (forall k, (v k == v' k)%Q) ->
  forall i, (weighted v m i j == weighted v' m i j)%Q.
Proof.
  intros Hv. induction m as [| row m IH]; intros i; simpl.
  - reflexivity.
  - rewrite (Hv i), (IH (S i)). reflexivity.
Qed.

Lemma weighted_plus (v u : nat -> Q) (m : list (list Q)) (j : nat) :
  forall i,
    (weighted (fun k => v k + u k) m i j
     == weighted v m i j + weighted u m i j)%Q.
Proof.
  induction m as [| row m IH]; intros i; simpl.
  - ring.
  - rewrite (IH (S i)). ring.
Qed.

Lemma weighted_zero (m : list (list Q)) (j : nat) :
  forall i, (weighted (fun _ => 0) m i j == 0)%Q.
Proof.
  induction m as [| row m IH]; intros i; simpl.
  - reflexivity.
  - rewrite (IH (S i)). ring.
Qed.

Lemma weighted_delta (loc : nat) (p : Q) (m : list (list Q)) (j : nat) :
  forall i,
    (weighted (fun k => if (k =? loc)%nat then p else 0) m i j
     == if (i <=? loc)%nat then p * entry m (loc - i) j else 0)%Q.
Proof.
  induction m as [| row m IH]; intros i; simpl.
  - unfold entry, coefficient. rewrite lookup_nil. simpl.
    destruct (i <=? loc)%nat; ring.
  - rewrite (IH (S i)).
    destruct (Nat.eqb_spec i loc) as [-> | Hne].
    + rewrite Nat.leb_refl, Nat.sub_diag.
      replace (S loc <=? loc)%nat with false
        by (symmetry; apply Nat.leb_gt; lia).
      unfold entry. simpl. ring.
    + destruct (Nat.leb_spec i loc) as [Hle | Hgt].
      * replace (S i <=? loc)%nat with true
          by (symmetry; apply Nat.leb_le; lia).
        replace (loc - i)%nat with (S (loc - S i)) by lia.
        unfold entry. simpl. ring.
      * replace (S i <=? loc)%nat with false
          by (symmetry; apply Nat.leb_gt; lia).
        ring.
Qed.

Lemma coefficient_repeat (n j : nat) : coefficient (repeat 0%Q n) j = 0%Q.
Proof.
  unfold coefficient.
  destruct (repeat 0%Q n !! j) as [x |] eqn:E; [| reflexivity].
  apply list_elem_of_lookup_2, list_elem_of_In, repeat_spec in E.
  rewrite E. reflexivity.
Qed.

(** When the work list empties, the rates solve the traffic equations. *)
Lemma propagate_Ok (tm : list (list Q)) (ext : nat -> Q) (rates : list Q)
    (fuel : nat) :
  forall (flows : list Q) (starts : list (nat * Q)) (done : nat -> Q),
    propagate fuel tm flows starts = Some (Ok rates) ->
    (forall j, coefficient flows j == ext j + weighted done tm 0 j)%Q ->
    (forall j, coefficient flows j == done j + waiting_flow starts j)%Q ->
    length rates = length flows /\
    forall j, (coefficient rates j == ext j + inflow rates tm j)%Q.
Proof.
  induction fuel as [| fuel IH]; intros flows starts done Hrun Hext Hdone.
  - destruct starts as [| [loc power] starts]; [| discriminate].
    simpl in Hrun. injection Hrun as <-. split; [reflexivity |].
    intros j. rewrite Hext. unfold inflow.
    rewrite (weighted_ext (coefficient flows) done).
    + reflexivity.
    + intros k. rewrite Hdone. simpl. ring.
  - destruct starts as [| [loc power] starts].
    + simpl in Hrun. injection Hrun as <-. split; [reflexivity |].
      intros j. rewrite Hext. unfold inflow.
      rewrite (weighted_ext (coefficient flows) done).
      * reflexivity.
      * intros k. rewrite Hdone. simpl. ring.
    + simpl in Hrun.
      destruct (index tm loc) as [row |] eqn:Er; simpl in Hrun;
        [| discriminate].
      apply index_Ok in Er.
      destruct (spread (Ok power) row 0 flows starts) as [[f1 s1] |] eqn:E1;
        [| discriminate].
      destruct (spread_Ok _ _ _ _ _ _ _ E1) as (Hl & Hf1 & Hw1 & _).
      assert (Hrow : forall j, (entry tm loc j = coefficient row j)).
      { intros j. unfold entry. rewrite Er. reflexivity. }
      destruct (IH f1 s1
                  (fun k => done k + if (k =? loc)%nat then power else 0)%Q
                  Hrun) as [Hlen Heq].
      * intros j. rewrite Hf1, shifted_0, Hext, weighted_plus, weighted_delta.
        simpl. rewrite Nat.sub_0_r, Hrow. ring.
      * intros j. rewrite Hf1, shifted_0, Hdone, Hw1, shifted_0. simpl.
        rewrite (Nat.eqb_sym j loc). ring.
      * split; [congruence | exact Heq].
Qed.

Lemma scale_Some (b : Q) (rates : list Q) :
  forall means : list Q,
    scale b rates = Some means ->
    length means = length rates /\
    forall j, (j < length rates)%nat ->
              (coefficient means j * coefficient rates j == b)%Q.
Proof.
  induction rates as [| x rates IH]; intros means Hs; simpl in Hs.
  - injection Hs as <-. split; [reflexivity |]. simpl. lia.
  - destruct (Qeq_bool x 0) eqn:Ex; [discriminate |].
    apply Qeq_bool_neq in Ex.
    destruct (scale b rates) as [l |] eqn:El; [| discriminate].
    simpl in Hs. injection Hs as <-.
    destruct (IH l eq_refl) as [Hlen Hall].
    split; [simpl; congruence |].
    intros [| j] Hj.
    + unfold coefficient. simpl. field. exact Ex.
    + apply Hall. simpl in Hj. lia.
Qed.

Lemma scale_None (b : Q) (rates : list Q) :
  scale b rates = None <->
  exists j, (j < length rates)%nat /\ (coefficient rates j == 0)%Q.
Proof.
  induction rates as [| x rates IH]; simpl.
  - split; [discriminate |]. intros (j & Hj & _). lia.
  - destruct (Qeq_bool x 0) eqn:Ex.
    + apply Qeq_bool_iff in Ex. split; [| reflexivity].
      intros _. exists 0%nat. split; [lia | exact Ex].
    + apply Qeq_bool_neq in Ex.
      destruct (scale b rates) as [l |] eqn:El; simpl.
      * split; [discriminate |].
        intros ([| j] & Hj & Hz); [contradiction |].
        assert (Hn : Some l = None); [| discriminate Hn].
        apply IH. exists j. split; [lia | exact Hz].
      * split; [| reflexivity]. intros _.
        destruct (proj1 IH eq_refl) as (j & Hj & Hz).
        exists (S j). split; [lia | exact Hz].
Qed.

(** X14. When the computation of [main] that precedes the simulation
    finishes, the rates it has accumulated solve the traffic equations of
    the network: the rate of station [j] is the flow into [j] from the
    streams plus the flow into [j] from the stations.  The service means
    that the final comprehension derives give the load [base_mean] to every
    station, and the comprehension divides by zero exactly when some
    station has rate 0. *)
Theorem service_means_balance_the_load (fuel : nat)
    (source_matrix transition_matrix : list (list Q))
    (arrival_means rates : list Q) :
  arrival_rates fuel source_matrix transition_matrix arrival_means
  = Some (Ok rates) ->
  let n := length transition_matrix in
  let flow j :=
    (inflow arrival_means source_matrix j
     + inflow rates transition_matrix j)%Q in
  (length rates = n /\
   forall j : nat, (coefficient rates j == flow j)%Q) /\
  (forall (base_mean : Q) (means : list Q),
     scale base_mean rates = Some means ->
     length means = n /\
     forall j : nat, (j < n)%nat ->
       (coefficient means j * flow j == base_mean)%Q) /\
  (forall base_mean : Q,
     scale base_mean rates = None <->
     exists j : nat, (j < n)%nat /\ (flow j == 0)%Q).
Proof.
  intros Hrun n flow. unfold arrival_rates in Hrun.
  destruct (seed arrival_means source_matrix 0
              (repeat 0%Q (length transition_matrix)) [])
    as [[flows starts] |] eqn:Es; [| discriminate].
  destruct (seed_Ok _ _ _ _ _ _ _ Es) as (Hlen & Hf & Hw & _).
  rewrite repeat_length in Hlen.
  destruct (propagate_Ok transition_matrix
              (fun j => inflow arrival_means source_matrix j) rates fuel
              flows starts (fun _ => 0%Q) Hrun) as [Hl Heq].
  { intros j. rewrite Hf, coefficient_repeat, weighted_zero.
    unfold inflow. ring. }
  { intros j. rewrite Hf, Hw, coefficient_repeat. simpl. ring. }
  assert (Hn : length rates = n) by (unfold n; congruence).
  split; [split; [exact Hn | exact Heq] |]. split.
  - intros b means Hs. destruct (scale_Some _ _ _ Hs) as [Hlm Hall].
    split; [congruence |].
    intros j Hj. unfold flow. rewrite <- Heq. apply Hall. lia.
  - intros b. rewrite scale_None, Hn.
    split; intros (j & Hj & Hz); exists j; (split; [exact Hj |]).
    + unfold flow. rewrite <- Heq. exact Hz.
    + rewrite Heq. exact Hz.
Qed.

Lemma service_means_balance_the_load_witness :
  arrival_rates 10 main_source_matrix main_transition_matrix
                main_arrival_means = Some (Ok main_rates) /\
  Forall2 Qeq main_rates [1; 1 # 2; 1 # 2; 1]%Q /\
  (forall j : nat,
     (coefficient main_rates j
      == inflow main_arrival_means main_source_matrix j
         + inflow main_rates main_transition_matrix j)%Q) /\
  exists means : list Q,
    scale (1 # 2) main_rates = Some means /\ length means = 4%nat.
Proof.
  assert (Hrun : arrival_rates 10 main_source_matrix main_transition_matrix
                   main_arrival_means = Some (Ok main_rates))
    by (vm_compute; reflexivity).
  destruct (service_means_balance_the_load _ _ _ _ _ Hrun)
    as ((_ & Heq) & Hscale & _).
  split; [exact Hrun |].
  split; [repeat constructor; apply Qeq_bool_iff; reflexivity |].
  split; [exact Heq |].
  destruct (scale (1 # 2) main_rates) as [means |] eqn:Es;
    [| vm_compute in Es; discriminate].
  exists means. split; [reflexivity |].
  destruct (Hscale _ _ Es) as [Hlen _]. exact Hlen.
Defined.

Lemma propagate_feedback (tm : list (list Q)) (C : nat -> Prop) :
  (forall k row, C k -> tm !! k = Some row ->
     exists j x, C j /\ row !! j = Some x /\ ~ (x == 0)%Q) ->
  forall (fuel : nat) (flows : list Q) (starts : list (nat * Q))
         (rates : list Q),
    (exists e, e ∈ starts /\ C e.1) ->
    propagate fuel tm flows starts <> Some (Ok rates).
Proof.
  intros Hloop. induction fuel as [| fuel IH];
    intros flows starts rates (e & He & HS).
  - destruct starts as [| [loc power] starts]; [inversion He | discriminate].
  - destruct starts as [| [loc power] starts]; [inversion He |].
    simpl.
    destruct (index tm loc) as [row |] eqn:Er; simpl; [| discriminate].
    apply index_Ok in Er.
    destruct (spread (Ok power) row 0 flows starts) as [[f1 s1] |] eqn:E1;
      [| discriminate].
    destruct (spread_Ok _ _ _ _ _ _ _ E1) as (_ & _ & _ & _ & Hsub & Hnz).
    apply IH.
    apply elem_of_cons in He as [-> | He].
    + destruct (Hloop loc row HS Er) as (j & x & HSj & Hx & Hx0).
      destruct (Hnz j x Hx Hx0) as [w Hw]. exists (j, w). auto.
    + exists e. auto.
Qed.

(** X15. The computation of [main] that precedes the simulation does not
    finish on a network with feedback: when some station that receives
    outside jobs belongs to a set of stations each of which forwards jobs,
    with a non-zero entry of its row, to a station of the set, the work
    list [starts] never becomes empty, whatever the number of passes. *)
Theorem feedback_keeps_the_work_list_busy (C : nat -> Prop)
    (source_matrix transition_matrix : list (list Q))
    (arrival_means : list Q) :
  (forall k row, C k -> transition_matrix !! k = Some row ->
     exists j x, C j /\ row !! j = Some x /\ ~ (x == 0)%Q) ->
  (exists i row j x,
     source_matrix !! i = Some row /\ row !! j = Some x /\
     ~ (x == 0)%Q /\ C j) ->
  forall (fuel : nat) (rates : list Q),
    arrival_rates fuel source_matrix transition_matrix arrival_means
    <> Some (Ok rates).
Proof.
  intros Hloop (i & row & j & x & Hi & Hj & Hx & HS) fuel rates.
  unfold arrival_rates.
  destruct (seed arrival_means source_matrix 0
              (repeat 0%Q (length transition_matrix)) [])
    as [[flows starts] |] eqn:Es; [| discriminate].
  destruct (seed_Ok _ _ _ _ _ _ _ Es) as (_ & _ & _ & _ & _ & Hnz).
  destruct (Hnz i row j x Hi Hj Hx) as [w Hw].
  apply (propagate_feedback _ C Hloop). exists (j, w). auto.
Qed.

Lemma feedback_keeps_the_work_list_busy_witness :
  arrival_rates 1000 [[1%Q]] feedback_matrix [1%Q] = None /\
  forall (fuel : nat) (rates : list Q),
    arrival_rates fuel [[1%Q]] feedback_matrix [1%Q] <> Some (Ok rates).
Proof.
  split; [vm_compute; reflexivity |].
  apply (feedback_keeps_the_work_list_busy (fun k => k = 0%nat)).
  - intros k row -> Hrow. injection Hrow as <-.
    exists 0%nat, (1 # 2)%Q. split; [reflexivity |].
    split; [reflexivity | discriminate].
  - exists 0%nat, [1%Q], 0%nat, 1%Q.
    split; [reflexivity |]. split; [reflexivity |].
    split; [discriminate | reflexivity].
Defined.

(** * The destination that is drawn *)

Lemma searchsorted_right_spec (u : Q) (cdf : list Q) :
  nondecreasing cdf ->
  (forall i c, cdf !! i = Some c ->
     (i < searchsorted_right cdf u)%nat -> (c <= u)%Q) /\
  (forall i c, cdf !! i = Some c ->
     (searchsorted_right cdf u <= i)%nat -> (u < c)%Q).
Proof.
  unfold searchsorted_right.
  induction cdf as [| x cdf IH]; intros Hnd.
  - split; intros i c Hc; discriminate.
  - destruct (IH (nondecreasing_tail _ _ Hnd)) as [Hlow Hhigh].
    destruct (Qle_bool x u) eqn:Ex.
    + rewrite filter_cons_True by exact Ex. simpl length.
      apply Qle_bool_iff in Ex. split.
      * intros [| i] c Hc Hi; simpl in Hc.
        -- injection Hc as <-. exact Ex.
        -- apply (Hlow i c Hc). lia.
      * intros [| i] c Hc Hi; simpl in Hc; [lia |].
        apply (Hhigh i c Hc). lia.
    + rewrite filter_cons_False by (rewrite Ex; discriminate).
      assert (Hux : (u < x)%Q).
      { apply Qnot_le_lt. intros Hle. apply Qle_bool_iff in Hle. congruence. }
      assert (Hall : forall i c, cdf !! i = Some c -> (u < c)%Q).
      { intros i c Hc.
        assert (x <= c)%Q
          by (apply (Hnd 0%nat (S i)); [lia | reflexivity | exact Hc]).
        lra. }
      split.
      * intros i c Hc Hi. exfalso.
        pose proof (length_filter (fun c0 : Q => Qle_bool c0 u = true) cdf)
          as Hlen.
        destruct (lookup_lt_is_Some_2 cdf 0) as [c0 Hc0]; [lia |].
        pose proof (Hlow 0%nat c0 Hc0 ltac:(lia)).
        pose proof (Hall 0%nat c0 Hc0). lra.
      * intros [| i] c Hc _; simpl in Hc.
        -- injection Hc as <-. exact Hux.
        -- eapply Hall; eauto.
Qed.

Lemma cumsum_lookup (p : list Q) :
  forall (acc : Q) (i : nat) (c : Q),
    cumsum acc p !! i = Some c ->
    exists x : Q,
      p !! i = Some x /\
      match i with
      | O => c = (acc + x)%Q
      | S i' => exists c', cumsum acc p !! i' = Some c' /\ c = (c' + x)%Q
      end.
Proof.
  induction p as [| y p IH]; intros acc i c Hc; [discriminate |].
  destruct i as [| i]; simpl in Hc.
  - injection Hc as <-. exists y. auto.
  - destruct (IH _ _ _ Hc) as (x & Hx & Hi). exists x. split; [exact Hx |].
    destruct i as [| i].
    + exists (acc + y)%Q. auto.
    + destruct Hi as (c' & Hc' & ->). exists c'. auto.
Qed.

Lemma cumsum_ge (p : list Q) :
  Forall (fun x => (0 <= x)%Q) p ->
  forall (acc : Q) (i : nat) (c : Q),
    cumsum acc p !! i = Some c -> (acc <= c)%Q.
Proof.
  induction 1 as [| y p Hy Hp IH]; intros acc i c Hc; [discriminate |].
  destruct i as [| i]; simpl in Hc.
  - injection Hc as <-. lra.
  - specialize (IH _ _ _ Hc). lra.
Qed.

Lemma cumsum_nondecreasing (p : list Q) :
  Forall (fun x => (0 <= x)%Q) p ->
  forall acc : Q, nondecreasing (cumsum acc p).
Proof.
  induction 1 as [| y p Hy Hp IH]; intros acc i j a b Hij Ha Hb;
    [discriminate |].
  destruct i as [| i]; destruct j as [| j]; simpl in Ha, Hb; try lia.
  - injection Ha as <-. injection Hb as <-. lra.
  - injection Ha as <-. eapply cumsum_ge; eauto.
  - apply (IH (acc + y)%Q i j); auto. lia.
Qed.

Section Destinations.
Context `{Numpy}.

(** [np.random.choice] never returns an outcome of probability 0. *)
Lemma choice_positive (n : nat) (p : list Q) (g g' d : nat) :
  (0 <= random_sample g)%Q ->
  np_random_choice n p g = Ok (d, g') ->
  exists x : Q, p !! d = Some x /\ (0 < x)%Q.
Proof.
  intros Hu. unfold np_random_choice.
  destruct (n =? 0)%nat; [discriminate |].
  destruct (negb (length p =? n)%nat) eqn:Elen; [discriminate |].
  destruct (existsb (fun x => Qlt_bool x 0) p) eqn:Eneg; [discriminate |].
  destruct (Qlt_bool atol (Qabs (sum p - 1))) eqn:Esum; [discriminate |].
  set (cdf := map (fun c => (c / sum p)%Q) (cumsum 0 p)).
  destruct (searchsorted_right cdf (random_sample g) <? n)%nat eqn:Eidx;
    [| discriminate].
  intros [= <- _].
  apply negb_false_iff, Nat.eqb_eq in Elen. apply Nat.ltb_lt in Eidx.
  assert (Hpos : Forall (fun x => (0 <= x)%Q) p).
  { apply Forall_forall. intros x Hx.
    destruct (Qlt_le_dec x 0) as [Hlt | Hle]; [| exact Hle].
    exfalso. apply not_true_iff_false in Eneg. apply Eneg.
    apply existsb_exists. exists x.
    split; [apply list_elem_of_In; exact Hx | apply Qlt_bool_iff; exact Hlt]. }
  assert (Hs : (0 < sum p)%Q).
  { apply Qlt_bool_false in Esum.
    apply Qabs_Qle_condition in Esum as [Hlo _]. unfold atol in Hlo.
    assert ((- (1 # 67108864) == - 1 * (1 # 67108864))%Q) by ring.
    assert ((1 # 67108864) < 1)%Q by reflexivity. lra. }
  assert (Hinv : (0 < / sum p)%Q) by (apply Qinv_lt_0_compat; exact Hs).
  assert (Hnd : nondecreasing cdf).
  { intros i j a b Hij Ha Hb. unfold cdf in Ha, Hb.
    rewrite list_lookup_fmap in Ha, Hb.
    destruct (cumsum 0 p !! i) as [a0 |] eqn:Ea0; [| discriminate].
    destruct (cumsum 0 p !! j) as [b0 |] eqn:Eb0; [| discriminate].
    simpl in Ha, Hb. injection Ha as <-. injection Hb as <-.
    pose proof (cumsum_nondecreasing p Hpos 0 i j a0 b0 Hij Ea0 Eb0).
    unfold Qdiv. apply Qmult_le_compat_r; lra. }
  destruct (searchsorted_right_spec (random_sample g) cdf Hnd)
    as [Hlow Hhigh].
  set (d := searchsorted_right cdf (random_sample g)) in *.
  destruct (lookup_lt_is_Some_2 (cumsum 0 p) d) as [c Hc].
  { rewrite length_cumsum. lia. }
  assert (Hcd : cdf !! d = Some (c / sum p)%Q).
  { unfold cdf. rewrite list_lookup_fmap, Hc. reflexivity. }
  pose proof (Hhigh d _ Hcd ltac:(lia)) as Hgt.
  destruct (cumsum_lookup _ _ _ _ Hc) as (x & Hx & Hprev).
  exists x. split; [exact Hx |].
  assert (Hx0 : (0 <= x)%Q).
  { rewrite Forall_lookup in Hpos. apply (Hpos d x Hx). }
  destruct (Qlt_le_dec 0 x) as [Hlt | Hle]; [exact Hlt |].
  exfalso. assert (Hz : (x == 0)%Q) by lra.
  destruct d as [| d'] eqn:Ed.
  - rewrite Hprev in Hgt.
    assert (((0 + x) / sum p == 0)%Q) by (rewrite Hz; field; lra).
    lra.
  - destruct Hprev as (c' & Hc' & ->).
    assert (Hcd' : cdf !! d' = Some (c' / sum p)%Q).
    { unfold cdf. rewrite list_lookup_fmap, Hc'. reflexivity. }
    pose proof (Hlow d' _ Hcd' ltac:(lia)) as Hle'.
    assert (((c' + x) / sum p == c' / sum p)%Q) by (rewrite Hz; field; lra).
    lra.
Qed.

Lemma action_out_draw (t : Q) (q q' : Queue.t) (g g' : nat) :
  Queue.action_out t q g = Ok (q', g') ->
  exists g1 d : nat,
    np_random_choice (Queue.number_of_nodes q + 1)
                     (Queue.destination q ++ [Queue.p_out q]) g1
    = Ok (d, g') /\
    Queue.next_destination q' = Some d /\ (g1 = g \/ g1 = S g).
Proof.
  unfold Queue.action_out, bind, lift, ret, bound. intros Hrun.
  destruct (negb (Queue.in_system q - 1 =? 0)%Z).
  - destruct (Queue.draw_service q g) as [[sv g1] |] eqn:Ed;
      [| discriminate].
    assert (Hg1 : g1 = S g).
    { unfold Queue.draw_service, bind, ret, np_random_lognormal,
        np_random_exponential in Ed.
      destruct (Queue.distribution q).
      - destruct (Qlt_bool (Queue.mu q) 0); [discriminate |].
        injection Ed as _ <-. reflexivity.
      - destruct (Qlt_bool (Queue.sigma q) 0); [discriminate |].
        injection Ed as _ <-. reflexivity.
      - destruct (Queue.popleft (Queue.jobs_in_system q)) as [[x l] |];
          [| discriminate].
        injection Ed as <- _. simpl in Hrun. discriminate. }
    destruct (Queue.popleft (Queue.jobs_in_system q)) as [[x l] |];
      [| discriminate].
    destruct sv as [sv |]; [| discriminate]. simpl in Hrun.
    destruct (np_random_choice _ _ g1) as [[d g2] |] eqn:Ec;
      [| discriminate].
    injection Hrun as <- <-. simpl. exists g1, d. auto.
  - destruct (np_random_choice _ _ g) as [[d g2] |] eqn:Ec;
      [| discriminate].
    injection Hrun as <- <-. simpl. exists g, d. auto.
Qed.
End Destinations.

(** X16. When the uniform variates are not negative, no node draws a
    destination of probability 0: the destination that [Queue.action_out]
    stores is a position of [destination] followed by [p_out] whose entry is
    positive (the last position meaning that the job leaves), and the
    destination that [Source.action_out] stores has a positive entry in the
    row of the stream that is due next. *)
Theorem destination_has_positive_probability `{Numpy} :
  (forall g : nat, (0 <= random_sample g)%Q) ->
  (forall (t : Q) (q q' : Queue.t) (g g' : nat),
     Queue.action_out t q g = Ok (q', g') ->
     exists (d : nat) (x : Q),
       Queue.next_destination q' = Some d /\
       (Queue.destination q ++ [Queue.p_out q]) !! d = Some x /\
       (0 < x)%Q /\ (d <= Queue.number_of_nodes q)%nat) /\
  (forall (t : Q) (self self' : Source.t) (g g' : nat),
     Source.action_out t self g = Ok (self', g') ->
     exists (row : list Q) (x : Q),
       Source.source_matrix self !! Source.next_source self' = Some row /\
       row !! Source.next_destination self' = Some x /\ (0 < x)%Q).
Proof.
  intros Hu. split.
  - intros t q q' g g' Hout.
    destruct (action_out_draw _ _ _ _ _ Hout) as (g1 & d & Hc & Hd & _).
    destruct (choice_positive _ _ _ _ _ (Hu g1) Hc) as (x & Hx & Hpos).
    exists d, x. repeat (split; [assumption |]).
    unfold np_random_choice in Hc.
    destruct (Queue.number_of_nodes q + 1 =? 0)%nat; [discriminate |].
    destruct (negb _); [discriminate |].
    destruct (existsb _ _); [discriminate |].
    destruct (Qlt_bool atol _); [discriminate |].
    destruct (_ <? _)%nat eqn:E; [| discriminate].
    injection Hc as <- _. apply Nat.ltb_lt in E. lia.
  - intros t self self' g g' Hout.
    destruct (source_action_out_draw _ _ _ _ _ Hout) as (_ & row & Hrow & Hc).
    destruct (choice_positive _ _ _ _ _ (Hu (S g)) Hc) as (x & Hx & Hpos).
    exists row, x. auto.
Qed.

Lemma destination_has_positive_probability_witness :
  (forall g : nat, (0 <= @random_sample tandem_numpy g)%Q) /\
  @Queue.action_out tandem_numpy (Queue.finish_time tandem_first_station)
    tandem_first_station (rng tandem_first)
  = Ok tandem_first_departure /\
  exists (d : nat) (x : Q),
    Queue.next_destination tandem_first_departure.1 = Some d /\
    (Queue.destination tandem_first_station
     ++ [Queue.p_out tandem_first_station]) !! d = Some x /\
    (0 < x)%Q.
Proof.
  assert (Hu : forall g : nat, (0 <= @random_sample tandem_numpy g)%Q).
  { intros g. change (0 <= (if Nat.even g then 1 # 4 else 3 # 4))%Q.
    destruct (Nat.even g); apply Qle_bool_iff; reflexivity. }
  assert (Hout : @Queue.action_out tandem_numpy
                   (Queue.finish_time tandem_first_station)
                   tandem_first_station (rng tandem_first)
                 = Ok tandem_first_departure) by (vm_compute; reflexivity).
  split; [exact Hu |]. split; [exact Hout |].
  destruct (@destination_has_positive_probability tandem_numpy Hu)
    as [Hq _].
  destruct (Hq _ _ tandem_first_departure.1 _ tandem_first_departure.2 Hout)
    as (d & x & Hd & Hx & Hpos & _).
  exists d, x. auto.
Defined.

(** * The firing of the source *)

Lemma choice_state `{Numpy} (n : nat) (p : list Q) (g g' d : nat) :
  np_random_choice n p g = Ok (d, g') -> g' = S g.
Proof.
  unfold np_random_choice.
  destruct (n =? 0)%nat; [discriminate |].
  destruct (negb _); [discriminate |].
  destruct (existsb _ _); [discriminate |].
  destruct (Qlt_bool atol _); [discriminate |].
  destruct (_ <? _)%nat; [| discriminate].
  intros [= _ <-]. reflexivity.
Qed.

(** X17. In every pass of a run that pops the entry of the source, the
    popped time is the stored [time_next] and the popped job is the stored
    [next_job]; the firing draws two variates, the increment and then the
    destination; and in the heap of the source only the entry of the due
    stream changes: its next arrival becomes the popped time plus the
    increment, while the entries of the other streams stay. *)
Theorem source_firing_replaces_the_due_entry `{Numpy} (p : params) (k : nat)
    (s s' : state) (t : Q) (job : option Z) (rest : list event) :
  run p k = Ok s ->
  heappop event_lt (events s) = Ok ((t, job, NSource), rest) ->
  iteration s = Ok s' ->
  t = Source.time_next (source s) /\
  job = Some (Source.next_job (source s)) /\
  Source.action_out t (source s) (rng s)
  = Ok (source s', S (S (rng s))) /\
  Source.next_job (source s') = (Source.next_job (source s) + 1)%Z /\
  exists (inc : Q) (others : list (Q * nat)),
    increment_of (source s) (rng s) inc /\
    Source.next_arrival (source s)
    ≡ₚ (t, Source.next_source (source s)) :: others /\
    Source.next_arrival (source s')
    ≡ₚ ((t + inc)%Q, Source.next_source (source s)) :: others.
Proof.
  intros Hrun Hpop Hit.
  assert (He : (t, job, NSource) ∈ events s).
  { apply (heappop_elem event_lt _ _ _ _ Hpop). left. reflexivity. }
  pose proof (run_mirrors _ _ _ Hrun _ He) as Hm.
  simpl in Hm. injection Hm as Ht Hj.
  destruct (run_streams _ _ _ Hrun) as [[_ Htop] _].
  apply iteration_Ok in Hit
    as (t' & job' & nd & evs0 & evs1 & sts1 & dest & g1
        & Hpop' & Hdisp & _).
  rewrite Hpop in Hpop'. injection Hpop' as <- <- <- <-.
  apply dispatch_Ok in Hdisp
    as [(_ & Hout & _) | (k0 & q0 & q1 & Hnd & _)]; [| discriminate Hnd].
  pose proof (source_action_out_draw _ _ _ _ _ Hout) as (_ & row & _ & Hc).
  apply choice_state in Hc. subst g1.
  split; [exact Ht |]. split; [exact Hj |]. split; [exact Hout |].
  apply source_action_out_Ok in Hout
    as (Hn & _ & _ & _ & _ & _ & _ & inc & least & popped & Hinc & Hp & Hnew
        & _).
  split; [exact Hn |]. exists inc, popped. split; [exact Hinc |].
  pose proof (heap_top_pop _ _ _ _ _ Htop Hp) as ->.
  apply heappop_Permutation in Hp. rewrite <- Ht in Hp.
  split; [exact Hp |].
  rewrite Hnew. symmetry. apply Permutation_cons_append.
Qed.

Lemma source_firing_replaces_the_due_entry_witness :
  @run tandem_numpy tandem 0 = Ok tandem_initial /\
  @iteration tandem_numpy tandem_initial = Ok tandem_first /\
  Source.next_job (source tandem_first) = 1%Z /\
  exists (inc : Q) (others : list (Q * nat)),
    Source.next_arrival (source tandem_first)
    ≡ₚ (((2 # 2) + inc)%Q, 0%nat) :: others.
Proof.
  assert (Hrun : @run tandem_numpy tandem 0 = Ok tandem_initial)
    by (vm_compute; reflexivity).
  assert (Hpop : heappop event_lt (events tandem_initial)
                 = Ok (((2 # 2)%Q, Some 0%Z, NSource), []))
    by (vm_compute; reflexivity).
  assert (Hit : @iteration tandem_numpy tandem_initial = Ok tandem_first)
    by (vm_compute; reflexivity).
  destruct (@source_firing_replaces_the_due_entry tandem_numpy tandem 0
              tandem_initial tandem_first _ _ _ Hrun Hpop Hit)
    as (_ & _ & _ & Hn & inc & others & _ & _ & Hnew).
  split; [exact Hrun |]. split; [exact Hit |]. split; [exact Hn |].
  exists inc, others. exact Hnew.
Defined.
